(** * Box-Jenkins analysis engine of [script.js]: embedding and properties

    The statistical routines of [script.js] (descriptive statistics, ACF and
    PACF, the simplified ADF test, Jarque-Bera, Ljung-Box, ARCH-LM, the three
    fitters on first differences, model ranking and the AR(1) forecaster) are
    transcribed once, over an abstract JavaScript number type [num] with the
    operations the source uses ([Num]).  The number system plugged in is
    [JSFloat]: IEEE-754 binary64, the numbers the program runs on (Rocq's
    primitive floats).  [Math.log], [Math.exp] and [Math.pow], which
    ECMAScript leaves implementation-approximated, are a parameter [Libm].
    Properties that hold in every number system are proved over [Num];
    properties of the computed values are proved on binary64, those that
    hold up to rounding through the real number a binary64 denotes ([B2R]),
    with the rounding error of each operation bounded from its
    specification.

    Rendering code (HTML strings, DOM access) is left out: each routine
    returns the values it computes. *)

From Stdlib Require String.
Import String.StringSyntax.
Delimit Scope string_scope with string.
From Stdlib Require Import List ZArith NArith QArith Reals Lra Lia Floats Bool.
From Stdlib Require Import Permutation Sorted.
Import ListNotations.

Set Implicit Arguments.

(** ** JavaScript numbers, abstractly *)

Class Num (num : Type) : Type := {
  lit : Q -> num;                     (* a decimal literal of the source *)
  NaN : num;
  Infinity : num;
  Math_PI : num;
  nadd : num -> num -> num;
  nsub : num -> num -> num;
  nmul : num -> num -> num;
  ndiv : num -> num -> num;
  nneg : num -> num;                  (* unary minus *)
  nltb : num -> num -> bool;          (* a < b *)
  nleb : num -> num -> bool;          (* a <= b *)
  neqb : num -> num -> bool;          (* a === b on numbers *)
  truthy : num -> bool;               (* ToBoolean: false on 0, -0 and NaN *)
  isFinite : num -> bool;
  Math_sqrt : num -> num;
  Math_log : num -> num;
  Math_exp : num -> num;
  Math_abs : num -> num;
  Math_sign : num -> num;
  Math_pow : num -> num -> num;
  Math_max : num -> num -> num;
  Math_min : num -> num -> num;
  Math_floor : num -> num;
  to_index : num -> option nat        (* x as an array index, when it is one *)
}.

Declare Scope js_scope.
Delimit Scope js_scope with js.
Notation "'#' q" := (lit q%Q) (at level 1, q at level 0, format "'#' q") : js_scope.
Infix "+" := nadd : js_scope.
Infix "-" := nsub : js_scope.
Infix "*" := nmul : js_scope.
Infix "/" := ndiv : js_scope.
Notation "- x" := (nneg x) : js_scope.
Infix "<?" := nltb : js_scope.
Infix "<=?" := nleb : js_scope.
Notation "a >? b" := (nltb b a) (at level 70, no associativity) : js_scope.
Infix "===" := neqb (at level 70, no associativity) : js_scope.

(** An array length or a loop counter used as a number. *)
Definition of_nat {num} `{Num num} (n : nat) : num :=
  lit (inject_Z (Z.of_nat n)).

(** ** The engine *)

Section Engine.

Context {num : Type} `{NumOps : Num num}.
Local Open Scope js_scope.

(** [a[i]] read as a number: out of range the read is [undefined], which
    every arithmetic operation and [isFinite] treat as NaN. *)
Definition get (a : list num) (i : nat) : num := nth i a NaN.

(** [a[x]] for a computed number [x]: an element when [x] is an array index
    (a non-negative integer below 2^32 - 1), [undefined] otherwise. *)
Definition get_at (a : list num) (x : num) : num :=
  match to_index x with
  | Some i => get a i
  | None => NaN
  end.

(** [a.reduce((s, v) => s + v, 0)]. *)
Definition sum (a : list num) : num := fold_left nadd a #0.

(** [Array.prototype.sort(cmp)]: stable; [x] moves in front of [y] exactly
    when [cmp(y, x) > 0].  ECMAScript fixes the result (not the algorithm) for
    a consistent comparator; insertion from the left is the model. *)
Fixpoint sort_insert {A} (cmp : A -> A -> num) (x : A) (l : list A) : list A :=
  match l with
  | [] => [x]
  | y :: l' => if cmp y x >? #0 then x :: l else y :: sort_insert cmp x l'
  end.

Definition Array_sort {A} (cmp : A -> A -> num) (l : list A) : list A :=
  fold_left (fun acc x => sort_insert cmp x acc) l [].

(** [Math.max(...a)] and [Math.min(...a)]. *)
Definition Math_max_of (a : list num) : num := fold_left Math_max a (- Infinity).
Definition Math_min_of (a : list num) : num := fold_left Math_min a Infinity.

(** One row of [dollarData]. *)
Record Observation : Type := {
  date : String.string;
  price : num;
  variation : num;
  variationPercent : num
}.

(** The dual-mode argument of the older routines: an array of numbers, or an
    array of rows.  ([typeof data[0] === 'number'] fails on the empty array,
    where both readings give the empty price list.) *)
Inductive series : Type :=
| Numeric (values : list num)
| Rows (rows : list Observation).

Definition isNumeric (data : series) : bool :=
  match data with
  | Numeric (_ :: _) => true
  | _ => false
  end.

Definition pricesOf (data : series) : list num :=
  match data with
  | Numeric values => values
  | Rows rows => map price rows
  end.

(** *** calculateDescriptiveStats *)

Record DescriptiveStats : Type := {
  st_n : nat;
  st_mean : num;
  st_median : num;
  st_variance : num;
  st_stdDev : num;
  st_range : num;
  st_cv : num;
  st_skewness : num;
  st_kurtosis : num;
  st_min : num;
  st_max : num;
  st_q1 : num;
  st_q3 : num
}.

Definition calculateSkewness (data : list num) (mean stdDev : num) : num :=
  let n := of_nat (length data) in
  if negb (isFinite stdDev) || (stdDev === #0) then #0
  else
    let s := fold_left (fun acc val => acc + Math_pow ((val - mean) / stdDev) #3) data #0 in
    (n / ((n - #1) * (n - #2))) * s.

Definition calculateKurtosis (data : list num) (mean stdDev : num) : num :=
  let n := of_nat (length data) in
  if negb (isFinite stdDev) || (stdDev === #0) then #0
  else
    let s := fold_left (fun acc val => acc + Math_pow ((val - mean) / stdDev) #4) data #0 in
    ((n * (n + #1)) / ((n - #1) * (n - #2) * (n - #3))) * s
    - (#3 * Math_pow (n - #1) #2) / ((n - #2) * (n - #3)).

Definition calculateDescriptiveStats (data : series) : DescriptiveStats :=
  let prices := filter isFinite (pricesOf data) in
  let n := length prices in
  match prices with
  | [] =>
      {| st_n := 0; st_mean := NaN; st_median := NaN; st_variance := NaN;
         st_stdDev := NaN; st_range := NaN; st_cv := NaN; st_skewness := NaN;
         st_kurtosis := NaN; st_min := NaN; st_max := NaN; st_q1 := NaN;
         st_q3 := NaN |}
  | [only] =>
      {| st_n := 1; st_mean := only; st_median := only; st_variance := #0;
         st_stdDev := #0; st_range := #0; st_cv := #0; st_skewness := #0;
         st_kurtosis := #0; st_min := only; st_max := only; st_q1 := only;
         st_q3 := only |}
  | _ =>
      let mean := sum prices / of_nat n in
      let sortedPrices := Array_sort (fun a b => a - b) prices in
      let median :=
        if Nat.even n
        then (get_at sortedPrices (of_nat n / #2 - #1) + get_at sortedPrices (of_nat n / #2)) / #2
        else get_at sortedPrices (Math_floor (of_nat n / #2)) in
      let variance :=
        fold_left (fun s p => s + Math_pow (p - mean) #2) prices #0 / (of_nat n - #1) in
      let stdDev := Math_sqrt variance in
      let range := Math_max_of prices - Math_min_of prices in
      let cv := (stdDev / mean) * #100 in
      let skewness := calculateSkewness prices mean stdDev in
      let kurtosis := calculateKurtosis prices mean stdDev in
      {| st_n := n; st_mean := mean; st_median := median; st_variance := variance;
         st_stdDev := stdDev; st_range := range; st_cv := cv;
         st_skewness := skewness; st_kurtosis := kurtosis;
         st_min := Math_min_of prices; st_max := Math_max_of prices;
         st_q1 := get_at sortedPrices (Math_floor (of_nat n * #0.25));
         st_q3 := get_at sortedPrices (Math_floor (of_nat n * #0.75)) |}
  end.

(** *** calculateACF, calculatePACF *)

Definition calculateACF (data : series) (maxLags : nat) : list num :=
  let prices := pricesOf data in
  let n := length prices in
  let mean := sum prices / of_nat n in
  map (fun lag =>
         let numerator :=
           fold_left (fun acc i => acc + (get prices i - mean) * (get prices (i + lag) - mean))
                     (seq 0 (n - lag)) #0 in
         let denominator :=
           fold_left (fun acc i => acc + Math_pow (get prices i - mean) #2) (seq 0 n) #0 in
         match lag with
         | O => #1
         | _ => numerator / denominator
         end)
      (seq 0 (maxLags + 1)).

(** The body of the loop over [k] of [calculatePACF]: the value pushed at
    step [k], given the array built so far. *)
Definition pacf_step (acf pacf : list num) (k : nat) : num :=
  match k with
  | 1%nat => get acf 1
  | _ =>
      let numerator :=
        fold_left (fun acc j => acc - get pacf j * get acf (k - j)) (seq 1 (k - 1)) (get acf k) in
      let denominator := #1 in
      numerator / denominator
  end.

Definition calculatePACF (data : series) (maxLags : nat) : list num :=
  let acf := calculateACF data maxLags in
  fold_left (fun pacf k => pacf ++ [pacf_step acf pacf k]) (seq 1 maxLags) [#1].

(** The first differences [prices[i] - prices[i-1]], [i = 1 .. n-1]. *)
Definition differences (prices : list num) : list num :=
  map (fun i => get prices i - get prices (i - 1)) (seq 1 (length prices - 1)).

(** *** adfTest *)

Record AdfResult : Type := {
  adf_statistic : num;
  adf_critical1 : num;
  adf_critical5 : num;
  adf_critical10 : num;
  adf_isStationary : bool;
  adf_pValue : num
}.

Definition adfTest (data : series) : AdfResult :=
  let prices := pricesOf data in
  let diffs := differences prices in
  let len := of_nat (length diffs) in
  let meanDiff := sum diffs / len in
  let variance :=
    fold_left (fun s d => s + Math_pow (d - meanDiff) #2) diffs #0 / (len - #1) in
  let adfStat := meanDiff / Math_sqrt (variance / len) in
  let isStationary := adfStat <? - #2.86 in
  {| adf_statistic := adfStat;
     adf_critical1 := - #3.43; adf_critical5 := - #2.86; adf_critical10 := - #2.57;
     adf_isStationary := isStationary;
     adf_pValue := if isStationary then #0.03 else #0.15 |}.

(** *** detectOutliers *)

Inductive OutlierType : Type := inferior | superior.

Record Outlier : Type := {
  o_index : nat;
  o_date : option String.string;   (* present in row mode only *)
  o_price : num;
  o_type : OutlierType
}.

Definition indexed {A} (l : list A) : list (nat * A) := combine (seq 0 (length l)) l.

Definition detectOutliers (data : series) : list Outlier :=
  let numeric := isNumeric data in
  let prices := pricesOf data in
  let stats := calculateDescriptiveStats (Numeric prices) in
  let iqr := st_q3 stats - st_q1 stats in
  let lowerBound := st_q1 stats - #1.5 * iqr in
  let upperBound := st_q3 stats + #1.5 * iqr in
  let flagged (p : num) := (p <? lowerBound) || (p >? upperBound) in
  let tag (p : num) := if p <? lowerBound then inferior else superior in
  match data with
  | Numeric (_ :: _) =>
      flat_map (fun ip : nat * num =>
                  let (index, p) := ip in
                  if flagged p
                  then [{| o_index := index; o_date := None; o_price := p; o_type := tag p |}]
                  else [])
               (indexed prices)
  | Numeric [] => []
  | Rows rows =>
      flat_map (fun ir : nat * Observation =>
                  let (index, item) := ir in
                  if flagged (price item)
                  then [{| o_index := index; o_date := Some (date item);
                           o_price := price item; o_type := tag (price item) |}]
                  else [])
               (indexed rows)
  end.

(** *** normalCdf, chiSquareUpperTailP *)

Definition normalCdf (z : num) : num :=
  let t := #1 / (#1 + #0.2316419 * Math_abs z) in
  let d := #0.3989423 * Math_exp (- z * z / #2) in
  let prob :=
    d * t * (#0.3193815 + t * (- #0.3565638 + t * (#1.781478 + t * (- #1.821256 + t * #1.330274)))) in
  let prob := if z >? #0 then #1 - prob else prob in
  if #0 <=? z then #1 - prob else prob.

Definition chiSquareUpperTailP (Q df : num) : num :=
  if df <=? #0 then #1
  else
    let a := #1 - #2 / (#9 * df) in
    let z := (Math_pow (Q / df) (#1 / #3) - a) / Math_sqrt (#2 / (#9 * df)) in
    let pUpper := #1 - normalCdf z in
    Math_min (Math_max pUpper #0) #1.

(** *** computeJarqueBera *)

Record JarqueBera : Type := { jb : num; jb_pValue : num }.

Definition computeJarqueBera (values : list num) : JarqueBera :=
  let n := length values in
  if (n <? 8)%nat then {| jb := NaN; jb_pValue := NaN |}
  else
    let mean := sum values / of_nat n in
    let m2 := fold_left (fun acc v => let x := v - mean in acc + x * x) values #0 in
    let m3 := fold_left (fun acc v => let x := v - mean in acc + x * x * x) values #0 in
    let m4 := fold_left (fun acc v => let x := v - mean in acc + x * x * x * x) values #0 in
    let m2 := m2 / of_nat n in
    let m3 := m3 / of_nat n in
    let m4 := m4 / of_nat n in
    let skew := m3 / Math_pow m2 #1.5 in
    let kurt := m4 / (m2 * m2) in
    let jbv := (of_nat n / #6) * (skew * skew + Math_pow (kurt - #3) #2 / #4) in
    {| jb := jbv; jb_pValue := Math_exp (- jbv / #2) |}.

(** *** computeAutocorrelations, ljungBoxTest *)

Definition computeAutocorrelations (values : list num) (m : nat) : list num :=
  let n := length values in
  if (n <? m + 1)%nat then repeat NaN m
  else
    let mean := sum values / of_nat n in
    let denom :=
      fold_left (fun acc i => let v := get values i - mean in acc + v * v) (seq 0 n) #0 in
    map (fun k =>
           let numr :=
             fold_left (fun acc t => acc + (get values t - mean) * (get values (t - k) - mean))
                       (seq k (n - k)) #0 in
           if truthy denom then numr / denom else #0)
        (seq 1 m).

Record LjungBox : Type := { lb_Q : num; lb_pValue : num }.

Definition ljungBoxTest (residuals : list num) (m p : nat) : LjungBox :=
  let n := length residuals in
  if (n <? m + 1)%nat then {| lb_Q := NaN; lb_pValue := NaN |}
  else
    let ac := computeAutocorrelations residuals m in
    let Q :=
      fold_left (fun Q k => let rk := get ac (k - 1) in Q + rk * rk / (of_nat n - of_nat k))
                (seq 1 m) #0 in
    let Q := Q * (of_nat n * (of_nat n + #2)) in
    let df := Math_max #1 (of_nat m - of_nat p) in
    {| lb_Q := Q; lb_pValue := chiSquareUpperTailP Q df |}.

(** *** fitAR1OnDiff *)

Record AR1Fit : Type := {
  ar_phi : num;
  ar_residuals : list num;
  ar_sigma2 : num;
  ar_se : num;
  ar_t : num;
  ar_pValue : num;
  ar_AIC : num;
  ar_BIC : num
}.

Definition sumSquares (a : list num) : num := fold_left (fun s e => s + e * e) a #0.

Definition fitAR1OnDiff (prices : list num) : AR1Fit :=
  if (length prices <? 3)%nat then
    {| ar_phi := NaN; ar_residuals := []; ar_sigma2 := NaN; ar_se := NaN;
       ar_t := NaN; ar_pValue := NaN; ar_AIC := NaN; ar_BIC := NaN |}
  else
    let returns := differences prices in
    let n := length returns in
    let y := skipn 1 returns in
    let x := firstn (n - 1) returns in
    let numr := fold_left (fun acc i => acc + get y i * get x i) (seq 0 (length x)) #0 in
    let den := fold_left (fun acc i => acc + get x i * get x i) (seq 0 (length x)) #0 in
    let phi := if truthy den then numr / den else #0 in
    let residuals := map (fun i => get y i - phi * get x i) (seq 0 (length y)) in
    let nEff := length residuals in
    let sigma2 := sumSquares residuals / Math_max #1 (of_nat nEff) in
    let se := Math_sqrt (sigma2 / Math_max den #1e-12) in
    let t := if truthy se then phi / se else NaN in
    let pValue := #2 * (#1 - normalCdf (Math_abs t)) in
    let logL := - #0.5 * of_nat nEff * (Math_log (#2 * Math_PI) + Math_log sigma2 + #1) in
    let k := #2 in
    let AIC := - #2 * logL + #2 * k in
    let BIC := - #2 * logL + k * Math_log (Math_max #1 (of_nat nEff)) in
    {| ar_phi := phi; ar_residuals := residuals; ar_sigma2 := sigma2; ar_se := se;
       ar_t := t; ar_pValue := pValue; ar_AIC := AIC; ar_BIC := BIC |}.

(** *** archLMTest *)

Record ArchLM : Type := { arch_LM : num; arch_pValue : num; arch_R2 : num }.

Definition archLMTest (residuals : list num) (m : nat) : ArchLM :=
  let n := length residuals in
  if (n <? m + 2)%nat then {| arch_LM := NaN; arch_pValue := NaN; arch_R2 := NaN |}
  else
    let y := map (fun r => r * r) residuals in
    let Y := skipn 1 y in
    let X := firstn (length y - 1) y in
    let meanX := sum X / of_nat (length X) in
    let meanY := sum Y / of_nat (length Y) in
    let cov :=
      fold_left (fun acc i => acc + (get X i - meanX) * (get Y i - meanY)) (seq 0 (length X)) #0 in
    let varX :=
      fold_left (fun acc i => let dx := get X i - meanX in acc + dx * dx) (seq 0 (length X)) #0 in
    let beta := if truthy varX then cov / varX else #0 in
    let alpha := meanY - beta * meanX in
    let ssr :=
      fold_left (fun acc i => let err := get Y i - (alpha + beta * get X i) in acc + err * err)
                (seq 0 (length X)) #0 in
    let tss :=
      fold_left (fun acc i => acc + (get Y i - meanY) * (get Y i - meanY)) (seq 0 (length X)) #0 in
    let R2 := if truthy tss then #1 - ssr / tss else #0 in
    let LM := of_nat (length X) * Math_max #0 R2 in
    {| arch_LM := LM; arch_pValue := chiSquareUpperTailP LM (of_nat m); arch_R2 := R2 |}.

(** *** estimateThetaFromACF1, fitMA1OnDiff *)

Definition estimateThetaFromACF1 (rho1 : num) : num :=
  let r := Math_max (- #0.49) (Math_min #0.49 rho1) in
  if Math_abs r <? #1e-6 then #0
  else
    let disc := #1 - #4 * r * r in
    if disc <? #0 then #0
    else
      let t1 := (#1 - Math_sqrt disc) / (#2 * r) in
      let t2 := (#1 + Math_sqrt disc) / (#2 * r) in
      let theta := if Math_abs t1 <=? #1 then t1 else t2 in
      if Math_abs theta >? #0.99 then Math_sign theta * #0.99 else theta.

Record MA1Fit : Type := {
  ma_theta : num;
  ma_residuals : list num;
  ma_sigma2 : num;
  ma_logL : num;
  ma_AIC : num;
  ma_BIC : num
}.

(** The de-meaned first differences both moment fitters work on. *)
Definition demeanedReturns (prices : list num) : list num :=
  let returns := differences prices in
  let mean := sum returns / of_nat (length returns) in
  map (fun v => v - mean) returns.

(** [rho1] of [fitMA1OnDiff]: the lag-1 entry of the ACF of the de-meaned
    differences, or 0 when that entry is not finite. *)
Definition ma1_rho1 (prices : list num) : num :=
  let acf := calculateACF (Numeric (demeanedReturns prices)) 2 in
  if (1 <? length acf)%nat && isFinite (get acf 1) then get acf 1 else #0.

(** [eps = x[t] - theta * epsPrev], pushed for every [t]; the accumulator
    carries [epsPrev] and the array built so far. *)
Definition ma1_residuals (theta : num) (x : list num) : list num :=
  snd (fold_left (fun (st : num * list num) xt =>
                    let eps := xt - theta * fst st in
                    (eps, snd st ++ [eps]))
                 x (#0, [])).

Definition fitMA1OnDiff (prices : list num) : MA1Fit :=
  if (length prices <? 3)%nat then
    {| ma_theta := NaN; ma_residuals := []; ma_sigma2 := NaN; ma_logL := NaN;
       ma_AIC := NaN; ma_BIC := NaN |}
  else
    let x := demeanedReturns prices in
    let rho1 := ma1_rho1 prices in
    let theta := estimateThetaFromACF1 rho1 in
    let residuals := ma1_residuals theta x in
    let nEff := length residuals in
    let sigma2 := sumSquares residuals / Math_max #1 (of_nat nEff) in
    let logL := - #0.5 * of_nat nEff * (Math_log (#2 * Math_PI) + Math_log sigma2 + #1) in
    let k := #2 in
    let AIC := - #2 * logL + #2 * k in
    let BIC := - #2 * logL + k * Math_log (Math_max #1 (of_nat nEff)) in
    {| ma_theta := theta; ma_residuals := residuals; ma_sigma2 := sigma2;
       ma_logL := logL; ma_AIC := AIC; ma_BIC := BIC |}.

(** *** fitARMA11OnDiff *)

Record ARMA11Fit : Type := {
  arma_phi : num;
  arma_theta : num;
  arma_residuals : list num;
  arma_sigma2 : num;
  arma_logL : num;
  arma_AIC : num;
  arma_BIC : num
}.

(** The values taken by the variable of [for (v = from; v <= to; v += step)],
    cut after [fuel] rounds. *)
Fixpoint loop_values (fuel : nat) (v to step : num) : list num :=
  match fuel with
  | O => []
  | S fuel' => if v <=? to then v :: loop_values fuel' (v + step) to step else []
  end.

(** The grid of either parameter; the loop leaves through its test after 19
    rounds ([grid_exits_by_test] on binary64), well within the fuel. *)
Definition grid_fuel : nat := 32.
Definition grid : list num := loop_values grid_fuel (- #0.9) #0.9 #0.1.

(** [eps = x[t] - phi * x[t-1] - theta * epsPrev] for [t = 1 .. len-1]. *)
Definition arma11_residuals (phi theta : num) (x : list num) : list num :=
  snd (fold_left (fun (st : num * list num) t =>
                    let eps := get x t - phi * get x (t - 1) - theta * fst st in
                    (eps, snd st ++ [eps]))
                 (seq 1 (length x - 1)) (#0, [])).

(** The mean squared residual of one grid point ([sse / Math.max(1, count)]). *)
Definition arma11_sigma2 (phi theta : num) (x : list num) : num :=
  let st :=
    fold_left (fun (st : num * num * nat) t =>
                 let '(epsPrev, sse, count) := st in
                 let eps := get x t - phi * get x (t - 1) - theta * epsPrev in
                 (eps, sse + eps * eps, S count))
              (seq 1 (length x - 1)) (#0, #0, O) in
  let '(_, sse, count) := st in
  sse / Math_max #1 (of_nat count).

Definition arma11_search (x : list num) : num * num * num :=
  fold_left (fun best phi =>
               fold_left (fun (best : num * num * num) theta =>
                            let '(bestPhi, bestTheta, bestSigma2) := best in
                            let sigma2 := arma11_sigma2 phi theta x in
                            if sigma2 <? bestSigma2 then (phi, theta, sigma2) else best)
                         grid best)
            grid (#0, #0, Infinity).

Definition fitARMA11OnDiff (prices : list num) : ARMA11Fit :=
  if (length prices <? 4)%nat then
    {| arma_phi := NaN; arma_theta := NaN; arma_residuals := []; arma_sigma2 := NaN;
       arma_logL := NaN; arma_AIC := NaN; arma_BIC := NaN |}
  else
    let x := demeanedReturns prices in
    let '(bestPhi, bestTheta, _) := arma11_search x in
    let residuals := arma11_residuals bestPhi bestTheta x in
    let nEff := length residuals in
    let sigma2 := sumSquares residuals / Math_max #1 (of_nat nEff) in
    let logL := - #0.5 * of_nat nEff * (Math_log (#2 * Math_PI) + Math_log sigma2 + #1) in
    let k := #3 in
    let AIC := - #2 * logL + #2 * k in
    let BIC := - #2 * logL + k * Math_log (Math_max #1 (of_nat nEff)) in
    {| arma_phi := bestPhi; arma_theta := bestTheta; arma_residuals := residuals;
       arma_sigma2 := sigma2; arma_logL := logL; arma_AIC := AIC; arma_BIC := BIC |}.

(** *** generateModelSelectionForStage2 *)

(** A row of the ranking table.  [params], a formatted string, is left
    out; [rank] is unset until the ranking assigns it. *)
Record Candidate : Type := {
  c_name : String.string;
  c_AIC : num;
  c_BIC : num;
  c_logL : num;
  c_k : nat;
  c_rank : option nat
}.

Definition set_rank (m : Candidate) (r : nat) : Candidate :=
  {| c_name := c_name m; c_AIC := c_AIC m; c_BIC := c_BIC m; c_logL := c_logL m;
     c_k := c_k m; c_rank := Some r |}.

(** [(a.AIC - b.AIC) || (a.BIC - b.BIC)]. *)
Definition compareModels (a b : Candidate) : num :=
  let d := c_AIC a - c_AIC b in
  if truthy d then d else c_BIC a - c_BIC b.

(** The selection proper: [.filter(...)], [.sort(...)], then
    [forEach((m, i) => m.rank = i + 1)]. *)
Definition rankModels (models : list Candidate) : list Candidate :=
  let models := filter (fun m => isFinite (c_AIC m) && isFinite (c_BIC m)) models in
  let models := Array_sort compareModels models in
  map (fun im : nat * Candidate => set_rank (snd im) (fst im + 1)) (indexed models).

Definition candidateModels (prices : list num) : list Candidate :=
  let ar1 := fitAR1OnDiff prices in
  let ma1 := fitMA1OnDiff prices in
  let arma11 := fitARMA11OnDiff prices in
  let logL_ar1 :=
    - #0.5 * of_nat (length (ar_residuals ar1))
    * (Math_log (#2 * Math_PI) + Math_log (ar_sigma2 ar1) + #1) in
  [ {| c_name := "ARIMA(1,1,0)"%string; c_AIC := ar_AIC ar1; c_BIC := ar_BIC ar1;
       c_logL := logL_ar1; c_k := 2; c_rank := None |};
    {| c_name := "ARIMA(0,1,1)"%string; c_AIC := ma_AIC ma1; c_BIC := ma_BIC ma1;
       c_logL := ma_logL ma1; c_k := 2; c_rank := None |};
    {| c_name := "ARIMA(1,1,1)"%string; c_AIC := arma_AIC arma11; c_BIC := arma_BIC arma11;
       c_logL := arma_logL arma11; c_k := 3; c_rank := None |} ].

(** [None] is the early [return] on fewer than 10 prices; otherwise the
    ranked models, of which the table shows [slice(0, 3)]. *)
Definition generateModelSelectionForStage2 (dollarData : list Observation)
  : option (list Candidate) :=
  let prices := map price dollarData in
  if (length prices <? 10)%nat then None
  else Some (firstn 3 (rankModels (candidateModels prices))).

(** *** generateRealForecastsForStage5 *)

Record Forecasts : Type := {
  diffForecasts : list num;
  pointForecasts : list num;
  seForecasts : list num
}.

Definition forecastHorizon : nat := 12.

(** [diffForecasts[0] = isFinite(phi) ? phi * lastDiff : NaN], then
    [diffForecasts[h-1] = isFinite(phi) ? phi * diffForecasts[h-2] : NaN]. *)
Fixpoint diffForecastsFrom (phi prev : num) (count : nat) : list num :=
  match count with
  | O => []
  | S count' =>
      let d := if isFinite phi then phi * prev else NaN in
      d :: diffForecastsFrom phi d count'
  end.

Definition generateRealForecastsForStage5 (dollarData : list Observation) : Forecasts :=
  let prices := map price dollarData in
  let est := fitAR1OnDiff prices in
  let phi := ar_phi est in
  let residuals := ar_residuals est in
  let nRes := length residuals in
  let sigma2 :=
    if (0 <? nRes)%nat then fold_left (fun acc v => acc + v * v) residuals #0 / of_nat nRes
    else NaN in
  let lastPrice := get prices (length prices - 1) in
  let lastDiff :=
    if (1 <? length prices)%nat
    then get prices (length prices - 1) - get prices (length prices - 2)
    else #0 in
  let diffs := diffForecastsFrom phi lastDiff forecastHorizon in
  let points :=
    map (fun h =>
           let sumDiff :=
             fold_left (fun a b => a + (if isFinite b then b else #0)) (firstn h diffs) #0 in
           if isFinite lastPrice then lastPrice + sumDiff else NaN)
        (seq 1 forecastHorizon) in
  let ses :=
    map (fun h =>
           let varSum :=
             if isFinite sigma2 && isFinite phi then
               fold_left (fun varSum m =>
                            let weight :=
                              (#1 - Math_pow phi (of_nat (h - m + 1))) / (#1 - phi) in
                            varSum + weight * weight)
                         (seq 1 h) #0
             else NaN in
           if isFinite varSum then Math_sqrt (sigma2 * varSum) else NaN)
        (seq 1 forecastHorizon) in
  {| diffForecasts := diffs; pointForecasts := points; seForecasts := ses |}.

End Engine.

(** ** Binary64: the numbers the program runs on *)

Module JSFloat.

Local Open Scope float_scope.

(** [Math.log], [Math.exp] and [Math.pow] of the host. *)
Record Libm : Type := {
  libm_log : float -> float;
  libm_exp : float -> float;
  libm_pow : float -> float -> float
}.

Existing Class Libm.

Definition Z2float (z : Z) : float :=
  match z with
  | Z0 => PrimFloat.zero
  | Zpos _ => PrimFloat.of_uint63 (Uint63.of_Z z)
  | Zneg p => - PrimFloat.of_uint63 (Uint63.of_Z (Zpos p))
  end.

(** A decimal literal denotes the binary64 nearest to its value: an integer
    is converted; any other literal is the correctly rounded quotient of
    numerator and denominator, both of which are exact for every literal of
    the source.  An array length, below 2^32, is exact too. *)
Definition js_lit (q : Q) : float :=
  match Qden q with
  | xH => Z2float (Qnum q)
  | d => Z2float (Qnum q) / Z2float (Zpos d)
  end.

Definition js_PI : float := 0x1.921fb54442d18p+1.

Definition js_truthy (x : float) : bool := negb (PrimFloat.is_nan x || PrimFloat.is_zero x).

Definition js_sign (x : float) : float :=
  if PrimFloat.is_nan x then nan
  else if 0 <? x then 1
  else if x <? 0 then -1
  else x.

(** [Math.max] and [Math.min]: NaN when either argument is; [+0] above [-0]. *)
Definition js_max (a b : float) : float :=
  if PrimFloat.is_nan a || PrimFloat.is_nan b then nan
  else if a <? b then b
  else if b <? a then a
  else if PrimFloat.get_sign a then b else a.

Definition js_min (a b : float) : float :=
  if PrimFloat.is_nan a || PrimFloat.is_nan b then nan
  else if a <? b then a
  else if b <? a then b
  else if PrimFloat.get_sign a then a else b.

(** [Math.floor]: a finite number with a negative exponent has its mantissa
    shifted (an arithmetic shift rounds toward minus infinity); the result is
    below 2^53 in absolute value, hence exact.  Every other number is an
    integer, an infinity, a zero or NaN, and is returned as it is. *)
Definition js_floor (x : float) : float :=
  match Prim2SF x with
  | S754_finite s m e =>
      if (e <? 0)%Z
      then Z2float (Z.shiftr (if s then Z.neg m else Z.pos m) (- e))
      else x
  | _ => x
  end.

(** The integer a number denotes, when it is a non-negative integer below
    2^32 - 1: the array indices of ECMAScript. *)
Definition max_index : Z := 4294967295.

Definition js_to_index (x : float) : option nat :=
  match Prim2SF x with
  | S754_zero _ => Some O
  | S754_finite false m e =>
      let v := if (e <? 0)%Z then Z.shiftr (Z.pos m) (- e) else (Z.pos m * 2 ^ e)%Z in
      let integral := if (e <? 0)%Z then (Z.pos m mod 2 ^ (- e) =? 0)%Z else true in
      if integral && (v <? max_index)%Z then Some (Z.to_nat v) else None
  | _ => None
  end.

#[export] Instance float_Num (L : Libm) : Num float := {|
  lit := js_lit;
  NaN := nan;
  Infinity := infinity;
  Math_PI := js_PI;
  nadd := PrimFloat.add;
  nsub := PrimFloat.sub;
  nmul := PrimFloat.mul;
  ndiv := PrimFloat.div;
  nneg := PrimFloat.opp;
  nltb := PrimFloat.ltb;
  nleb := PrimFloat.leb;
  neqb := PrimFloat.eqb;
  truthy := js_truthy;
  isFinite := PrimFloat.is_finite;
  Math_sqrt := PrimFloat.sqrt;
  Math_log := libm_log L;
  Math_exp := libm_exp L;
  Math_abs := PrimFloat.abs;
  Math_sign := js_sign;
  Math_pow := libm_pow L;
  Math_max := js_max;
  Math_min := js_min;
  Math_floor := js_floor;
  to_index := js_to_index
|}.

End JSFloat.


(** ** A reference [Libm]

    One admissible host: [Math.pow] squares by a product and takes small
    integer powers by repeated products, [Math.exp] and [Math.log] are
    series evaluated in binary64.  Every statement about binary64 below is
    quantified over the host; this one serves to evaluate the engine on
    concrete series. *)

Module RefLibm.

Import JSFloat.
Local Open Scope float_scope.

Fixpoint horner_exp (terms : nat) (r : float) (i : Z) : float :=
  match terms with
  | O => 1
  | S terms' => 1 + r / Z2float i * horner_exp terms' r (i + 1)%Z
  end.

Fixpoint square_times (n : nat) (x : float) : float :=
  match n with
  | O => x
  | S n' => square_times n' (x * x)
  end.

Definition exp_core (x : float) : float :=
  square_times 10 (horner_exp 14 (x / 1024) 1).

Definition ref_exp (x : float) : float :=
  if PrimFloat.is_nan x then nan
  else if x <=? 0 then
    (if x <? -746 then 0 else js_min (js_max (exp_core x) 0) 1)
  else
    (if 710 <? x then infinity else exp_core x).

Fixpoint atanh_series (terms : nat) (s2 : float) (i : Z) : float :=
  match terms with
  | O => 0
  | S terms' => 1 / Z2float i + s2 * atanh_series terms' s2 (i + 2)%Z
  end.

Definition ln2 : float := 0x1.62e42fefa39efp-1.

Definition ref_log (x : float) : float :=
  if PrimFloat.is_nan x || (x <? 0) then nan
  else if x =? 0 then neg_infinity
  else if x =? infinity then infinity
  else
    let (m, e) := Z.frexp x in
    let (m, e) := if m <? 0x1.6a09e667f3bcdp-1 then (2 * m, (e - 1)%Z) else (m, e) in
    let s := (m - 1) / (m + 1) in
    Z2float e * ln2 + 2 * s * atanh_series 24 (s * s) 1.

Fixpoint pow_nat (x : float) (n : nat) : float :=
  match n with
  | O => 1
  | S O => x
  | S n' => x * pow_nat x n'
  end.

(** The exponent as a natural number below [bound], when it is one. *)
Fixpoint small_nat (bound : nat) (y : float) : option nat :=
  match bound with
  | O => None
  | S b =>
      match small_nat b y with
      | Some n => Some n
      | None => if y =? Z2float (Z.of_nat b) then Some b else None
      end
  end.

Definition ref_pow (x y : float) : float :=
  if y =? 0 then 1
  else if y =? 2 then x * x
  else match small_nat 64 y with
       | Some n => pow_nat x n
       | None => ref_exp (y * ref_log x)
       end.

Definition libm : Libm :=
  {| libm_log := ref_log; libm_exp := ref_exp; libm_pow := ref_pow |}.

End RefLibm.

(** ** Vocabulary of the statements *)

(** The array [calculatePACF] has built after [m] rounds of its loop. *)
Definition pacf_upto {num} `{NumOps : Num num} (acf : list num) (m : nat) : list num :=
  fold_left (fun pacf k => pacf ++ [pacf_step acf pacf k]) (seq 1 m) [lit 1].

(** The result of [fitAR1OnDiff] on too short a series. *)
Definition AR1_all_NaN {num} `{NumOps : Num num} : AR1Fit :=
  {| ar_phi := NaN; ar_residuals := []; ar_sigma2 := NaN; ar_se := NaN;
     ar_t := NaN; ar_pValue := NaN; ar_AIC := NaN; ar_BIC := NaN |}.

(** A binary64 that is NaN or lies in [[0, 1]]. *)
Definition unit_or_nan (p : float) : Prop :=
  PrimFloat.is_nan p = true \/ (PrimFloat.leb 0 p = true /\ PrimFloat.leb p 1 = true).

(** A binary64 that is NaN or at least 0; NaN or at most 0. *)
Definition nonneg_or_nan (x : float) : Prop :=
  PrimFloat.is_nan x = true \/ PrimFloat.leb 0 x = true.

Definition nonpos_or_nan (x : float) : Prop :=
  PrimFloat.is_nan x = true \/ PrimFloat.leb x 0 = true.

(** The same on specification floats: the sign bit is clear. *)
Definition SFnonneg (x : spec_float) : Prop :=
  match x with
  | S754_nan | S754_zero _ => True
  | S754_infinity s | S754_finite s _ _ => s = false
  end.

Definition SFnonpos (x : spec_float) : Prop :=
  match x with
  | S754_nan | S754_zero _ => True
  | S754_infinity s | S754_finite s _ _ => s = true
  end.

(** A row carrying only a price. *)
Definition row {num} `{NumOps : Num num} (p : num) : Observation :=
  {| date := String.EmptyString; price := p; variation := lit 0; variationPercent := lit 0 |}.

(** A candidate of the ranking carrying only its two criteria. *)
Definition candidate {num} `{NumOps : Num num} (aic bic : num) : Candidate :=
  {| c_name := String.EmptyString; c_AIC := aic; c_BIC := bic; c_logL := lit 0;
     c_k := 2; c_rank := None |}.

(** The fences of the 1.5 x IQR rule as the specification words them: quartiles are
    the sorted finite values at the indices [floor(n * 0.25)] and
    [floor(n * 0.75)]. *)
Definition outlier_fences {num} `{NumOps : Num num} (prices : list num) : num * num :=
  let finite := filter isFinite prices in
  let sorted := Array_sort (fun a b => nsub a b) finite in
  let n := of_nat (length finite) in
  let q1 := get_at sorted (Math_floor (nmul n (lit 0.25))) in
  let q3 := get_at sorted (Math_floor (nmul n (lit 0.75))) in
  let iqr := nsub q3 q1 in
  (nsub q1 (nmul (lit 1.5) iqr), nadd q3 (nmul (lit 1.5) iqr)).

(** The date an outlier at index [i] carries: that of the row, in row mode. *)
Definition row_date {num} `{NumOps : Num num} (data : @series num) (i : nat) : option String.string :=
  match data with
  | Numeric _ => None
  | Rows rows => option_map (fun r : @Observation num => date r) (nth_error rows i)
  end.

(** The denominator of [computeAutocorrelations]: the centered sum of squares
    of the whole sample. *)
Definition centeredSumSquares {num} `{NumOps : Num num} (values : list num) : num :=
  let n := length values in
  let mean := ndiv (sum values) (of_nat n) in
  fold_left (fun acc i => let v := nsub (get values i) mean in nadd acc (nmul v v))
            (seq 0 n) (lit 0).

(** The order of the ranking on binary64 criteria: [a] may stand before [b]
    when its AIC is smaller, or the AICs are equal and its BIC is not larger. *)
Definition ranks_before (a b : @Candidate float) : Prop :=
  PrimFloat.ltb (c_AIC a) (c_AIC b) = true \/
  (PrimFloat.eqb (c_AIC a) (c_AIC b) = true /\ PrimFloat.leb (c_BIC a) (c_BIC b) = true).

(** A candidate both of whose criteria are finite. *)
Definition finite_criteria {num} `{NumOps : Num num} (m : Candidate) : bool :=
  isFinite (c_AIC m) && isFinite (c_BIC m).

(** *** Specification floats *)

(** Rounding keeps the sign it is given. *)
Definition SFsigned (s : bool) (x : spec_float) : Prop :=
  match x with
  | S754_nan => True
  | S754_zero s' | S754_infinity s' | S754_finite s' _ _ => s' = s
  end.

(** A positive finite binary64. *)
Definition positive_finite (y : float) : Prop :=
  exists m e, Prim2SF y = S754_finite false m e.

(** The canonical exponent and the least exponent of binary64. *)
Abbreviation fexp64 := (fexp prec emax).
Abbreviation emin64 := (SpecFloat.emin prec emax).

(** A finite or infinite result with the given sign. *)
Definition SFnonzero (s : bool) (x : spec_float) : Prop :=
  match x with
  | S754_finite s' _ _ | S754_infinity s' => s' = s
  | _ => False
  end.

(** The sign of a spec float, as the result of comparing it with zero. *)
Definition SFsign (x : spec_float) : option comparison :=
  match x with
  | S754_nan => None
  | S754_zero _ => Some Eq
  | S754_infinity s | S754_finite s _ _ => Some (if s then Lt else Gt)
  end.

(** The mantissas of a sum or difference, aligned on the smaller exponent. *)
Definition aligned (s : bool) (m : positive) (e ez : Z) : Z :=
  cond_Zopp s (Z.pos (fst (shl_align m e ez))).

(** Zero or finite: what [isFinite] accepts. *)
Definition SFfinite (x : spec_float) : Prop :=
  match x with
  | S754_zero _ | S754_finite _ _ _ => True
  | _ => False
  end.

(** ** More of the engine: the fit panel and the other forecast panels *)

Section EnginePanels.

Context {num : Type} `{NumOps : Num num}.
Local Open Scope js_scope.

(** *** generateFitMetricsForStage3 *)

(** The numbers the panel shows and the word it puts on R2. *)
Record FitMetrics : Type := {
  fm_logLikelihood : num;
  fm_AIC : num;
  fm_BIC : num;
  fm_R2 : num;
  fm_level : String.string
}.

Definition generateFitMetricsForStage3 (dollarData : list Observation) : FitMetrics :=
  let prices := map price dollarData in
  let returns := differences prices in
  let rStats := calculateDescriptiveStats (Numeric returns) in
  let est := fitAR1OnDiff prices in
  let sigma2 := ar_sigma2 est in
  let nEff := length (ar_residuals est) in
  let logLikelihood :=
    - #0.5 * of_nat nEff * (Math_log (#2 * Math_PI) + Math_log sigma2 + #1) in
  let R2 := Math_max #0 (Math_min #1 (#1 - sigma2 / st_variance rStats)) in
  {| fm_logLikelihood := logLikelihood;
     fm_AIC := ar_AIC est;
     fm_BIC := ar_BIC est;
     fm_R2 := R2;
     fm_level :=
       if R2 >? #0.7 then "Excelente"
       else if R2 >? #0.5 then "Bueno"
       else if R2 >? #0.3 then "Moderado"
       else "Bajo" |}%string.


(** *** generateForecastGenerationForStage5, generateInterpretationForStage5 *)

Record Interval : Type := { lower : num; upper : num }.

Record ForecastGeneration : Type := {
  fg_forecasts : list num;
  fg_confidenceIntervals95 : list Interval;
  fg_confidenceIntervals80 : list Interval
}.

Definition generateForecastGenerationForStage5 (dollarData : list Observation)
  : ForecastGeneration :=
  let prices := map price dollarData in
  let stats := calculateDescriptiveStats (Numeric prices) in
  let est := fitAR1OnDiff prices in
  let phi := ar_phi est in
  let residuals := ar_residuals est in
  let nRes := length residuals in
  let sigma2 :=
    if (0 <? nRes)%nat then fold_left (fun acc v => acc + v * v) residuals #0 / of_nat nRes
    else NaN in
  let sigma :=
    if isFinite sigma2 then Math_sqrt sigma2 else Math_sqrt (st_variance stats * #0.3) in
  let lastPrice := get prices (length prices - 1) in
  let lastDiff :=
    if (1 <? length prices)%nat
    then get prices (length prices - 1) - get prices (length prices - 2)
    else #0 in
  let diffs := diffForecastsFrom phi lastDiff forecastHorizon in
  let forecastAt (h : nat) :=
    let sumDiff :=
      fold_left (fun a b => a + (if isFinite b then b else #0)) (firstn h diffs) #0 in
    if isFinite lastPrice then lastPrice + sumDiff else NaN in
  let seAt (h : nat) :=
    let varSum :=
      if isFinite sigma2 && isFinite phi then
        fold_left (fun varSum m =>
                     let weight :=
                       (#1 - Math_pow phi (of_nat (h - m + 1))) / (#1 - phi) in
                     varSum + weight * weight)
                  (seq 1 h) #0
      else NaN in
    if isFinite varSum then Math_sqrt (sigma2 * varSum)
    else sigma * Math_sqrt (#1 + #0.1 * (of_nat h - #1)) in
  {| fg_forecasts := map forecastAt (seq 1 forecastHorizon);
     fg_confidenceIntervals95 :=
       map (fun h => {| lower := forecastAt h - #1.96 * seAt h;
                        upper := forecastAt h + #1.96 * seAt h |})
           (seq 1 forecastHorizon);
     fg_confidenceIntervals80 :=
       map (fun h => {| lower := forecastAt h - #1.2816 * seAt h;
                        upper := forecastAt h + #1.2816 * seAt h |})
           (seq 1 forecastHorizon) |}.

(** The forecasts of [generateInterpretationForStage5]. *)
Definition generateInterpretationForStage5 (dollarData : list Observation) : list num :=
  let prices := map price dollarData in
  let lastPrice := get prices (length prices - 1) in
  let est := fitAR1OnDiff prices in
  let phi := ar_phi est in
  let lastDiff :=
    if (1 <? length prices)%nat
    then get prices (length prices - 1) - get prices (length prices - 2)
    else #0 in
  let diffs := diffForecastsFrom phi lastDiff forecastHorizon in
  map (fun h =>
         let sumDiff :=
           fold_left (fun a b => a + (if isFinite b then b else #0)) (firstn h diffs) #0 in
         if isFinite lastPrice then lastPrice + sumDiff else NaN)
      (seq 1 forecastHorizon).

End EnginePanels.

(** ** Dates: [parseCustomDate] and [formatDateCompactEs] *)

Module Dates.

Local Open Scope N_scope.

(** A string is its sequence of UTF-16 code units. *)
Definition jsstring : Type := list N.

Definition units (s : String.string) : jsstring :=
  map Ascii.N_of_ascii (String.list_ascii_of_string s).

(** The classes of the pattern: [\s] (white space and line terminators),
    [\d] and [[A-Za-z]]. *)
Definition is_space (c : N) : bool :=
  (c =? 9) || (c =? 10) || (c =? 11) || (c =? 12) || (c =? 13) || (c =? 32)
  || (c =? 160) || (c =? 5760) || ((8192 <=? c) && (c <=? 8202))
  || (c =? 8232) || (c =? 8233) || (c =? 8239) || (c =? 8287) || (c =? 12288)
  || (c =? 65279).

Definition is_digit (c : N) : bool := (48 <=? c) && (c <=? 57).

Definition is_letter (c : N) : bool :=
  ((65 <=? c) && (c <=? 90)) || ((97 <=? c) && (c <=? 122)).

(** [toLowerCase] on a code unit matched by [[A-Za-z]]. *)
Definition lower (c : N) : N := if (65 <=? c) && (c <=? 90) then c + 32 else c.

Fixpoint skip_spaces (s : jsstring) : jsstring :=
  match s with
  | c :: s' => if is_space c then skip_spaces s' else s
  | [] => []
  end.

(** [/^\s*(\d{2})([A-Za-z]{3})(\d{2})\s*$/.exec(s)]: the three groups. *)
Definition exec_date (s : jsstring) : option (jsstring * jsstring * jsstring) :=
  match skip_spaces s with
  | d1 :: d2 :: l1 :: l2 :: l3 :: y1 :: y2 :: rest =>
      if is_digit d1 && is_digit d2
         && is_letter l1 && is_letter l2 && is_letter l3
         && is_digit y1 && is_digit y2 && forallb is_space rest
      then Some ([d1; d2], [l1; l2; l3], [y1; y2])
      else None
  | _ => None
  end.

(** [parseInt(s, 10)] on a string of decimal digits. *)
Definition parseInt (s : jsstring) : N :=
  fold_left (fun acc c => 10 * acc + (c - 48)) s 0.

(** [String(n)] for a non-negative integer, and [padStart(2, '0')]. *)
Fixpoint decimal (fuel : nat) (n : N) : jsstring :=
  match fuel with
  | O => []
  | S fuel' => if n <? 10 then [48 + n] else decimal fuel' (n / 10) ++ [48 + n mod 10]
  end.

Definition String_of (n : N) : jsstring := decimal (S (N.to_nat (N.log2 n))) n.

Definition padStart2 (s : jsstring) : jsstring :=
  repeat 48 (2 - length s) ++ s.

Definition monthMap : list (String.string * N) :=
  [("ene", 1); ("feb", 2); ("mar", 3); ("abr", 4); ("may", 5); ("jun", 6);
   ("jul", 7); ("ago", 8); ("set", 9); ("sep", 9); ("oct", 10); ("nov", 11);
   ("dic", 12)]%string.

Definition jsstring_eqb (a b : jsstring) : bool :=
  (length a =? length b)%nat && forallb (fun p => fst p =? snd p) (combine a b).

Fixpoint lookup (key : jsstring) (m : list (String.string * N)) : option N :=
  match m with
  | [] => None
  | (k, v) :: m' => if jsstring_eqb key (units k) then Some v else lookup key m'
  end.

Definition parseCustomDate (dateStr : jsstring) : option jsstring :=
  match exec_date dateStr with
  | None => None
  | Some (g1, g2, g3) =>
      let day := parseInt g1 in
      let mon := map lower g2 in
      let yy := parseInt g3 in
      let year := 2000 + yy in
      match lookup mon monthMap with
      | None => None
      | Some mm =>
          Some (String_of year ++ units "-"%string ++ padStart2 (String_of mm)
                ++ units "-"%string ++ padStart2 (String_of day))
      end
  end.


(** A [Date], seen through the three getters [formatDateCompactEs] calls. *)
Record JsDate : Type := {
  getDate : N;
  getMonth : nat;
  getFullYear : Z
}.

Definition months : list String.string :=
  ["Ene"; "Feb"; "Mar"; "Abr"; "May"; "Jun"; "Jul"; "Ago"; "Sep"; "Oct"; "Nov"; "Dic"]%string.

(** [String(z)] for an integer, and [s.slice(-2)]. *)
Definition String_of_Z (z : Z) : jsstring :=
  match z with
  | Zneg p => units "-"%string ++ String_of (Npos p)
  | _ => String_of (Z.to_N z)
  end.

Definition slice_last2 (s : jsstring) : jsstring := skipn (length s - 2) s.

Definition formatDateCompactEs (d : JsDate) : jsstring :=
  let day := padStart2 (String_of (getDate d)) in
  let mon :=
    match nth_error months (getMonth d) with
    | Some m => units m
    | None => units "undefined"%string
    end in
  let yy := slice_last2 (String_of_Z (getFullYear d)) in
  day ++ mon ++ yy.

(** The date string of a year, a month and a day as the parser writes it. *)
Definition iso_date (year month day : N) : jsstring :=
  String_of year ++ units "-"%string ++ padStart2 (String_of month)
  ++ units "-"%string ++ padStart2 (String_of day).

End Dates.

(** ** Vocabulary of the further properties *)

(** The results of [fitMA1OnDiff] and [fitARMA11OnDiff] on too short a
    series; the statistics of a series without a finite price. *)
Definition MA1_all_NaN {num} `{NumOps : Num num} : MA1Fit :=
  {| ma_theta := NaN; ma_residuals := []; ma_sigma2 := NaN; ma_logL := NaN;
     ma_AIC := NaN; ma_BIC := NaN |}.

Definition ARMA11_all_NaN {num} `{NumOps : Num num} : ARMA11Fit :=
  {| arma_phi := NaN; arma_theta := NaN; arma_residuals := []; arma_sigma2 := NaN;
     arma_logL := NaN; arma_AIC := NaN; arma_BIC := NaN |}.

Definition NaN_stats {num} `{NumOps : Num num} : DescriptiveStats :=
  {| st_n := 0; st_mean := NaN; st_median := NaN; st_variance := NaN;
     st_stdDev := NaN; st_range := NaN; st_cv := NaN; st_skewness := NaN;
     st_kurtosis := NaN; st_min := NaN; st_max := NaN; st_q1 := NaN;
     st_q3 := NaN |}.

(** An outlier of row mode without its date: what numeric mode reports. *)
Definition without_date {num} (o : @Outlier num) : @Outlier num :=
  {| o_index := o_index o; o_date := None; o_price := o_price o; o_type := o_type o |}.

(** A finite binary64 of absolute value at most [bound]. *)
Definition within (bound x : float) : Prop :=
  PrimFloat.is_finite x = true /\ PrimFloat.leb (PrimFloat.abs x) bound = true.

(** The numbers below [b]. *)
Definition below (b : nat) : list N := map N.of_nat (seq 0 b).


(** ** Binary64 numbers as real numbers

    The real number a finite binary64 denotes, and the error of one rounding:
    an operation that does not overflow returns its exact result [t] changed
    by at most [eps64 * |t| + eta64], half a unit in the last place of a
    normal number or half the spacing of the subnormal ones. *)

Definition bpow (e : Z) : R := powerRZ 2 e.

Definition SF2R (x : spec_float) : R :=
  match x with
  | S754_finite s m e => ((if s then - IZR (Z.pos m) else IZR (Z.pos m)) * bpow e)%R
  | _ => 0%R
  end.

Definition B2R (x : float) : R := SF2R (Prim2SF x).

(** [x] lies where the location [l] says, between [m] and [m + 1]. *)
Definition located (x : R) (m : Z) (l : location) : Prop :=
  match l with
  | loc_Exact => x = IZR m
  | loc_Inexact Lt => (IZR m < x < IZR m + / 2)%R
  | loc_Inexact Eq => x = (IZR m + / 2)%R
  | loc_Inexact Gt => (IZR m + / 2 < x < IZR m + 1)%R
  end.

Definition eps64 : R := bpow (-53).
Definition eta64 : R := bpow (-1075).

(** [v] is a rounding of [t]. *)
Definition rounded (v t : R) : Prop := (Rabs (v - t) <= eps64 * Rabs t + eta64)%R.

(** [BIC = AIC + k (ln - 2)] up to the rounding of the additions and of the
    product that compute the two criteria: twice [eps64] relative to the
    sizes of the three terms. *)
Definition criteria_agree (k : R) (AIC BIC ln : float) : Prop :=
  (Rabs (B2R BIC - (B2R AIC + k * (B2R ln - 2)))
   <= 2 * eps64 * (Rabs (B2R AIC) + Rabs (B2R BIC) + k * Rabs (B2R ln)) + 8 * eta64)%R.

(** * Properties *)

Unset Implicit Arguments.

(** ** Properties that hold in every number system *)

Section GenericProps.

Context {num : Type} `{NumOps : Num num}.
Local Open Scope js_scope.


Lemma get_map_seq (f : nat -> num) (s len i : nat) :
  (i < len)%nat -> get (map f (seq s len)) i = f (s + i)%nat.
Proof.
  intros Hi. unfold get.
  rewrite (nth_indep _ NaN (f 0%nat)) by (rewrite length_map, length_seq; exact Hi).
  rewrite map_nth, seq_nth by exact Hi. reflexivity.
Qed.

Lemma In_indexed_gen {A} (l : list A) (s i : nat) (x : A) :
  In (i, x) (combine (seq s (length l)) l) <-> (s <= i)%nat /\ nth_error l (i - s) = Some x.
Proof.
  revert s. induction l as [|y l IH]; intros s; simpl.
  - split; [tauto|]. intros [_ H]. destruct (i - s)%nat; discriminate.
  - rewrite IH. split.
    + intros [Heq | [Hle Hn]].
      * inversion Heq; subst. rewrite Nat.sub_diag. split; [lia | reflexivity].
      * split; [lia|]. replace (i - s)%nat with (S (i - S s)) by lia. exact Hn.
    + intros [Hle Hn]. destruct (Nat.eq_dec i s) as [->|Hne].
      * rewrite Nat.sub_diag in Hn. simpl in Hn. inversion Hn. now left.
      * right. split; [lia|]. replace (i - s)%nat with (S (i - S s)) in Hn by lia. exact Hn.
Qed.

Lemma In_indexed {A} (l : list A) (i : nat) (x : A) :
  In (i, x) (indexed l) <-> nth_error l i = Some x.
Proof.
  unfold indexed. rewrite In_indexed_gen, Nat.sub_0_r. split; [tauto | intros; split; [lia | assumption]].
Qed.

(** *** The forecaster *)

Lemma diffForecastsFrom_length phi prev count :
  length (diffForecastsFrom phi prev count) = count.
Proof.
  revert prev. induction count as [|c IH]; intros prev; simpl; [reflexivity | now rewrite IH].
Qed.

Lemma diffForecastsFrom_head phi prev count :
  isFinite phi = true -> (1 <= count)%nat ->
  get (diffForecastsFrom phi prev count) 0 = phi * prev.
Proof.
  intros Hphi Hc. destruct count as [|c]; [lia|]. simpl. unfold get. simpl. now rewrite Hphi.
Qed.

Lemma diffForecastsFrom_step phi prev count h :
  isFinite phi = true -> (S h < count)%nat ->
  get (diffForecastsFrom phi prev count) (S h) = phi * get (diffForecastsFrom phi prev count) h.
Proof.
  intros Hphi. revert prev h. induction count as [|c IH]; intros prev h Hh; [lia|].
  simpl. rewrite Hphi. destruct h as [|h].
  - unfold get. simpl. destruct c as [|c]; [lia|]. simpl. now rewrite Hphi.
  - unfold get in *. simpl. apply IH. lia.
Qed.

Lemma guarded_sum_finite (l : list num) (a : num) :
  Forall (fun b => isFinite b = true) l ->
  fold_left (fun a b => a + (if isFinite b then b else #0)) l a = fold_left nadd l a.
Proof.
  intros Hl. revert a. induction Hl as [|b l Hb _ IH]; intros a; simpl.
  - reflexivity.
  - rewrite Hb. apply IH.
Qed.

Lemma forecast_recursion_general (dollarData : list Observation) :
  let prices := map price dollarData in
  let phi := ar_phi (fitAR1OnDiff prices) in
  let yLast := get prices (length prices - 1) in
  let dLast :=
    if (1 <? length prices)%nat
    then get prices (length prices - 1) - get prices (length prices - 2)
    else #0 in
  let f := generateRealForecastsForStage5 dollarData in
  isFinite phi = true ->
  get (diffForecasts f) 0 = phi * dLast /\
  (forall h, (2 <= h <= forecastHorizon)%nat ->
     get (diffForecasts f) (h - 1) = phi * get (diffForecasts f) (h - 2)) /\
  (forall h, (1 <= h <= forecastHorizon)%nat ->
     isFinite yLast = true ->
     Forall (fun d => isFinite d = true) (firstn h (diffForecasts f)) ->
     get (pointForecasts f) (h - 1) = yLast + sum (firstn h (diffForecasts f))).
Proof.
  intros prices phi yLast dLast f Hphi.
  split; [|split].
  - apply diffForecastsFrom_head; [exact Hphi | unfold forecastHorizon; lia].
  - intros h [H2 H12]. destruct h as [|[|h]]; try lia.
    replace (S (S h) - 1)%nat with (S h) by lia.
    replace (S (S h) - 2)%nat with h by lia.
    apply diffForecastsFrom_step; [exact Hphi | lia].
  - intros h [H1 H12] Hy Hfin.
    unfold f, generateRealForecastsForStage5. cbv zeta.
    cbn [pointForecasts].
    rewrite get_map_seq by lia.
    replace (1 + (h - 1))%nat with h by lia.
    fold prices. fold yLast. rewrite Hy.
    f_equal. unfold sum. apply guarded_sum_finite. exact Hfin.
Qed.

(** *** fitAR1OnDiff *)

Lemma fitAR1OnDiff_short (prices : list num) :
  (length prices < 3)%nat -> fitAR1OnDiff prices = AR1_all_NaN.
Proof.
  intros H. unfold fitAR1OnDiff.
  destruct (Nat.ltb_spec (length prices) 3); [reflexivity | lia].
Qed.



(** *** fitAR1OnDiff, closed form *)

Lemma differences_length (prices : list num) :
  length (differences prices) = (length prices - 1)%nat.
Proof. unfold differences. now rewrite length_map, length_seq. Qed.

Lemma fitAR1OnDiff_closed_form (prices : list num) :
  (3 <= length prices)%nat ->
  let returns := differences prices in
  let x := firstn (length returns - 1) returns in
  let y := skipn 1 returns in
  let numr := fold_left (fun acc i => acc + get y i * get x i) (seq 0 (length x)) #0 in
  let den := fold_left (fun acc i => acc + get x i * get x i) (seq 0 (length x)) #0 in
  let fit := fitAR1OnDiff prices in
  ar_phi fit = (if truthy den then numr / den else #0) /\
  ar_residuals fit = map (fun i => get y i - ar_phi fit * get x i) (seq 0 (length y)) /\
  length (ar_residuals fit) = (length prices - 2)%nat /\
  ar_sigma2 fit =
    sumSquares (ar_residuals fit) / Math_max #1 (of_nat (length (ar_residuals fit))) /\
  ar_se fit = Math_sqrt (ar_sigma2 fit / Math_max den #1e-12).
Proof.
  intros Hlen returns x y numr den fit.
  unfold fit, fitAR1OnDiff.
  destruct (Nat.ltb_spec (length prices) 3) as [Hlt|_]; [lia|].
  cbn [ar_phi ar_residuals ar_sigma2 ar_se].
  repeat split.
  rewrite length_map, length_seq, length_skipn, differences_length. lia.
Qed.

(** C5 (as the code has it): the guard of fitAR1OnDiff is on the number of
    prices.  With fewer than 3 prices (fewer than 2 differences) every numeric
    field of the result is NaN and the residuals are empty; with at least 3
    prices the result is the closed-form fit: phi is the quotient of the sums
    of y x and x x over the lagged pairs (0 when the denominator is falsy),
    there is one residual y - phi x per pair, sigma2 is their mean square and
    se the root of sigma2 over the floored denominator.  The routine is a
    total function: it returns on every input. *)
Theorem fitAR1OnDiff_guard (prices : list num) :
  ((length prices < 3)%nat -> fitAR1OnDiff prices = AR1_all_NaN) /\
  ((3 <= length prices)%nat ->
   let returns := differences prices in
   let x := firstn (length returns - 1) returns in
   let y := skipn 1 returns in
   let numr := fold_left (fun acc i => acc + get y i * get x i) (seq 0 (length x)) #0 in
   let den := fold_left (fun acc i => acc + get x i * get x i) (seq 0 (length x)) #0 in
   let fit := fitAR1OnDiff prices in
   ar_phi fit = (if truthy den then numr / den else #0) /\
   ar_residuals fit = map (fun i => get y i - ar_phi fit * get x i) (seq 0 (length y)) /\
   length (ar_residuals fit) = (length prices - 2)%nat /\
   ar_sigma2 fit =
     sumSquares (ar_residuals fit) / Math_max #1 (of_nat (length (ar_residuals fit))) /\
   ar_se fit = Math_sqrt (ar_sigma2 fit / Math_max den #1e-12)).
Proof.
  split.
  - apply fitAR1OnDiff_short.
  - apply fitAR1OnDiff_closed_form.
Qed.

(** *** detectOutliers *)

Lemma detectOutliers_spec (data : series) (o : Outlier) :
  let prices := pricesOf data in
  let stats := calculateDescriptiveStats (Numeric prices) in
  let lower := st_q1 stats - #1.5 * (st_q3 stats - st_q1 stats) in
  let upper := st_q3 stats + #1.5 * (st_q3 stats - st_q1 stats) in
  In o (detectOutliers data) <->
  exists i p,
    nth_error prices i = Some p /\
    (p <? lower) || (p >? upper) = true /\
    o = {| o_index := i; o_date := row_date data i; o_price := p;
           o_type := if p <? lower then inferior else superior |}.
Proof.
  intros prices stats lo up. unfold lo, up, stats, prices.
  unfold detectOutliers.
  set (st := calculateDescriptiveStats (Numeric (pricesOf data))).
  set (lower := st_q1 st - #1.5 * (st_q3 st - st_q1 st)).
  set (upper := st_q3 st + #1.5 * (st_q3 st - st_q1 st)).
  destruct data as [[|v vs] | rows].
  - split; [intros [] |]. intros (i & p & Hn & _). destruct i; discriminate.
  - rewrite in_flat_map. split.
    + intros ([i p] & Hin & Ho). apply In_indexed in Hin.
      exists i, p. destruct ((p <? lower) || (upper <? p)) eqn:Hf; [|destruct Ho].
      destruct Ho as [<-|[]]. repeat split. exact Hin.
    + intros (i & p & Hn & Hf & ->). exists (i, p). split; [now apply In_indexed|].
      rewrite Hf. now left.
  - rewrite in_flat_map. split.
    + intros ([i item] & Hin & Ho). apply In_indexed in Hin.
      exists i, (price item).
      destruct ((price item <? lower) || (upper <? price item)) eqn:Hf; [|destruct Ho].
      destruct Ho as [<-|[]]. cbn [pricesOf row_date].
      rewrite nth_error_map, Hin. repeat split.
    + intros (i & p & Hn & Hf & ->). cbn [pricesOf row_date] in *.
      rewrite nth_error_map in Hn.
      destruct (nth_error rows i) as [item|] eqn:Hr; [|discriminate].
      inversion Hn; subst p. exists (i, item). split; [now apply In_indexed|].
      rewrite Hf. now left.
Qed.

(** *** Residual counts *)

Lemma demeanedReturns_length (prices : list num) :
  length (demeanedReturns prices) = (length prices - 1)%nat.
Proof. unfold demeanedReturns. now rewrite length_map, differences_length. Qed.

Lemma ma1_residuals_length (theta : num) (x : list num) :
  length (ma1_residuals theta x) = length x.
Proof.
  unfold ma1_residuals.
  assert (H : forall l st,
             length (snd (fold_left (fun (st : num * list num) xt =>
                                       let eps := xt - theta * fst st in
                                       (eps, snd st ++ [eps])) l st))
             = (length (snd st) + length l)%nat).
  { induction l as [|a l IH]; intros st; simpl; [lia|].
    rewrite IH. simpl. rewrite length_app. simpl. lia. }
  rewrite H. reflexivity.
Qed.

Lemma arma11_residuals_length (phi theta : num) (x : list num) :
  length (arma11_residuals phi theta x) = (length x - 1)%nat.
Proof.
  unfold arma11_residuals.
  assert (H : forall (l : list nat) st,
             length (snd (fold_left (fun (st : num * list num) t =>
                                       let eps := get x t - phi * get x (t - 1) - theta * fst st in
                                       (eps, snd st ++ [eps])) l st))
             = (length (snd st) + length l)%nat).
  { induction l as [|a l IH]; intros st; simpl; [lia|].
    rewrite IH. simpl. rewrite length_app. simpl. lia. }
  rewrite H, length_seq. reflexivity.
Qed.

Lemma fitMA1OnDiff_residual_count (prices : list num) :
  (3 <= length prices)%nat ->
  length (ma_residuals (fitMA1OnDiff prices)) = (length prices - 1)%nat.
Proof.
  intros Hlen. unfold fitMA1OnDiff.
  destruct (Nat.ltb_spec (length prices) 3) as [Hlt|_]; [lia|].
  cbn [ma_residuals]. now rewrite ma1_residuals_length, demeanedReturns_length.
Qed.

Lemma fitARMA11OnDiff_residual_count (prices : list num) :
  (4 <= length prices)%nat ->
  length (arma_residuals (fitARMA11OnDiff prices)) = (length prices - 2)%nat.
Proof.
  intros Hlen. unfold fitARMA11OnDiff.
  destruct (Nat.ltb_spec (length prices) 4) as [Hlt|_]; [lia|].
  destruct (arma11_search (demeanedReturns prices)) as [[bestPhi bestTheta] bestSigma2].
  cbn [arma_residuals]. rewrite arma11_residuals_length, demeanedReturns_length. lia.
Qed.

(** *** Ranks *)

Lemma indexed_fst {A} (l : list A) : map fst (indexed l) = seq 0 (length l).
Proof.
  unfold indexed. generalize 0%nat. induction l as [|x l IH]; intros s; simpl.
  - reflexivity.
  - now rewrite IH.
Qed.

Lemma indexed_snd {A} (l : list A) : map snd (indexed l) = l.
Proof.
  unfold indexed. generalize 0%nat. induction l as [|x l IH]; intros s; simpl.
  - reflexivity.
  - now rewrite IH.
Qed.

Lemma ranks_assigned (sorted : list (@Candidate num)) :
  map (fun m : Candidate => c_rank m) (map (fun im : nat * Candidate => set_rank (snd im) (fst im + 1)) (indexed sorted))
  = map Some (seq 1 (length sorted)).
Proof.
  rewrite map_map. cbn [c_rank set_rank].
  rewrite <- (map_map fst (fun i => Some (i + 1)%nat)), indexed_fst.
  rewrite <- seq_shift, !map_map. apply map_ext. intros i. f_equal. lia.
Qed.

Lemma ranks_keep_criteria (sorted : list (@Candidate num)) :
  map (fun m => (c_AIC m, c_BIC m))
      (map (fun im : nat * Candidate => set_rank (snd im) (fst im + 1)) (indexed sorted))
  = map (fun m => (c_AIC m, c_BIC m)) sorted.
Proof.
  rewrite map_map. cbn [c_AIC c_BIC set_rank].
  rewrite <- (map_map snd (fun m => (c_AIC m, c_BIC m))), indexed_snd. reflexivity.
Qed.

(** *** The size guards of the diagnostics *)

Lemma ljungBoxTest_short (residuals : list num) (m p : nat) :
  (length residuals < m + 1)%nat ->
  ljungBoxTest residuals m p = {| lb_Q := NaN; lb_pValue := NaN |}.
Proof.
  intros H. unfold ljungBoxTest.
  destruct (Nat.ltb_spec (length residuals) (m + 1)); [reflexivity | lia].
Qed.

Lemma computeJarqueBera_short (values : list num) :
  (length values < 8)%nat ->
  computeJarqueBera values = {| jb := NaN; jb_pValue := NaN |}.
Proof.
  intros H. unfold computeJarqueBera.
  destruct (Nat.ltb_spec (length values) 8); [reflexivity | lia].
Qed.

Lemma archLMTest_short (residuals : list num) (m : nat) :
  (length residuals < m + 2)%nat ->
  archLMTest residuals m = {| arch_LM := NaN; arch_pValue := NaN; arch_R2 := NaN |}.
Proof.
  intros H. unfold archLMTest.
  destruct (Nat.ltb_spec (length residuals) (m + 2)); [reflexivity | lia].
Qed.

(** *** calculatePACF *)


Lemma fold_left_ext_in {A B} (f g : A -> B -> A) (l : list B) (a : A) :
  (forall acc x, In x l -> f acc x = g acc x) ->
  fold_left f l a = fold_left g l a.
Proof.
  revert a. induction l as [|x l IH]; intros a Hfg; simpl.
  - reflexivity.
  - rewrite (Hfg a x (or_introl eq_refl)). apply IH.
    intros acc y Hy. apply Hfg. now right.
Qed.

Lemma fold_left_invariant {A B} (P : A -> Prop) (f : A -> B -> A) (l : list B) (a : A) :
  (forall acc i, In i l -> P acc -> P (f acc i)) -> P a -> P (fold_left f l a).
Proof.
  revert a. induction l as [|x l IH]; intros a Hstep Ha; simpl; [exact Ha|].
  apply IH.
  - intros acc i Hi. apply Hstep. now right.
  - apply Hstep; [now left | exact Ha].
Qed.

Lemma pacf_upto_S acf m :
  pacf_upto acf (S m) = pacf_upto acf m ++ [pacf_step acf (pacf_upto acf m) (S m)].
Proof.
  unfold pacf_upto. rewrite seq_S, fold_left_app. reflexivity.
Qed.

Lemma pacf_upto_length acf m : length (pacf_upto acf m) = S m.
Proof.
  induction m as [|m IH].
  - reflexivity.
  - rewrite pacf_upto_S, length_app, IH. simpl. lia.
Qed.

Lemma pacf_upto_prefix acf m k j :
  (k <= m)%nat -> (j <= k)%nat -> get (pacf_upto acf m) j = get (pacf_upto acf k) j.
Proof.
  intros Hkm Hjk. induction Hkm as [|m Hkm IH].
  - reflexivity.
  - rewrite pacf_upto_S. unfold get in *. rewrite app_nth1.
    + exact IH.
    + rewrite pacf_upto_length. lia.
Qed.

Lemma pacf_upto_last acf k :
  get (pacf_upto acf (S k)) (S k) = pacf_step acf (pacf_upto acf k) (S k).
Proof.
  rewrite pacf_upto_S. unfold get. rewrite app_nth2; rewrite pacf_upto_length.
  - now rewrite Nat.sub_diag.
  - lia.
Qed.

Lemma pacf_step_ext acf p p' k :
  (forall j, (j < k)%nat -> get p j = get p' j) ->
  pacf_step acf p k = pacf_step acf p' k.
Proof.
  intros Hp. unfold pacf_step.
  destruct k as [|[|k]]; try reflexivity.
  f_equal. apply fold_left_ext_in.
  intros acc j Hj. apply in_seq in Hj. rewrite Hp by lia. reflexivity.
Qed.

(** C7: for every series and every maxLags >= 1, calculatePACF returns
    maxLags + 1 values; entry 0 is the literal 1, entry 1 is ACF(1), and for
    k >= 2 entry k is ACF(k) from which the products PACF(j) * ACF(k - j),
    j = 1 .. k-1, are subtracted one after the other, divided by the
    denominator 1 of the simplified recursion.  This holds in every number
    system, binary64 included. *)
Theorem pacf_simplified_recursion (data : series) (maxLags : nat) :
  (1 <= maxLags)%nat ->
  let acf := calculateACF data maxLags in
  let pacf := calculatePACF data maxLags in
  length pacf = (maxLags + 1)%nat /\
  get pacf 0 = #1 /\
  get pacf 1 = get acf 1 /\
  forall k, (2 <= k <= maxLags)%nat ->
    get pacf k =
    fold_left (fun acc j => acc - get pacf j * get acf (k - j)) (seq 1 (k - 1)) (get acf k) / #1.
Proof.
  intros Hm acf pacf.
  assert (Hp : pacf = pacf_upto acf maxLags) by reflexivity.
  rewrite Hp. repeat split.
  - rewrite pacf_upto_length. lia.
  - rewrite (@pacf_upto_prefix acf maxLags 0 0) by lia. reflexivity.
  - rewrite (@pacf_upto_prefix acf maxLags 1 1) by lia. reflexivity.
  - intros k [Hk2 Hkm].
    rewrite (@pacf_upto_prefix acf maxLags k k) by lia.
    destruct k as [|k]; [lia|].
    rewrite pacf_upto_last.
    rewrite (@pacf_step_ext acf (pacf_upto acf k) (pacf_upto acf maxLags) (S k)).
    + unfold pacf_step. destruct k as [|k]; [lia|]. reflexivity.
    + intros j Hj. symmetry. apply pacf_upto_prefix; lia.
Qed.

End GenericProps.

(** ** Sorting by insertion *)

Section SortProps.
Context {num : Type} `{NumOps : Num num}.
Context {A : Type} (cmp : A -> A -> num).
Local Open Scope js_scope.

Lemma sort_insert_perm (x : A) (l : list A) : Permutation (sort_insert cmp x l) (x :: l).
Proof.
  induction l as [|y l IH]; simpl.
  - reflexivity.
  - destruct (cmp y x >? #0); [reflexivity|].
    rewrite IH. apply perm_swap.
Qed.

Lemma Array_sort_perm_acc (l acc : list A) :
  Permutation (fold_left (fun acc x => sort_insert cmp x acc) l acc) (acc ++ l).
Proof.
  revert acc. induction l as [|x l IH]; intros acc; simpl.
  - now rewrite app_nil_r.
  - rewrite IH, sort_insert_perm. apply Permutation_middle.
Qed.

Lemma Array_sort_perm (l : list A) : Permutation (Array_sort cmp l) l.
Proof. unfold Array_sort. now rewrite Array_sort_perm_acc. Qed.

Variable P : A -> Prop.
Variable R : A -> A -> Prop.
Hypothesis cmp_positive : forall a b, P a -> P b -> (cmp a b >? #0) = true -> R b a.
Hypothesis cmp_not_positive : forall a b, P a -> P b -> (cmp a b >? #0) = false -> R a b.

Lemma sort_insert_HdRel (y x : A) (l : list A) :
  R y x -> HdRel R y l -> HdRel R y (sort_insert cmp x l).
Proof.
  intros Hyx Hl. destruct l as [|z l]; simpl.
  - now constructor.
  - destruct (cmp z x >? #0); constructor; [exact Hyx|].
    now inversion Hl.
Qed.

Lemma sort_insert_sorted (x : A) (l : list A) :
  P x -> Forall P l -> Sorted R l -> Sorted R (sort_insert cmp x l).
Proof.
  intros Hx Hl Hs. induction l as [|y l IH]; simpl.
  - repeat constructor.
  - inversion Hl as [|? ? Hy Hl']; subst. inversion Hs as [|? ? Hs' Hhd]; subst.
    destruct (cmp y x >? #0) eqn:E.
    + constructor; [exact Hs|]. constructor. now apply cmp_positive.
    + constructor; [now apply IH|].
      apply sort_insert_HdRel; [now apply cmp_not_positive | exact Hhd].
Qed.

Lemma Array_sort_sorted_acc (l acc : list A) :
  Forall P l -> Forall P acc -> Sorted R acc ->
  Sorted R (fold_left (fun acc x => sort_insert cmp x acc) l acc).
Proof.
  revert acc. induction l as [|x l IH]; intros acc Hl Hacc Hs; simpl.
  - exact Hs.
  - inversion Hl as [|? ? Hx Hl']; subst. apply IH; [exact Hl'| |].
    + eapply Permutation_Forall; [symmetry; apply sort_insert_perm|].
      now constructor.
    + now apply sort_insert_sorted.
Qed.

Lemma Array_sort_sorted (l : list A) : Forall P l -> Sorted R (Array_sort cmp l).
Proof.
  intros Hl. apply Array_sort_sorted_acc; [exact Hl | constructor | constructor].
Qed.

End SortProps.

(** ** Facts about binary64 *)

Module FloatFacts.

Import JSFloat.
Local Open Scope float_scope.

Lemma SFcompare_antisym (x y : spec_float) :
  SFcompare y x = option_map CompOpp (SFcompare x y).
Proof.
  destruct x as [sx|sx| |sx mx ex], y as [sy|sy| |sy my ey]; simpl;
    try reflexivity;
    try (destruct sx; reflexivity);
    try (destruct sy; reflexivity);
    try (destruct sx, sy; reflexivity).
  destruct sx, sy; try reflexivity;
    rewrite (Z.compare_antisym ex ey);
    destruct (ex ?= ey)%Z; simpl; try reflexivity;
    rewrite (Pos.compare_cont_antisym mx my Eq); simpl;
    try rewrite CompOpp_involutive; reflexivity.
Qed.

Lemma SFcompare_refl (x : spec_float) :
  x <> S754_nan -> SFcompare x x = Some Eq.
Proof.
  destruct x as [s|s| |s m e]; simpl; intros H; try reflexivity.
  - destruct s; reflexivity.
  - congruence.
  - destruct s; rewrite Z.compare_refl;
      change (Pos.compare_cont Eq m m) with (Pos.compare m m);
      rewrite Pos.compare_refl; reflexivity.
Qed.

Lemma SFcompare_None (x y : spec_float) :
  SFcompare x y = None <-> x = S754_nan \/ y = S754_nan.
Proof.
  destruct x as [sx|sx| |sx mx ex], y as [sy|sy| |sy my ey]; simpl;
    split; intros H; try discriminate; try (destruct H; discriminate);
    auto.
Qed.

Lemma is_nan_spec (x : float) :
  PrimFloat.is_nan x = true <-> Prim2SF x = S754_nan.
Proof.
  unfold PrimFloat.is_nan. rewrite FloatAxioms.eqb_spec, negb_true_iff. unfold SFeqb.
  split.
  - intros H. destruct (Prim2SF x) as [s|s| |s m e] eqn:E; try reflexivity;
      rewrite SFcompare_refl in H by discriminate; discriminate.
  - intros ->. reflexivity.
Qed.

Lemma is_nan_false (x : float) :
  PrimFloat.is_nan x = false <-> Prim2SF x <> S754_nan.
Proof.
  rewrite <- is_nan_spec. destruct (PrimFloat.is_nan x); split; congruence.
Qed.

Lemma ltb_leb (x y : float) : (x <? y) = true -> (x <=? y) = true.
Proof.
  rewrite ltb_spec, leb_spec. unfold SFltb, SFleb.
  destruct (SFcompare (Prim2SF x) (Prim2SF y)) as [[| |]|]; congruence.
Qed.

Lemma not_ltb_leb (x y : float) :
  PrimFloat.is_nan x = false -> PrimFloat.is_nan y = false ->
  (x <? y) = false -> (y <=? x) = true.
Proof.
  rewrite !is_nan_false, ltb_spec, leb_spec. unfold SFltb, SFleb.
  intros Hx Hy. rewrite (SFcompare_antisym (Prim2SF x) (Prim2SF y)).
  destruct (SFcompare (Prim2SF x) (Prim2SF y)) as [[| |]|] eqn:E; simpl; try congruence.
  apply SFcompare_None in E. tauto.
Qed.

Lemma leb_not_nan_l (x y : float) : (x <=? y) = true -> PrimFloat.is_nan x = false.
Proof.
  rewrite leb_spec, is_nan_false. unfold SFleb. intros H Hx. rewrite Hx in H. discriminate.
Qed.

Lemma ltb_not_nan (x y : float) :
  (x <? y) = true -> PrimFloat.is_nan x = false /\ PrimFloat.is_nan y = false.
Proof.
  rewrite ltb_spec, !is_nan_false. unfold SFltb. intros H.
  split; intros Hn; rewrite Hn in H; [|destruct (Prim2SF x)]; discriminate.
Qed.

(** [Math.min(Math.max(p, 0), 1)] is NaN or in the unit interval. *)
Lemma clamp_unit (p : float) : unit_or_nan (js_min (js_max p 0) 1).
Proof.
  assert (H0 : unit_or_nan (js_min 0 1)) by (right; split; reflexivity).
  assert (Hmin : forall q, PrimFloat.is_nan q = false -> (0 <=? q) = true ->
                           unit_or_nan (js_min q 1)).
  { intros q Hq H0q. unfold js_min. rewrite Hq. cbn [orb].
    change (PrimFloat.is_nan 1) with false.
    destruct (q <? 1) eqn:Hq1.
    - right. split; [exact H0q | now apply ltb_leb].
    - destruct (1 <? q) eqn:H1q.
      + right. split; reflexivity.
      + destruct (get_sign q).
        * right. split; [exact H0q | now apply not_ltb_leb].
        * right. split; reflexivity. }
  unfold js_max.
  destruct (PrimFloat.is_nan p) eqn:Hp.
  - left. reflexivity.
  - change (PrimFloat.is_nan 0) with false. cbn [orb].
    destruct (p <? 0) eqn:Hp0; [exact H0|].
    destruct (0 <? p) eqn:H0p.
    + apply Hmin; [exact Hp | now apply ltb_leb].
    + destruct (get_sign p); [exact H0|].
      apply Hmin; [exact Hp | now apply not_ltb_leb].
Qed.

(** Products commute. *)
Lemma SFmul_comm (x y : spec_float) : SF64mul x y = SF64mul y x.
Proof.
  unfold SF64mul.
  destruct x as [sx|sx| |sx mx ex], y as [sy|sy| |sy my ey]; simpl;
    try reflexivity; try (now rewrite xorb_comm).
  now rewrite xorb_comm, Pos.mul_comm, Z.add_comm.
Qed.

Lemma mul_comm (x y : float) : x * y = y * x.
Proof.
  apply Prim2SF_inj. rewrite !mul_spec. apply SFmul_comm.
Qed.

(** *** Signs of results *)

Lemma Prim2SF_zero : Prim2SF 0 = S754_zero false.
Proof. reflexivity. Qed.

Lemma nonneg_or_nan_spec (x : float) : nonneg_or_nan x <-> SFnonneg (Prim2SF x).
Proof.
  unfold nonneg_or_nan. rewrite is_nan_spec, leb_spec, Prim2SF_zero. unfold SFleb.
  destruct (Prim2SF x) as [s|s| |s m e]; simpl.
  - tauto.
  - destruct s; split; intros H; try (destruct H; discriminate); auto.
  - tauto.
  - destruct s; split; intros H; try (destruct H; discriminate); auto.
Qed.

Lemma nonpos_or_nan_spec (x : float) : nonpos_or_nan x <-> SFnonpos (Prim2SF x).
Proof.
  unfold nonpos_or_nan. rewrite is_nan_spec, leb_spec, Prim2SF_zero. unfold SFleb.
  destruct (Prim2SF x) as [s|s| |s m e]; simpl.
  - tauto.
  - destruct s; split; intros H; try (destruct H; discriminate); auto.
  - tauto.
  - destruct s; split; intros H; try (destruct H; discriminate); auto.
Qed.

Lemma binary_round_aux_signed s m e l :
  SFsigned s (binary_round_aux prec emax s m e l).
Proof.
  unfold binary_round_aux.
  destruct (shr_fexp prec emax m e l) as [mrs' e'].
  destruct (shr_fexp prec emax _ e' loc_Exact) as [mrs'' e''].
  destruct (shr_m mrs''); simpl; auto.
  destruct (_ <=? _)%Z; simpl; auto.
Qed.

Lemma binary_round_signed s m e : SFsigned s (binary_round prec emax s m e).
Proof.
  unfold binary_round. destruct (shl_align m e _) as [mz ez].
  apply binary_round_aux_signed.
Qed.

Lemma SFsigned_nonneg x : SFsigned false x -> SFnonneg x.
Proof. destruct x; simpl; auto. Qed.

Lemma SFsigned_nonpos x : SFsigned true x -> SFnonpos x.
Proof. destruct x; simpl; auto. Qed.

Lemma SFnonneg_mul_self x : SFnonneg (SF64mul x x).
Proof.
  destruct x as [s|s| |s m e]; simpl; auto using xorb_nilpotent.
  unfold SF64mul, SFmul. apply SFsigned_nonneg.
  pose proof (binary_round_aux_signed (xorb s s) (Z.pos (m * m)) (e + e) loc_Exact) as H.
  now rewrite xorb_nilpotent in H at 1.
Qed.

Lemma SFnonneg_mul x y : SFnonneg x -> SFnonneg y -> SFnonneg (SF64mul x y).
Proof.
  destruct x as [sx|sx| |sx mx ex], y as [sy|sy| |sy my ey]; simpl; auto;
    try (intros -> ->; reflexivity).
  intros -> ->. apply SFsigned_nonneg, binary_round_aux_signed.
Qed.

Lemma SFnonneg_add x y : SFnonneg x -> SFnonneg y -> SFnonneg (SF64add x y).
Proof.
  destruct x as [sx|sx| |sx mx ex], y as [sy|sy| |sy my ey]; simpl; auto;
    try (intros -> ->; reflexivity);
    try (destruct sx, sy; simpl; auto; fail).
  intros -> ->. simpl. apply SFsigned_nonneg, binary_round_signed.
Qed.

Lemma SFnonneg_div_pos x my ey :
  SFnonneg x -> SFnonneg (SF64div x (S754_finite false my ey)).
Proof.
  destruct x as [sx|sx| |sx mx ex]; simpl; auto.
  - intros ->. reflexivity.
  - intros ->. unfold SF64div, SFdiv.
    destruct (SFdiv_core_binary prec emax (Z.pos mx) ex (Z.pos my) ey) as [[mz ez] lz].
    apply SFsigned_nonneg, binary_round_aux_signed.
Qed.

Lemma SFnonpos_div_pos x my ey :
  SFnonpos x -> SFnonpos (SF64div x (S754_finite false my ey)).
Proof.
  destruct x as [sx|sx| |sx mx ex]; simpl; auto.
  - intros ->. reflexivity.
  - intros ->. unfold SF64div, SFdiv.
    destruct (SFdiv_core_binary prec emax (Z.pos mx) ex (Z.pos my) ey) as [[mz ez] lz].
    apply SFsigned_nonpos, binary_round_aux_signed.
Qed.

Lemma SFnonpos_opp x : SFnonneg x -> SFnonpos (SFopp x).
Proof. destruct x as [s|s| |s m e]; simpl; auto; intros ->; reflexivity. Qed.

Lemma nonneg_mul_self (x : float) : nonneg_or_nan (x * x).
Proof. rewrite nonneg_or_nan_spec, mul_spec. apply SFnonneg_mul_self. Qed.

Lemma nonneg_mul (x y : float) :
  nonneg_or_nan x -> nonneg_or_nan y -> nonneg_or_nan (x * y).
Proof. rewrite !nonneg_or_nan_spec, mul_spec. apply SFnonneg_mul. Qed.

Lemma nonneg_add (x y : float) :
  nonneg_or_nan x -> nonneg_or_nan y -> nonneg_or_nan (x + y).
Proof. rewrite !nonneg_or_nan_spec, add_spec. apply SFnonneg_add. Qed.

Lemma nonneg_div_pos (x y : float) :
  nonneg_or_nan x -> positive_finite y -> nonneg_or_nan (x / y).
Proof.
  rewrite !nonneg_or_nan_spec, div_spec. intros Hx (m & e & ->).
  now apply SFnonneg_div_pos.
Qed.

Lemma nonpos_div_pos (x y : float) :
  nonpos_or_nan x -> positive_finite y -> nonpos_or_nan (x / y).
Proof.
  rewrite !nonpos_or_nan_spec, div_spec. intros Hx (m & e & ->).
  now apply SFnonpos_div_pos.
Qed.

Lemma nonpos_opp (x : float) : nonneg_or_nan x -> nonpos_or_nan (- x).
Proof. rewrite nonneg_or_nan_spec, nonpos_or_nan_spec, opp_spec. apply SFnonpos_opp. Qed.

Lemma nonneg_Z2float (z : Z) : (0 <= z)%Z -> nonneg_or_nan (Z2float z).
Proof.
  intros Hz. rewrite nonneg_or_nan_spec. destruct z as [|p|p]; [exact I| |lia].
  unfold Z2float. rewrite of_uint63_spec.
  pose proof (Uint63.to_Z_bounded (Uint63.of_Z (Z.pos p))) as [Hlo _].
  destruct (Uint63.to_Z (Uint63.of_Z (Z.pos p))) as [|q|q]; [exact I| |lia].
  apply SFsigned_nonneg. apply binary_round_signed.
Qed.

Lemma nonneg_of_nat (L : Libm) (n : nat) : nonneg_or_nan (@of_nat float (float_Num L) n).
Proof.
  unfold of_nat. cbn. apply nonneg_Z2float. lia.
Qed.

Local Close Scope float_scope.
Local Open Scope Z_scope.

(** *** Magnitudes *)

Lemma digits2_pos_bounds (p : positive) :
  2 ^ (Z.pos (digits2_pos p) - 1) <= Z.pos p < 2 ^ Z.pos (digits2_pos p).
Proof.
  induction p as [p IH|p IH|]; simpl digits2_pos.
  - rewrite Pos2Z.inj_succ.
    replace (Z.succ (Z.pos (digits2_pos p)) - 1) with (Z.succ (Z.pos (digits2_pos p) - 1)) by lia.
    rewrite !Z.pow_succ_r by lia. lia.
  - rewrite Pos2Z.inj_succ.
    replace (Z.succ (Z.pos (digits2_pos p)) - 1) with (Z.succ (Z.pos (digits2_pos p) - 1)) by lia.
    rewrite !Z.pow_succ_r by lia. lia.
  - simpl. lia.
Qed.

Lemma shr_1_m (mrs : shr_record) :
  0 <= shr_m mrs -> shr_m (shr_1 mrs) = Z.div2 (shr_m mrs).
Proof.
  destruct mrs as [m r s]. simpl. intros Hm.
  destruct m as [|[p|p|]|p]; try reflexivity; lia.
Qed.

Lemma shr_iter_m (p : positive) (mrs : shr_record) :
  0 <= shr_m mrs ->
  shr_m (iter_pos shr_1 p mrs) = Z.shiftr (shr_m mrs) (Z.pos p).
Proof.
  revert mrs. induction p as [p IH|p IH|]; intros mrs Hm; simpl iter_pos.
  - assert (H1 : 0 <= shr_m (shr_1 mrs)) by (rewrite shr_1_m by lia; apply Z.div2_nonneg; lia).
    assert (H2 : 0 <= shr_m (iter_pos shr_1 p (shr_1 mrs)))
      by (rewrite IH by lia; apply Z.shiftr_nonneg; lia).
    rewrite IH, IH, shr_1_m by lia.
    rewrite Z.div2_spec, !Z.shiftr_shiftr by lia. f_equal. lia.
  - assert (H2 : 0 <= shr_m (iter_pos shr_1 p mrs))
      by (rewrite IH by lia; apply Z.shiftr_nonneg; lia).
    rewrite IH, IH by lia. rewrite Z.shiftr_shiftr by lia. f_equal. lia.
  - rewrite shr_1_m by lia. apply Z.div2_spec.
Qed.

Lemma shr_record_of_loc_m m l : shr_m (shr_record_of_loc m l) = m.
Proof. destruct l as [|[| |]]; reflexivity. Qed.

(** Shifting to the canonical exponent keeps a positive mantissa positive:
    at or above the least exponent there is no underflow to zero. *)
Lemma shr_fexp_pos (m e : Z) (l : location) :
  0 < m -> emin64 <= e ->
  0 < shr_m (fst (shr_fexp prec emax m e l)) /\ emin64 <= snd (shr_fexp prec emax m e l).
Proof.
  intros Hm He. unfold shr_fexp, shr.
  destruct m as [|p|p]; try lia. simpl Zdigits2.
  pose proof (digits2_pos_bounds p) as [Hlo Hhi].
  set (d := Z.pos (digits2_pos p)) in *.
  destruct (fexp64 (d + e) - e) as [|n|n] eqn:En; simpl fst; simpl snd;
    rewrite ?shr_record_of_loc_m; try (split; lia).
  assert (Hn : Z.pos n = d - prec).
  { unfold fexp, SpecFloat.emin, prec, emax in *. lia. }
  rewrite shr_iter_m by (rewrite shr_record_of_loc_m; lia).
  rewrite shr_record_of_loc_m, Z.shiftr_div_pow2 by lia.
  split; [|lia].
  apply Z.div_str_pos. split; [apply Z.pow_pos_nonneg; lia|].
  apply Z.le_trans with (2 ^ (d - 1)); [|exact Hlo].
  apply Z.pow_le_mono_r; [lia|]. unfold prec in Hn. lia.
Qed.

Lemma round_nearest_even_ge m l : m <= round_nearest_even m l.
Proof.
  destruct l as [|[| |]]; simpl; try lia. destruct (Z.even m); lia.
Qed.

Lemma binary_round_aux_nonzero s m e l :
  0 < m -> emin64 <= e -> SFnonzero s (binary_round_aux prec emax s m e l).
Proof.
  intros Hm He. unfold binary_round_aux.
  pose proof (shr_fexp_pos m e l Hm He) as [H1 H2].
  destruct (shr_fexp prec emax m e l) as [mrs' e']. simpl in H1, H2.
  pose proof (round_nearest_even_ge (shr_m mrs') (loc_of_shr_record mrs')) as Hr.
  set (m2 := round_nearest_even (shr_m mrs') (loc_of_shr_record mrs')) in *.
  pose proof (shr_fexp_pos m2 e' loc_Exact ltac:(lia) H2) as [H3 _].
  destruct (shr_fexp prec emax m2 e' loc_Exact) as [mrs'' e'']. simpl in H3.
  destruct (shr_m mrs''); try lia.
  destruct (_ <=? _); reflexivity.
Qed.

Lemma binary_round_nonzero s m e :
  emin64 <= e -> SFnonzero s (binary_round prec emax s m e).
Proof.
  intros He. unfold binary_round.
  destruct (shl_align m e (fexp64 (Z.pos (digits2_pos m) + e))) as [mz ez] eqn:E.
  apply binary_round_aux_nonzero; [lia|].
  unfold shl_align in E.
  destruct (fexp64 (Z.pos (digits2_pos m) + e) - e) eqn:E2; inversion E; subst; try lia.
  unfold fexp. lia.
Qed.

Lemma binary_normalize_sign m e :
  emin64 <= e -> SFsign (binary_normalize prec emax m e false) = Some (m ?= 0).
Proof.
  intros He. destruct m as [|p|p]; simpl.
  - reflexivity.
  - pose proof (binary_round_nonzero false p e He) as H.
    destruct (binary_round prec emax false p e); simpl in *; try contradiction; now subst.
  - pose proof (binary_round_nonzero true p e He) as H.
    destruct (binary_round prec emax true p e); simpl in *; try contradiction; now subst.
Qed.

(** *** Comparison and the sign of a difference *)

Lemma iter_xO_value (m d : positive) : Z.pos (Pos.iter xO m d) = Z.pos m * 2 ^ Z.pos d.
Proof.
  induction d as [|d IH] using Pos.peano_ind.
  - simpl. lia.
  - rewrite Pos.iter_succ, Pos2Z.inj_succ, Z.pow_succ_r by lia.
    rewrite Pos2Z.inj_xO, IH. lia.
Qed.

Lemma shl_align_value (m : positive) (e e' : Z) :
  e' <= e -> Z.pos (fst (shl_align m e e')) = Z.pos m * 2 ^ (e - e').
Proof.
  intros He. unfold shl_align.
  destruct (e' - e) as [|d|d] eqn:E; simpl fst; try lia.
  - replace (e - e') with 0 by lia. simpl. lia.
  - rewrite iter_xO_value. f_equal. f_equal. lia.
Qed.

Lemma canonical_facts (m : positive) (e : Z) :
  bounded prec emax m e = true ->
  emin64 <= e /\ Z.pos (digits2_pos m) <= prec /\
  (emin64 < e -> Z.pos (digits2_pos m) = prec).
Proof.
  unfold bounded, canonical_mantissa. rewrite andb_true_iff, Z.eqb_eq.
  intros [H _]. unfold fexp, SpecFloat.emin, prec, emax in *. lia.
Qed.

(** With the larger exponent comes the larger magnitude. *)
Lemma canonical_magnitude (mx my : positive) (ex ey : Z) :
  bounded prec emax mx ex = true -> bounded prec emax my ey = true ->
  ex < ey -> Z.pos mx < Z.pos my * 2 ^ (ey - ex).
Proof.
  intros Hx Hy Hlt.
  destruct (canonical_facts _ _ Hx) as (Hex & Hdx & _).
  destruct (canonical_facts _ _ Hy) as (_ & _ & Hdy).
  specialize (Hdy ltac:(lia)).
  pose proof (digits2_pos_bounds mx) as [_ Hux].
  pose proof (digits2_pos_bounds my) as [Hly _].
  rewrite Hdy in Hly.
  assert (H1 : 2 ^ Z.pos (digits2_pos mx) <= 2 ^ prec)
    by (apply Z.pow_le_mono_r; lia).
  assert (H2 : 2 ^ prec = 2 ^ (prec - 1) * 2 ^ 1)
    by (rewrite <- Z.pow_add_r by (unfold prec; lia); f_equal; lia).
  assert (H3 : 2 ^ 1 <= 2 ^ (ey - ex)) by (apply Z.pow_le_mono_r; lia).
  assert (H4 : 0 < 2 ^ (prec - 1)) by (apply Z.pow_pos_nonneg; unfold prec; lia).
  nia.
Qed.

Lemma SFcompare_aligned sx mx ex sy my ey :
  bounded prec emax mx ex = true -> bounded prec emax my ey = true ->
  SFcompare (S754_finite sx mx ex) (S754_finite sy my ey)
  = Some (aligned sx mx ex (Z.min ex ey) ?= aligned sy my ey (Z.min ex ey)).
Proof.
  intros Hx Hy. unfold aligned.
  rewrite !shl_align_value by lia.
  assert (Hpx : 0 < 2 ^ (ex - Z.min ex ey)) by (apply Z.pow_pos_nonneg; lia).
  assert (Hpy : 0 < 2 ^ (ey - Z.min ex ey)) by (apply Z.pow_pos_nonneg; lia).
  simpl SFcompare. f_equal.
  assert (Hcore :
    match ex ?= ey with
    | Eq => Pos.compare_cont Eq mx my
    | Lt => Lt
    | Gt => Gt
    end = (Z.pos mx * 2 ^ (ex - Z.min ex ey) ?= Z.pos my * 2 ^ (ey - Z.min ex ey))).
  { destruct (Z.compare_spec ex ey) as [Heq|Hlt|Hgt].
    - subst ey. rewrite Z.min_id, Z.sub_diag. change (2 ^ 0) with 1.
      rewrite !Z.mul_1_r. reflexivity.
    - rewrite Z.min_l, Z.sub_diag by lia. symmetry. apply Z.compare_lt_iff.
      pose proof (canonical_magnitude _ _ _ _ Hx Hy Hlt). simpl (2 ^ 0). lia.
    - rewrite Z.min_r, Z.sub_diag by lia. symmetry. apply Z.compare_gt_iff.
      pose proof (canonical_magnitude _ _ _ _ Hy Hx ltac:(lia)). simpl (2 ^ 0). lia. }
  destruct sx, sy; unfold cond_Zopp.
  - rewrite Z.compare_opp.
    rewrite (Z.compare_antisym (Z.pos mx * 2 ^ (ex - Z.min ex ey))), <- Hcore.
    destruct (ex ?= ey); reflexivity.
  - symmetry. apply Z.compare_lt_iff. lia.
  - symmetry. apply Z.compare_gt_iff. lia.
  - exact Hcore.
Qed.

(** The difference of two finite numbers has the sign of their comparison:
    it is zero only when they are equal, and never NaN. *)
Lemma SFsub_sign (x y : spec_float) :
  valid_binary x = true -> valid_binary y = true ->
  SFfinite x -> SFfinite y ->
  SFsign (SF64sub x y) = SFcompare x y.
Proof.
  intros Vx Vy Fx Fy.
  destruct x as [sx|sx| |sx mx ex], y as [sy|sy| |sy my ey];
    simpl in Fx, Fy; try contradiction.
  - destruct sx, sy; reflexivity.
  - simpl. destruct sy; reflexivity.
  - simpl. destruct sx; reflexivity.
  - simpl in Vx, Vy. rewrite (SFcompare_aligned sx mx ex sy my ey Vx Vy).
    unfold SF64sub, SFsub.
    destruct (canonical_facts _ _ Vx) as (Hex & _).
    destruct (canonical_facts _ _ Vy) as (Hey & _).
    rewrite binary_normalize_sign by lia.
    f_equal. unfold aligned. symmetry. apply Z.compare_sub.
Qed.

(** *** Results that are numbers *)

Lemma shr_fexp_nonneg (m e : Z) (l : location) :
  0 <= m -> 0 <= shr_m (fst (shr_fexp prec emax m e l)).
Proof.
  intros Hm. unfold shr_fexp, shr.
  destruct (fexp64 (Zdigits2 m + e) - e) as [|n|n]; simpl fst;
    rewrite ?shr_record_of_loc_m; try lia.
  rewrite shr_iter_m by (rewrite shr_record_of_loc_m; lia).
  rewrite shr_record_of_loc_m. apply Z.shiftr_nonneg. lia.
Qed.

Lemma binary_round_aux_number s m e l :
  0 <= m -> binary_round_aux prec emax s m e l <> S754_nan.
Proof.
  intros Hm. unfold binary_round_aux.
  pose proof (shr_fexp_nonneg m e l Hm) as H1.
  destruct (shr_fexp prec emax m e l) as [mrs' e']. simpl in H1.
  pose proof (round_nearest_even_ge (shr_m mrs') (loc_of_shr_record mrs')) as Hr.
  set (m2 := round_nearest_even (shr_m mrs') (loc_of_shr_record mrs')) in *.
  pose proof (shr_fexp_nonneg m2 e' loc_Exact ltac:(lia)) as H3.
  destruct (shr_fexp prec emax m2 e' loc_Exact) as [mrs'' e'']. simpl in H3.
  destruct (shr_m mrs''); try lia; try discriminate.
  destruct (_ <=? _); discriminate.
Qed.

Lemma binary_round_number s m e : binary_round prec emax s m e <> S754_nan.
Proof.
  unfold binary_round. destruct (shl_align m e _) as [mz ez].
  apply binary_round_aux_number. lia.
Qed.

Lemma binary_normalize_number m e s : binary_normalize prec emax m e s <> S754_nan.
Proof.
  destruct m; simpl; try discriminate; apply binary_round_number.
Qed.

Lemma SFadd_finite_number (x y : spec_float) :
  x <> S754_nan -> SFfinite y -> SF64add x y <> S754_nan.
Proof.
  destruct x as [sx|sx| |sx mx ex], y as [sy|sy| |sy my ey]; simpl;
    intros Hx Hy; try contradiction; try congruence;
    try (destruct sx, sy; simpl; congruence).
  apply binary_normalize_number.
Qed.

Lemma SFsub_finite_number (x y : spec_float) :
  SFfinite x -> y <> S754_nan -> SF64sub x y <> S754_nan.
Proof.
  destruct x as [sx|sx| |sx mx ex], y as [sy|sy| |sy my ey]; simpl;
    intros Hx Hy; try contradiction; try congruence;
    try (destruct sx, sy; simpl; congruence).
  apply binary_normalize_number.
Qed.

Lemma SFmul_self_number (x : spec_float) :
  x <> S754_nan -> SF64mul x x <> S754_nan.
Proof.
  destruct x as [s|s| |s m e]; simpl; intros Hx; try congruence.
  apply binary_round_aux_number. lia.
Qed.

Lemma SFadd_nonneg_number (x y : spec_float) :
  x <> S754_nan -> SFnonneg x -> y <> S754_nan -> SFnonneg y ->
  SF64add x y <> S754_nan.
Proof.
  destruct x as [sx|sx| |sx mx ex], y as [sy|sy| |sy my ey]; simpl;
    intros Hx Sx Hy Sy; subst; try congruence;
    try (destruct sx, sy; simpl; congruence);
    try (destruct sx; simpl; congruence); try (destruct sy; simpl; congruence).
  apply binary_normalize_number.
Qed.

Lemma SFdiv_pos_number (x : spec_float) my ey :
  x <> S754_nan -> SF64div x (S754_finite false my ey) <> S754_nan.
Proof.
  destruct x as [sx|sx| |sx mx ex]; simpl; intros Hx; try congruence.
  unfold SF64div, SFdiv.
  destruct (SFdiv_core_binary prec emax (Z.pos mx) ex (Z.pos my) ey) as [[mz ez] lz] eqn:E.
  apply binary_round_aux_number.
  unfold SFdiv_core_binary in E.
  set (m' := match _ with Z0 => _ | Zpos _ => _ | Zneg _ => _ end) in E.
  assert (Hm' : 0 <= m').
  { unfold m'. destruct (_ - _ - _); try lia. apply Z.shiftl_nonneg. lia. }
  pose proof (Z_div_mod m' (Z.pos my) ltac:(lia)) as Hdm.
  destruct (Z.div_eucl m' (Z.pos my)) as [q r]. inversion E; subst.
  destruct Hdm as [Heq Hr]. nia.
Qed.

(** *** Results that are finite *)

Lemma Zdigits2_upper (x k : Z) : 0 < x < 2 ^ k -> 0 <= k -> Zdigits2 x <= k.
Proof.
  intros [Hx Hk] Hk0. destruct x as [|p|p]; try lia. simpl.
  pose proof (digits2_pos_bounds p) as [Hlo _].
  assert (H : 2 ^ (Z.pos (digits2_pos p) - 1) < 2 ^ k) by lia.
  apply Z.pow_lt_mono_r_iff in H; lia.
Qed.

Lemma Zdigits2_lt (x : Z) : 0 < x -> x < 2 ^ Zdigits2 x /\ 0 < Zdigits2 x.
Proof.
  intros Hx. destruct x as [|p|p]; try lia. simpl.
  pose proof (digits2_pos_bounds p). lia.
Qed.

(** Shifting to the canonical exponent does not raise the magnitude. *)
Lemma shr_fexp_magnitude (m e : Z) (l : location) :
  0 < m -> emin64 <= e ->
  snd (shr_fexp prec emax m e l) <= Zdigits2 m + e /\
  Zdigits2 (shr_m (fst (shr_fexp prec emax m e l))) + snd (shr_fexp prec emax m e l)
  <= Zdigits2 m + e.
Proof.
  intros Hm He.
  pose proof (shr_fexp_pos m e l Hm He) as [Hpos _].
  pose proof (Zdigits2_lt m Hm) as [Hlt Hd].
  revert Hpos. unfold shr_fexp, shr.
  set (d := Zdigits2 m) in *.
  destruct (fexp64 (d + e) - e) as [|n|n] eqn:En; simpl fst; simpl snd;
    rewrite ?shr_record_of_loc_m; fold d; try lia.
  assert (Hn : Z.pos n = d - prec).
  { unfold fexp, SpecFloat.emin, prec, emax in *. lia. }
  rewrite shr_iter_m by (rewrite shr_record_of_loc_m; lia).
  rewrite shr_record_of_loc_m, Z.shiftr_div_pow2 by lia.
  intros Hpos. split; [unfold prec in Hn; lia|].
  assert (Hq : m / 2 ^ Z.pos n < 2 ^ prec).
  { apply Z.div_lt_upper_bound; [apply Z.pow_pos_nonneg; lia|].
    rewrite <- Z.pow_add_r by (unfold prec; lia).
    replace (Z.pos n + prec) with d by lia. exact Hlt. }
  pose proof (Zdigits2_upper (m / 2 ^ Z.pos n) prec ltac:(lia) ltac:(unfold prec; lia)).
  lia.
Qed.

Lemma round_nearest_even_le m l : round_nearest_even m l <= m + 1.
Proof.
  destruct l as [|[| |]]; simpl; try lia. destruct (Z.even m); lia.
Qed.

(** Rounding a magnitude far below the largest exponent gives a finite
    number. *)
Lemma binary_round_aux_finite s m e l :
  0 < m -> emin64 <= e -> Zdigits2 m + e <= 900 ->
  exists m' e', binary_round_aux prec emax s m e l = S754_finite s m' e'.
Proof.
  intros Hm He Hmag. unfold binary_round_aux.
  pose proof (shr_fexp_pos m e l Hm He) as [H1 H2].
  pose proof (shr_fexp_magnitude m e l Hm He) as [_ M1].
  destruct (shr_fexp prec emax m e l) as [mrs' e']. simpl in H1, H2, M1.
  pose proof (round_nearest_even_ge (shr_m mrs') (loc_of_shr_record mrs')) as Hr.
  pose proof (round_nearest_even_le (shr_m mrs') (loc_of_shr_record mrs')) as Hr'.
  set (m2 := round_nearest_even (shr_m mrs') (loc_of_shr_record mrs')) in *.
  pose proof (Zdigits2_lt (shr_m mrs') H1) as [Hlt Hd].
  assert (Hd2 : Zdigits2 m2 <= Zdigits2 (shr_m mrs') + 1).
  { apply Zdigits2_upper; [|lia]. rewrite Z.pow_add_r, Z.pow_1_r by lia. lia. }
  pose proof (shr_fexp_pos m2 e' loc_Exact ltac:(lia) H2) as [H3 _].
  pose proof (shr_fexp_magnitude m2 e' loc_Exact ltac:(lia) H2) as [M2 _].
  destruct (shr_fexp prec emax m2 e' loc_Exact) as [mrs'' e'']. simpl in H3, M2.
  destruct (shr_m mrs'') as [|p|p]; try lia.
  destruct (Z.leb_spec e'' (emax - prec)) as [_|Hover].
  - now exists p, e''.
  - unfold emax, prec in Hover. lia.
Qed.

Lemma shl_align_magnitude (m : positive) (e e' : Z) :
  emin64 <= e -> emin64 <= e' ->
  emin64 <= snd (shl_align m e e') /\
  Zdigits2 (Z.pos (fst (shl_align m e e'))) + snd (shl_align m e e') <= Zdigits2 (Z.pos m) + e.
Proof.
  intros He He'.
  destruct (Z.le_gt_cases e' e) as [Hle|Hgt].
  - pose proof (shl_align_value m e e' Hle) as Hv.
    assert (Hs : snd (shl_align m e e') <= e /\ emin64 <= snd (shl_align m e e') /\
                 (snd (shl_align m e e') = e' \/ fst (shl_align m e e') = m)).
    { unfold shl_align. destruct (e' - e) eqn:E; simpl; lia. }
    destruct Hs as (Hs1 & Hs2 & [Hs3|Hs3]); [|rewrite Hs3; lia].
    split; [exact Hs2|]. rewrite Hs3.
    pose proof (Zdigits2_lt (Z.pos m) ltac:(lia)) as [Hlt Hd].
    assert (H : Z.pos (fst (shl_align m e e')) < 2 ^ (Zdigits2 (Z.pos m) + (e - e'))).
    { rewrite Hv, Z.pow_add_r by lia.
      apply Z.mul_lt_mono_pos_r; [apply Z.pow_pos_nonneg; lia | exact Hlt]. }
    assert (H0 : 0 < Z.pos (fst (shl_align m e e'))) by lia.
    pose proof (Zdigits2_upper _ _ (conj H0 H)). lia.
  - unfold shl_align. destruct (e' - e) eqn:E; simpl; lia.
Qed.

Lemma binary_round_finite s m e :
  emin64 <= e -> Zdigits2 (Z.pos m) + e <= 900 ->
  exists m' e', binary_round prec emax s m e = S754_finite s m' e'.
Proof.
  intros He Hmag. unfold binary_round.
  pose proof (shl_align_magnitude m e (fexp64 (Z.pos (digits2_pos m) + e)) He
                ltac:(unfold fexp; lia)) as [H1 H2].
  destruct (shl_align m e _) as [mz ez]. cbn [fst snd] in H1, H2.
  apply binary_round_aux_finite; lia.
Qed.

Lemma Z2float_positive_finite (z : Z) :
  0 < z < 2 ^ 63 -> positive_finite (Z2float z).
Proof.
  intros [Hz Hlt]. destruct z as [|p|p]; try lia.
  unfold positive_finite, Z2float. rewrite of_uint63_spec, Uint63.of_Z_spec.
  change Uint63.wB with (2 ^ 63). rewrite Z.mod_small by lia.
  simpl binary_normalize. apply binary_round_finite.
  - unfold SpecFloat.emin, emax, prec. lia.
  - pose proof (Zdigits2_upper (Z.pos p) 63 ltac:(lia) ltac:(lia)). lia.
Qed.

(** *** The same on primitive floats *)

Local Open Scope float_scope.

Lemma is_finite_spec (x : float) :
  PrimFloat.is_finite x = true -> SFfinite (Prim2SF x).
Proof.
  unfold PrimFloat.is_finite, PrimFloat.is_infinity.
  rewrite negb_true_iff, orb_false_iff. intros [Hnan Hinf].
  apply is_nan_false in Hnan.
  rewrite FloatAxioms.eqb_spec, abs_spec in Hinf.
  destruct (Prim2SF x) as [s|s| |s m e]; simpl; auto; try discriminate; congruence.
Qed.

Lemma is_finite_not_nan (x : float) :
  PrimFloat.is_finite x = true -> PrimFloat.is_nan x = false.
Proof.
  unfold PrimFloat.is_finite. rewrite negb_true_iff, orb_false_iff. tauto.
Qed.

Lemma sub_sign (x y : float) :
  PrimFloat.is_finite x = true -> PrimFloat.is_finite y = true ->
  SFsign (Prim2SF (x - y)) = SFcompare (Prim2SF x) (Prim2SF y).
Proof.
  intros Hx Hy. rewrite sub_spec.
  apply SFsub_sign; auto using Prim2SF_valid, is_finite_spec.
Qed.

Lemma ltb_zero_sign (d : float) :
  (0 <? d) = match SFsign (Prim2SF d) with Some Gt => true | _ => false end.
Proof.
  rewrite ltb_spec, Prim2SF_zero. unfold SFltb.
  destruct (Prim2SF d) as [s|s| |s m e]; simpl; try reflexivity; destruct s; reflexivity.
Qed.

Lemma truthy_sign (d : float) :
  js_truthy d = match SFsign (Prim2SF d) with Some Eq | None => false | _ => true end.
Proof.
  unfold js_truthy, PrimFloat.is_zero.
  destruct (PrimFloat.is_nan d) eqn:Hn.
  - apply is_nan_spec in Hn. rewrite Hn. reflexivity.
  - apply is_nan_false in Hn. cbn [orb].
    rewrite FloatAxioms.eqb_spec. change (Prim2SF zero) with (S754_zero false).
    unfold SFeqb.
    destruct (Prim2SF d) as [s|s| |s m e]; simpl; try reflexivity;
      try congruence; destruct s; reflexivity.
Qed.

(** [a - b > 0] exactly when [a > b], on finite numbers. *)
Lemma sub_positive (x y : float) :
  PrimFloat.is_finite x = true -> PrimFloat.is_finite y = true ->
  (0 <? x - y) = (y <? x).
Proof.
  intros Hx Hy. rewrite ltb_zero_sign, sub_sign by assumption.
  rewrite ltb_spec. unfold SFltb.
  rewrite (SFcompare_antisym (Prim2SF x) (Prim2SF y)).
  destruct (SFcompare (Prim2SF x) (Prim2SF y)) as [[| |]|]; reflexivity.
Qed.

(** [a - b] is falsy exactly when [a == b], on finite numbers. *)
Lemma sub_truthy (x y : float) :
  PrimFloat.is_finite x = true -> PrimFloat.is_finite y = true ->
  js_truthy (x - y) = negb (x =? y).
Proof.
  intros Hx Hy. rewrite truthy_sign, sub_sign by assumption.
  rewrite FloatAxioms.eqb_spec. unfold SFeqb.
  destruct (SFcompare (Prim2SF x) (Prim2SF y)) as [[| |]|] eqn:E; try reflexivity.
  apply SFcompare_None in E.
  apply is_finite_not_nan, is_nan_false in Hx.
  apply is_finite_not_nan, is_nan_false in Hy. tauto.
Qed.

Lemma eqb_sym (x y : float) : (x =? y) = (y =? x).
Proof.
  rewrite !FloatAxioms.eqb_spec. unfold SFeqb.
  rewrite (SFcompare_antisym (Prim2SF x) (Prim2SF y)).
  destruct (SFcompare (Prim2SF x) (Prim2SF y)) as [[| |]|]; reflexivity.
Qed.

Lemma trichotomy (x y : float) :
  PrimFloat.is_nan x = false -> PrimFloat.is_nan y = false ->
  (y <? x) = false -> (x =? y) = false -> (x <? y) = true.
Proof.
  rewrite !is_nan_false, !ltb_spec, FloatAxioms.eqb_spec. unfold SFltb, SFeqb.
  intros Hx Hy. rewrite (SFcompare_antisym (Prim2SF x) (Prim2SF y)).
  destruct (SFcompare (Prim2SF x) (Prim2SF y)) as [[| |]|] eqn:E; simpl; try congruence.
  apply SFcompare_None in E. tauto.
Qed.

(** *** Results that are numbers, on primitive floats *)

Lemma add_finite_number (x y : float) :
  PrimFloat.is_nan x = false -> PrimFloat.is_finite y = true ->
  PrimFloat.is_nan (x + y) = false.
Proof.
  rewrite !is_nan_false, add_spec. intros Hx Hy.
  apply SFadd_finite_number; auto using is_finite_spec.
Qed.

Lemma sub_finite_number (x y : float) :
  PrimFloat.is_finite x = true -> PrimFloat.is_nan y = false ->
  PrimFloat.is_nan (x - y) = false.
Proof.
  rewrite !is_nan_false, sub_spec. intros Hx Hy.
  apply SFsub_finite_number; auto using is_finite_spec.
Qed.

Lemma div_pos_number (x y : float) :
  PrimFloat.is_nan x = false -> positive_finite y ->
  PrimFloat.is_nan (x / y) = false.
Proof.
  rewrite !is_nan_false, div_spec. intros Hx (m & e & ->).
  now apply SFdiv_pos_number.
Qed.

(** Adding a square to a number that is at least 0 gives a number that is
    at least 0. *)
Lemma add_square_number (acc v : float) :
  PrimFloat.is_nan acc = false /\ (0 <=? acc) = true ->
  PrimFloat.is_nan v = false ->
  PrimFloat.is_nan (acc + v * v) = false /\ (0 <=? acc + v * v) = true.
Proof.
  intros [Hacc Hpos] Hv.
  assert (Hsq : Prim2SF (v * v) <> S754_nan /\ SFnonneg (Prim2SF (v * v))).
  { rewrite mul_spec. split; [|apply SFnonneg_mul_self].
    apply SFmul_self_number. now apply is_nan_false. }
  assert (Hacc' : SFnonneg (Prim2SF acc)) by (apply nonneg_or_nan_spec; now right).
  assert (Hn : PrimFloat.is_nan (acc + v * v) = false).
  { rewrite is_nan_false, add_spec.
    apply SFadd_nonneg_number; try tauto. now apply is_nan_false. }
  split; [exact Hn|].
  assert (H : nonneg_or_nan (acc + v * v)).
  { rewrite nonneg_or_nan_spec, add_spec. apply SFnonneg_add; tauto. }
  destruct H as [H|H]; congruence.
Qed.

Lemma of_nat_positive_finite (L : Libm) (n : nat) :
  (0 < n)%nat -> (Z.of_nat n < 2 ^ 32)%Z ->
  positive_finite (@of_nat float (float_Num L) n).
Proof.
  intros Hn Hlt. unfold of_nat. cbn. apply Z2float_positive_finite. lia.
Qed.

End FloatFacts.

(** ** The engine on binary64 *)

Import JSFloat FloatFacts.

Section BinaryProps.

Context {L : Libm}.
Local Open Scope js_scope.

(** *** The grid of [fitARMA11OnDiff] *)

(** The loop [for (v = -0.9; v <= 0.9; v += 0.1)] runs 19 rounds in binary64
    (its last value is 0.8999999999999998) and leaves through its test:
    more fuel changes nothing. *)
Lemma grid_exits_by_test (extra : nat) :
  loop_values (grid_fuel + extra) (- #0.9) #0.9 #0.1 = grid /\ length grid = 19%nat.
Proof. split; reflexivity. Qed.

(** *** p-values *)

Lemma unit_or_nan_nan : unit_or_nan nan.
Proof. left. reflexivity. Qed.

Lemma chiSquareUpperTailP_unit (Q df : float) : unit_or_nan (chiSquareUpperTailP Q df).
Proof.
  unfold chiSquareUpperTailP.
  destruct (nleb df _).
  - right. split; reflexivity.
  - apply clamp_unit.
Qed.

Lemma adfTest_unit (data : series) : unit_or_nan (adf_pValue (adfTest data)).
Proof.
  unfold adfTest. cbn [adf_pValue].
  destruct (nltb _ _); right; split; reflexivity.
Qed.

Lemma ljungBoxTest_unit (residuals : list float) (m p : nat) :
  unit_or_nan (lb_pValue (ljungBoxTest residuals m p)).
Proof.
  unfold ljungBoxTest.
  destruct (Nat.ltb _ _); cbn [lb_pValue].
  - apply unit_or_nan_nan.
  - apply chiSquareUpperTailP_unit.
Qed.

Lemma archLMTest_unit (residuals : list float) (m : nat) :
  unit_or_nan (arch_pValue (archLMTest residuals m)).
Proof.
  unfold archLMTest.
  destruct (Nat.ltb _ _); cbn [arch_pValue].
  - apply unit_or_nan_nan.
  - apply chiSquareUpperTailP_unit.
Qed.

Lemma positive_finite_lit (q : Q) m e :
  Prim2SF (js_lit q) = S754_finite false m e -> positive_finite (js_lit q).
Proof. intros H. now exists m, e. Qed.

Lemma computeJarqueBera_unit (values : list float) :
  (forall x : float, nonneg_or_nan (libm_pow L x 2)) ->
  (forall x : float, nonpos_or_nan x -> unit_or_nan (libm_exp L x)) ->
  unit_or_nan (jb_pValue (computeJarqueBera values)).
Proof.
  intros pow_square_sign exp_range.
  unfold computeJarqueBera.
  destruct (Nat.ltb _ _); cbn [jb_pValue].
  - apply unit_or_nan_nan.
  - apply exp_range. apply nonpos_div_pos; [|eapply positive_finite_lit; reflexivity].
    apply nonpos_opp. apply nonneg_mul.
    + apply nonneg_div_pos; [apply nonneg_of_nat | eapply positive_finite_lit; reflexivity].
    + apply nonneg_add.
      * apply nonneg_mul_self.
      * apply nonneg_div_pos; [apply pow_square_sign | eapply positive_finite_lit; reflexivity].
Qed.

(** C9: on binary64, the p-value of the chi-square upper-tail approximation,
    of adfTest, of ljungBoxTest, of archLMTest and of computeJarqueBera is NaN
    or lies in [0, 1], for every input (finite or not).  The host's
    [Math.pow(x, 2)] is taken to be NaN or non-negative and its [Math.exp] to
    map a non-positive or NaN argument to NaN or into [0, 1]. *)
Theorem pvalues_unit_or_nan :
  (forall x : float, nonneg_or_nan (libm_pow L x 2)) ->
  (forall x : float, nonpos_or_nan x -> unit_or_nan (libm_exp L x)) ->
  (forall Q df : float, unit_or_nan (chiSquareUpperTailP Q df)) /\
  (forall data : series, unit_or_nan (adf_pValue (adfTest data))) /\
  (forall (residuals : list float) (m p : nat),
      unit_or_nan (lb_pValue (ljungBoxTest residuals m p))) /\
  (forall (residuals : list float) (m : nat),
      unit_or_nan (arch_pValue (archLMTest residuals m))) /\
  (forall values : list float, unit_or_nan (jb_pValue (computeJarqueBera values))).
Proof.
  intros Hpow Hexp. repeat split.
  - apply chiSquareUpperTailP_unit.
  - apply adfTest_unit.
  - apply ljungBoxTest_unit.
  - apply archLMTest_unit.
  - intros values. now apply computeJarqueBera_unit.
Qed.

(** *** The two autocorrelation helpers *)

Lemma fold_left_map_seq {A} (f : A -> nat -> A) (g : nat -> nat) (l : list nat) (a : A) :
  fold_left f (map g l) a = fold_left (fun acc i => f acc (g i)) l a.
Proof.
  revert a. induction l as [|x l IH]; intros a; simpl; [reflexivity | apply IH].
Qed.

Lemma seq_shift_by (k len : nat) : seq k len = map (fun i => (i + k)%nat) (seq 0 len).
Proof.
  revert k. induction len as [|len IH]; intros k; simpl; [reflexivity|].
  f_equal. rewrite (IH (S k)), <- seq_shift, map_map.
  apply map_ext. intros i. lia.
Qed.

(** The sum of finite numbers may overflow; it is never NaN. *)
Lemma sum_number (values : list float) :
  Forall (fun v => isFinite v = true) values ->
  PrimFloat.is_nan (sum values) = false.
Proof.
  intros Hfin. unfold sum.
  apply (fold_left_invariant (fun acc => PrimFloat.is_nan acc = false)).
  - intros acc v Hv Hacc. rewrite Forall_forall in Hfin.
    apply add_finite_number; [exact Hacc | now apply Hfin].
  - reflexivity.
Qed.

Lemma get_finite (values : list float) (i : nat) :
  Forall (fun v => isFinite v = true) values -> (i < length values)%nat ->
  PrimFloat.is_finite (get values i) = true.
Proof.
  intros Hfin Hi. rewrite Forall_forall in Hfin. apply Hfin.
  unfold get. apply nth_In. exact Hi.
Qed.

(** The centered sum of squares of finite numbers is a number: it may be
    [Infinity], it is never NaN.  Its test [denom ? ... : 0] is then the
    comparison with 0. *)
Lemma centeredSumSquares_number (values : list float) :
  Forall (fun v => isFinite v = true) values ->
  (Z.of_nat (length values) < 2 ^ 32)%Z ->
  PrimFloat.is_nan (centeredSumSquares values) = false.
Proof.
  intros Hfin Hlen. unfold centeredSumSquares.
  set (mean := sum values / of_nat (length values)).
  apply (fold_left_invariant
           (fun acc => PrimFloat.is_nan acc = false /\ PrimFloat.leb 0 acc = true)).
  - intros acc i Hi Hacc. apply in_seq in Hi.
    apply (add_square_number acc (get values i - mean) Hacc).
    apply sub_finite_number; [apply get_finite; [exact Hfin | lia]|].
    apply div_pos_number; [now apply sum_number|].
    apply of_nat_positive_finite; [lia | exact Hlen].
  - split; reflexivity.
Qed.

Lemma truthy_nonzero (x : float) :
  PrimFloat.is_nan x = false -> truthy x = negb (x =? 0)%float.
Proof.
  intros Hx. cbn [truthy float_Num]. unfold js_truthy. rewrite Hx. reflexivity.
Qed.

(** Whenever the denominator passes the test of the helper, on finite
    numbers or not, the two routines return the same autocorrelations. *)
Lemma autocorrelations_agree_when_truthy (values : list float) (m k : nat) :
  (forall x : float, libm_pow L x 2 = (x * x)%float) ->
  (m + 1 <= length values)%nat ->
  (1 <= k <= m)%nat ->
  truthy (centeredSumSquares values) = true ->
  get (computeAutocorrelations values m) (k - 1)
  = get (calculateACF (Numeric values) m) k.
Proof.
  intros Hpow Hlen [Hk1 Hkm] Hden.
  unfold computeAutocorrelations, calculateACF. cbn [pricesOf].
  destruct (Nat.ltb_spec (length values) (m + 1)) as [Hlt|_]; [lia|].
  rewrite !get_map_seq by lia.
  replace (1 + (k - 1))%nat with k by lia. cbn [Nat.add].
  destruct k as [|k']; [lia|]. set (k := S k') in *.
  fold (centeredSumSquares values). rewrite Hden.
  f_equal.
  - rewrite (seq_shift_by k), fold_left_map_seq.
    apply fold_left_ext_in. intros acc i _.
    replace (i + k - k)%nat with i by lia.
    cbn [nadd nmul nsub float_Num]. f_equal. apply mul_comm.
  - unfold centeredSumSquares. apply fold_left_ext_in. intros acc i _.
    cbn [nadd nmul nsub Math_pow float_Num]. f_equal. symmetry. apply Hpow.
Qed.

(** C10: on binary64, for an array of finite numbers of length n >= m + 1
    (an array has fewer than 2^32 elements) whose centered sum of squares is
    not 0, entry k-1 of computeAutocorrelations is entry k of calculateACF for
    every k in 1..m: same mean, same products in the same order, same
    denominator.  The host's [Math.pow(x, 2)] is taken to be the product
    [x * x] that the helper writes. *)
Theorem autocorrelation_helpers_agree (values : list float) (m k : nat) :
  (forall x : float, libm_pow L x 2 = (x * x)%float) ->
  Forall (fun v => isFinite v = true) values ->
  (Z.of_nat (length values) < 2 ^ 32)%Z ->
  (m + 1 <= length values)%nat ->
  (1 <= k <= m)%nat ->
  (centeredSumSquares values === #0) = false ->
  get (computeAutocorrelations values m) (k - 1)
  = get (calculateACF (Numeric values) m) k.
Proof.
  intros Hpow Hfin Hsize Hlen Hk Hden.
  apply autocorrelations_agree_when_truthy; try assumption.
  rewrite truthy_nonzero by now apply centeredSumSquares_number.
  cbn [neqb lit float_Num] in Hden. change (js_lit 0) with 0%float in Hden.
  now rewrite Hden.
Qed.

(** *** Ranking *)

Lemma compareModels_positive (a b : Candidate) :
  finite_criteria a = true -> finite_criteria b = true ->
  (compareModels a b >? #0) = true -> ranks_before b a.
Proof.
  unfold finite_criteria. rewrite !andb_true_iff. intros [HaA HaB] [HbA HbB].
  cbn [isFinite float_Num] in *.
  unfold compareModels, ranks_before. cbn [nsub truthy nltb lit float_Num].
  change (js_lit 0) with 0%float.
  rewrite sub_truthy by assumption.
  destruct (c_AIC a =? c_AIC b)%float eqn:E; cbn [negb].
  - rewrite sub_positive by assumption. intros H. right. split.
    + now rewrite eqb_sym.
    + now apply ltb_leb.
  - rewrite sub_positive by assumption. intros H. now left.
Qed.

Lemma compareModels_not_positive (a b : Candidate) :
  finite_criteria a = true -> finite_criteria b = true ->
  (compareModels a b >? #0) = false -> ranks_before a b.
Proof.
  unfold finite_criteria. rewrite !andb_true_iff. intros [HaA HaB] [HbA HbB].
  cbn [isFinite float_Num] in *.
  unfold compareModels, ranks_before. cbn [nsub truthy nltb lit float_Num].
  change (js_lit 0) with 0%float.
  rewrite sub_truthy by assumption.
  destruct (c_AIC a =? c_AIC b)%float eqn:E; cbn [negb].
  - rewrite sub_positive by assumption. intros H. right. split; [reflexivity|].
    apply not_ltb_leb; auto using is_finite_not_nan.
  - rewrite sub_positive by assumption. intros H. left.
    apply trichotomy; auto using is_finite_not_nan.
Qed.

Lemma ranked_sorted (models : list Candidate) :
  let kept := filter finite_criteria models in
  let sorted := Array_sort compareModels kept in
  Permutation sorted kept /\ Sorted ranks_before sorted.
Proof.
  intros kept sorted.
  assert (Hkept : Forall (fun m => finite_criteria m = true) kept).
  { apply Forall_forall. intros m Hm. apply filter_In in Hm. tauto. }
  split; [apply Array_sort_perm|].
  apply (Array_sort_sorted compareModels (fun m => finite_criteria m = true) ranks_before).
  - intros a b Ha Hb. now apply compareModels_positive.
  - intros a b Ha Hb. now apply compareModels_not_positive.
  - exact Hkept.
Qed.

Lemma ranking_example (b1 b2 b3 : float) :
  PrimFloat.is_finite b1 = true -> PrimFloat.is_finite b2 = true ->
  PrimFloat.is_finite b3 = true ->
  map (fun m : Candidate => (c_AIC m, c_rank m))
      (rankModels [candidate 10%float b1; candidate 5%float b2; candidate 7%float b3])
  = [(5%float, Some 1%nat); (7%float, Some 2%nat); (10%float, Some 3%nat)].
Proof.
  intros H1 H2 H3. unfold rankModels, candidate.
  cbn [filter c_AIC c_BIC isFinite float_Num].
  rewrite H1, H2, H3.
  change (PrimFloat.is_finite 10) with true.
  change (PrimFloat.is_finite 5) with true.
  change (PrimFloat.is_finite 7) with true.
  cbn [andb]. reflexivity.
Qed.

(** C2: on binary64, the selection keeps exactly the candidates whose AIC
    and BIC are both finite, puts them in ascending order of AIC with ties
    broken by ascending BIC, and numbers them 1..N in that order; being a
    function of its input it is deterministic.  Three candidates with AIC 10,
    5, 7 and any finite BICs get rank 1 for AIC 5, 2 for AIC 7 and 3 for
    AIC 10. *)
Theorem model_ranking :
  (forall models : list Candidate,
      let kept := filter finite_criteria models in
      let ranked := rankModels models in
      exists sorted : list Candidate,
        Permutation sorted kept /\
        Sorted ranks_before sorted /\
        ranked = map (fun im : nat * Candidate => set_rank (snd im) (fst im + 1)) (indexed sorted) /\
        map (fun m : Candidate => (c_AIC m, c_BIC m)) ranked
        = map (fun m : Candidate => (c_AIC m, c_BIC m)) sorted /\
        map (fun m : Candidate => c_rank m) ranked = map Some (seq 1 (length kept))) /\
  (forall b1 b2 b3 : float,
      PrimFloat.is_finite b1 = true -> PrimFloat.is_finite b2 = true ->
      PrimFloat.is_finite b3 = true ->
      map (fun m : Candidate => (c_AIC m, c_rank m))
          (rankModels [candidate 10%float b1; candidate 5%float b2; candidate 7%float b3])
      = [(5%float, Some 1%nat); (7%float, Some 2%nat); (10%float, Some 3%nat)]).
Proof.
  split.
  - intros models kept ranked.
    destruct (ranked_sorted models) as [Hperm Hsorted].
    exists (Array_sort compareModels kept). repeat split.
    + exact Hperm.
    + exact Hsorted.
    + apply ranks_keep_criteria.
    + unfold ranked, rankModels. fold (@finite_criteria float _). fold kept.
      rewrite ranks_assigned. f_equal. f_equal.
      apply Permutation_length. exact Hperm.
  - apply ranking_example.
Qed.

End BinaryProps.

Section BinaryExamples.

Context {L : Libm}.
Local Open Scope js_scope.

Lemma forecast_example :
  let dollarData := map row [94; 98; 100]%float in
  let prices := map price dollarData in
  let f := generateRealForecastsForStage5 dollarData in
  ar_phi (fitAR1OnDiff prices) = 0.5%float /\
  get prices 2 - get prices 1 = 2%float /\
  get prices 2 = 100%float /\
  firstn 3 (diffForecasts f) = [1; 0.5; 0.25]%float /\
  get (pointForecasts f) 2 = 101.75%float.
Proof. vm_compute. repeat split. Qed.

(** C1: on binary64, when the fitted coefficient phi is finite the forecaster
    sets diff[1] = phi * dLast and diff[h] = phi * diff[h-1] for h = 2..12,
    and, when the last price and the first h difference forecasts are finite,
    level[h] = yLast + (diff[1] + ... + diff[h]), the sum taken from the left
    starting at 0.  On the prices 94, 98, 100 the fit gives phi = 0.5 with
    dLast = 2 and yLast = 100: the first three difference forecasts are exactly
    1, 0.5, 0.25 and the level forecast at horizon 3 is exactly 101.75. *)
Theorem forecast_recursive_cumulative :
  (forall dollarData : list Observation,
      let prices := map price dollarData in
      let phi := ar_phi (fitAR1OnDiff prices) in
      let yLast := get prices (length prices - 1) in
      let dLast :=
        if (1 <? length prices)%nat
        then get prices (length prices - 1) - get prices (length prices - 2)
        else #0 in
      let f := generateRealForecastsForStage5 dollarData in
      isFinite phi = true ->
      get (diffForecasts f) 0 = phi * dLast /\
      (forall h, (2 <= h <= forecastHorizon)%nat ->
         get (diffForecasts f) (h - 1) = phi * get (diffForecasts f) (h - 2)) /\
      (forall h, (1 <= h <= forecastHorizon)%nat ->
         isFinite yLast = true ->
         Forall (fun d => isFinite d = true) (firstn h (diffForecasts f)) ->
         get (pointForecasts f) (h - 1) = yLast + sum (firstn h (diffForecasts f)))) /\
  (let dollarData := map row [94; 98; 100]%float in
   let prices := map price dollarData in
   let f := generateRealForecastsForStage5 dollarData in
   ar_phi (fitAR1OnDiff prices) = 0.5%float /\
   get prices 2 - get prices 1 = 2%float /\
   get prices 2 = 100%float /\
   firstn 3 (diffForecasts f) = [1; 0.5; 0.25]%float /\
   get (pointForecasts f) 2 = 101.75%float).
Proof.
  split.
  - intros dollarData. apply forecast_recursion_general.
  - apply forecast_example.
Qed.

Lemma adfTest_too_short (x : float) :
  (let r := adfTest (Numeric []) in
   PrimFloat.is_nan (adf_statistic r) = true /\
   adf_pValue r = #0.15 /\ PrimFloat.is_nan (adf_pValue r) = false) /\
  (let r := adfTest (Numeric [x]) in
   PrimFloat.is_nan (adf_statistic r) = true /\
   adf_pValue r = #0.15 /\ PrimFloat.is_nan (adf_pValue r) = false).
Proof. split; vm_compute; repeat split. Qed.

(** C6: ljungBoxTest with n < m + 1 and computeJarqueBera with n < 8 return
    NaN for the statistic and for the p-value.  adfTest has no size guard: on
    the empty series and on a single price its statistic is NaN, the test
    [NaN < -2.86] is false, and the p-value returned is 0.15, not NaN. *)
Theorem diagnostics_on_short_samples :
  (forall (residuals : list float) (m p : nat),
      (length residuals < m + 1)%nat ->
      ljungBoxTest residuals m p = {| lb_Q := nan; lb_pValue := nan |}) /\
  (forall values : list float,
      (length values < 8)%nat ->
      computeJarqueBera values = {| jb := nan; jb_pValue := nan |}) /\
  (forall x : float,
      (let r := adfTest (Numeric []) in
       PrimFloat.is_nan (adf_statistic r) = true /\
       adf_pValue r = #0.15 /\ PrimFloat.is_nan (adf_pValue r) = false) /\
      (let r := adfTest (Numeric [x]) in
       PrimFloat.is_nan (adf_statistic r) = true /\
       adf_pValue r = #0.15 /\ PrimFloat.is_nan (adf_pValue r) = false)).
Proof.
  split; [|split].
  - intros residuals m p H. exact (ljungBoxTest_short residuals m p H).
  - intros values H. exact (computeJarqueBera_short values H).
  - apply adfTest_too_short.
Qed.

(** The quartiles of the statistics are the sorted finite prices at the
    indices [floor(n * 0.25)] and [floor(n * 0.75)], also for n = 0 (both
    reads are [undefined]) and n = 1 (both indices are 0). *)
Lemma stats_quartiles (values : list float) :
  let finite := filter isFinite values in
  let sorted := Array_sort (fun a b => a - b) finite in
  let n := of_nat (length finite) in
  let st := calculateDescriptiveStats (Numeric values) in
  st_q1 st = get_at sorted (Math_floor (n * #0.25)) /\
  st_q3 st = get_at sorted (Math_floor (n * #0.75)).
Proof.
  intros finite sorted n st. unfold st, calculateDescriptiveStats, sorted, n.
  cbn [pricesOf]. fold finite.
  destruct finite as [|a [|b l]]; split; reflexivity.
Qed.

Lemma detectOutliers_fences (data : series) :
  let stats := calculateDescriptiveStats (Numeric (pricesOf data)) in
  let iqr := st_q3 stats - st_q1 stats in
  (st_q1 stats - #1.5 * iqr, st_q3 stats + #1.5 * iqr) = outlier_fences (pricesOf data).
Proof.
  cbv zeta. destruct (stats_quartiles (pricesOf data)) as [H1 H3].
  cbv zeta in H1, H3. rewrite H1, H3. reflexivity.
Qed.

(** On every array of fewer than 4096 elements the two indices are the
    integer quotients n / 4 and 3 n / 4. *)
Lemma quartile_indices (n : nat) :
  (n < 4096)%nat ->
  to_index (Math_floor (of_nat n * #0.25)) = Some (n / 4)%nat /\
  to_index (Math_floor (of_nat n * #0.75)) = Some (3 * n / 4)%nat.
Proof.
  intros Hn.
  assert (Hall : forallb (fun k =>
                   match to_index (Math_floor (of_nat k * #0.25)),
                         to_index (Math_floor (of_nat k * #0.75)) with
                   | Some i, Some j => Nat.eqb i (k / 4) && Nat.eqb j (3 * k / 4)
                   | _, _ => false
                   end) (seq 0 4096) = true) by (vm_compute; reflexivity).
  rewrite forallb_forall in Hall. specialize (Hall n).
  assert (Hin : In n (seq 0 4096)) by (apply in_seq; lia).
  specialize (Hall Hin).
  destruct (to_index (Math_floor (of_nat n * #0.25))) as [i|]; [|discriminate].
  destruct (to_index (Math_floor (of_nat n * #0.75))) as [j|]; [|discriminate].
  apply andb_true_iff in Hall. destruct Hall as [Hi Hj].
  apply Nat.eqb_eq in Hi, Hj. now subst.
Qed.

Lemma detectOutliers_example :
  detectOutliers (Numeric [1; 2; 3; 4; 5; 100]%float)
  = [ {| o_index := 5; o_date := None; o_price := 100%float; o_type := superior |} ].
Proof. vm_compute. reflexivity. Qed.

(** C8: on binary64, an outlier is reported for index i exactly when the
    price at i lies below Q1 - 1.5 IQR or above Q3 + 1.5 IQR, where Q1 and Q3
    are the sorted finite prices at the indices floor(n * 0.25) and
    floor(n * 0.75) and IQR = Q3 - Q1; it carries the index, the price (and
    the date, in row mode) and the tag [inferior] below the lower fence,
    [superior] otherwise.  On 1, 2, 3, 4, 5, 100 the only outlier is 100 at
    index 5, tagged [superior]. *)
Theorem outliers_by_iqr_rule :
  (forall (data : series) (o : Outlier),
      let prices := pricesOf data in
      let lower := fst (outlier_fences prices) in
      let upper := snd (outlier_fences prices) in
      In o (detectOutliers data) <->
      exists i p,
        nth_error prices i = Some p /\
        (p <? lower) || (p >? upper) = true /\
        o = {| o_index := i; o_date := row_date data i; o_price := p;
               o_type := if p <? lower then inferior else superior |}) /\
  detectOutliers (Numeric [1; 2; 3; 4; 5; 100]%float)
  = [ {| o_index := 5; o_date := None; o_price := 100%float; o_type := superior |} ].
Proof.
  split.
  - intros data o prices lower upper. unfold lower, upper, prices.
    rewrite <- (detectOutliers_fences data). cbn [fst snd].
    apply detectOutliers_spec.
  - apply detectOutliers_example.
Qed.

End BinaryExamples.

(** ** Evaluations with the reference host *)

Section Reference.

#[local] Existing Instance RefLibm.libm.
Local Open Scope js_scope.

Lemma ref_pow_square (x : float) : libm_pow RefLibm.libm x 2 = (x * x)%float.
Proof. reflexivity. Qed.

Lemma ref_pow_square_sign (x : float) : nonneg_or_nan (libm_pow RefLibm.libm x 2).
Proof. rewrite ref_pow_square. apply nonneg_mul_self. Qed.

Lemma ref_exp_range (x : float) :
  nonpos_or_nan x -> unit_or_nan (libm_exp RefLibm.libm x).
Proof.
  intros Hx. cbn [libm_exp RefLibm.libm]. unfold RefLibm.ref_exp.
  destruct (PrimFloat.is_nan x) eqn:Hn; [left; reflexivity|].
  destruct (x <=? 0)%float eqn:Hle.
  - destruct (x <? -746)%float; [right; split; reflexivity | apply clamp_unit].
  - destruct Hx as [Hx|Hx]; congruence.
Qed.

(** The forecaster's recursion on the prices 94, 98, 100. *)
Lemma forecast_recursive_cumulative_witness :
  let dollarData := map row [94; 98; 100]%float in
  let prices := map price dollarData in
  let phi := ar_phi (fitAR1OnDiff prices) in
  let f := generateRealForecastsForStage5 dollarData in
  isFinite phi = true /\
  get (diffForecasts f) 0 = phi * (get prices 2 - get prices 1) /\
  get (diffForecasts f) 2 = phi * get (diffForecasts f) 1 /\
  get (pointForecasts f) 2 = get prices 2 + sum (firstn 3 (diffForecasts f)).
Proof.
  intros dollarData prices phi f.
  assert (Hphi : isFinite phi = true) by (vm_compute; reflexivity).
  destruct (proj1 (@forecast_recursive_cumulative RefLibm.libm) dollarData Hphi)
    as (H0 & Hstep & Hlevel).
  split; [exact Hphi|]. split; [exact H0|]. split.
  - apply (Hstep 3%nat). unfold forecastHorizon. lia.
  - apply (Hlevel 3%nat).
    + unfold forecastHorizon. lia.
    + vm_compute. reflexivity.
    + vm_compute. repeat constructor.
Defined.

(** The ranking of three candidates with criteria (10, 1), (5, 2), (7, 3). *)
Lemma model_ranking_witness :
  map (fun m : Candidate => (c_AIC m, c_rank m))
      (rankModels [candidate 10%float 1%float; candidate 5%float 2%float;
                   candidate 7%float 3%float])
  = [(5%float, Some 1%nat); (7%float, Some 2%nat); (10%float, Some 3%nat)].
Proof.
  apply (proj2 (@model_ranking RefLibm.libm)); reflexivity.
Defined.

(** The simplified recursion on 1, 2, 4, 3, 7 up to lag 3. *)
Lemma pacf_simplified_recursion_witness :
  let data := Numeric [1; 2; 4; 3; 7]%float in
  let acf := calculateACF data 3 in
  let pacf := calculatePACF data 3 in
  length pacf = 4%nat /\
  get pacf 0 = #1 /\
  get pacf 1 = get acf 1 /\
  get pacf 3 = (get acf 3 - get pacf 1 * get acf 2 - get pacf 2 * get acf 1) / #1.
Proof.
  intros data acf pacf.
  destruct (pacf_simplified_recursion data 3 ltac:(lia)) as (Hlen & H0 & H1 & Hk).
  split; [exact Hlen|]. split; [exact H0|]. split; [exact H1|].
  apply (Hk 3%nat). lia.
Defined.

(** The p-values of the diagnostics on a sample of eight residuals. *)
Lemma pvalues_unit_or_nan_witness :
  let residuals := [1; 3; 2; 5; 4; 6; 8; 7]%float in
  unit_or_nan (jb_pValue (computeJarqueBera residuals)) /\
  unit_or_nan (lb_pValue (ljungBoxTest residuals 3 0)) /\
  unit_or_nan (arch_pValue (archLMTest residuals 1)) /\
  unit_or_nan (adf_pValue (adfTest (Numeric residuals))).
Proof.
  intros residuals.
  destruct (@pvalues_unit_or_nan RefLibm.libm ref_pow_square_sign ref_exp_range)
    as (_ & Hadf & Hlb & Harch & Hjb).
  split; [apply Hjb|]. split; [apply Hlb|]. split; [apply Harch | apply Hadf].
Defined.

(** The two autocorrelation helpers at lag 2 of 1, 2, 4, 3, 7. *)
Lemma autocorrelation_helpers_agree_witness :
  let values := [1; 2; 4; 3; 7]%float in
  (centeredSumSquares values === #0) = false /\
  get (computeAutocorrelations values 3) 1 = get (calculateACF (Numeric values) 3) 2.
Proof.
  intros values.
  assert (Hden : (centeredSumSquares values === #0) = false) by (vm_compute; reflexivity).
  split; [exact Hden|].
  apply (@autocorrelation_helpers_agree RefLibm.libm values 3 2 ref_pow_square).
  - repeat constructor.
  - vm_compute. reflexivity.
  - simpl. lia.
  - lia.
  - exact Hden.
Defined.

(** Both sides of the guard of fitAR1OnDiff: two prices, and three. *)
Lemma fitAR1OnDiff_guard_witness :
  fitAR1OnDiff [1; 2]%float = AR1_all_NaN /\
  ar_phi (fitAR1OnDiff [94; 98; 100]%float) = 0.5%float /\
  length (ar_residuals (fitAR1OnDiff [94; 98; 100]%float)) = 1%nat.
Proof.
  split.
  - apply (proj1 (fitAR1OnDiff_guard [1; 2]%float)). simpl. lia.
  - destruct (proj2 (fitAR1OnDiff_guard [94; 98; 100]%float) ltac:(simpl; lia))
      as (Hphi & _ & Hlen & _).
    split; [rewrite Hphi; vm_compute; reflexivity | exact Hlen].
Defined.

(** C5, as claimed, fails on three prices: the series 0, 0, 1 has two
    differences (fewer than 3), yet the fit is numeric, with phi = 0, one
    residual 1 and sigma2 = 1. *)
Lemma fitAR1OnDiff_two_differences :
  let prices := [0; 0; 1]%float in
  let fit := fitAR1OnDiff prices in
  (length (differences prices) < 3)%nat /\
  ar_residuals fit = [1%float] /\
  ar_phi fit = 0%float /\
  ar_sigma2 fit = 1%float.
Proof. vm_compute. repeat split; lia. Qed.

(** C4, as claimed, fails on the prices 0, 1, 0, 1, 0: the clamped lag-1
    autocorrelation r is -0.49, above the zero tolerance in absolute value,
    and the coefficient returned is about -0.8173; r is negative while
    -theta / (1 + theta^2) is positive, and it is theta / (1 + theta^2) that
    agrees with r, to 1e-15. *)
Lemma fitMA1OnDiff_root_sign :
  let prices := [0; 1; 0; 1; 0]%float in
  let r := Math_max (- #0.49) (Math_min #0.49 (ma1_rho1 prices)) in
  let theta := ma_theta (fitMA1OnDiff prices) in
  (#1e-6 <=? Math_abs r) = true /\
  (r <? #0) = true /\
  (- theta / (#1 + theta * theta) >? #0) = true /\
  (Math_abs (r - theta / (#1 + theta * theta)) <? #1e-15) = true /\
  (Math_abs theta <=? #1) = true.
Proof. vm_compute. repeat split. Qed.

End Reference.

(** * Further properties *)

(** ** Lists *)

Section ListFacts.


Lemma In_firstn {A} (x : A) (n : nat) (l : list A) : In x (firstn n l) -> In x l.
Proof.
  revert l. induction n as [|n IH]; intros [|y l]; simpl; try tauto.
  intros [H|H]; [now left | right; now apply IH].
Qed.

Lemma map_const_seq {A} (c : A) (s n : nat) : map (fun _ => c) (seq s n) = repeat c n.
Proof. revert s. induction n as [|n IH]; intros s; simpl; [reflexivity | now rewrite IH]. Qed.

Lemma flat_map_nil {A B} (f : A -> list B) (l : list A) :
  (forall x, In x l -> f x = []) -> flat_map f l = [].
Proof.
  induction l as [|x l IH]; intros H; simpl; [reflexivity|].
  rewrite (H x (or_introl eq_refl)), IH; [reflexivity|].
  intros y Hy. apply H. now right.
Qed.


Lemma filter_idem {A} (f : A -> bool) (l : list A) : filter f (filter f l) = filter f l.
Proof.
  induction l as [|x l IH]; simpl; [reflexivity|].
  destruct (f x) eqn:E; simpl; [rewrite E; f_equal|]; exact IH.
Qed.

Lemma combine_seq_map {A B} (g : A -> B) (l : list A) (s : nat) :
  combine (seq s (length (map g l))) (map g l)
  = map (fun ix : nat * A => (fst ix, g (snd ix))) (combine (seq s (length l)) l).
Proof.
  revert s. induction l as [|x l IH]; intros s; simpl; [reflexivity|].
  f_equal. apply IH.
Qed.

Lemma nth_error_map_seq {A} (F : nat -> A) (s len i : nat) (x : A) :
  nth_error (map F (seq s len)) i = Some x -> (i < len)%nat /\ x = F (s + i)%nat.
Proof.
  rewrite nth_error_map, nth_error_seq.
  destruct (Nat.ltb_spec i len) as [Hi|Hi]; simpl; [|discriminate].
  intros [= <-]. split; [exact Hi | reflexivity].
Qed.

(** In a list sorted by a transitive relation that holds of every element
    with itself, an earlier element is related to a later one. *)
Lemma StronglySorted_nth_le {A} (R : A -> A -> Prop) (l : list A) (d : A) :
  StronglySorted R l -> (forall x, In x l -> R x x) ->
  forall i j, (i <= j < length l)%nat -> R (nth i l d) (nth j l d).
Proof.
  induction 1 as [|a l Hs IH Ha]; intros Hrefl i j Hij; simpl in Hij; [lia|].
  destruct i as [|i], j as [|j]; simpl; try lia.
  - apply Hrefl. now left.
  - rewrite Forall_forall in Ha. apply Ha. apply nth_In. lia.
  - apply IH; [|lia]. intros x Hx. apply Hrefl. now right.
Qed.

(** The three positions read in the sorted array. *)
Lemma quartile_positions (n : nat) :
  (1 <= n)%nat -> (n / 4 <= n / 2)%nat /\ (n / 2 <= 3 * n / 4)%nat /\ (3 * n / 4 < n)%nat.
Proof.
  intros Hn.
  pose proof (Nat.div_mod_eq n 4). pose proof (Nat.mod_upper_bound n 4 ltac:(lia)).
  pose proof (Nat.div_mod_eq n 2). pose proof (Nat.mod_upper_bound n 2 ltac:(lia)).
  pose proof (Nat.div_mod_eq (3 * n) 4). pose proof (Nat.mod_upper_bound (3 * n) 4 ltac:(lia)).
  lia.
Qed.

End ListFacts.

(** ** In every number system *)

Section MoreGenericProps.

Context {num : Type} `{NumOps : Num num}.
Local Open Scope js_scope.

(** X13: fitMA1OnDiff returns its all-NaN result with no residuals on fewer
    than 3 prices; on n >= 3 prices it keeps n - 1 residuals, one more than
    the n - 2 of fitAR1OnDiff on the same series. *)
Theorem fitMA1OnDiff_sample (prices : list num) :
  ((length prices < 3)%nat -> fitMA1OnDiff prices = MA1_all_NaN) /\
  ((3 <= length prices)%nat ->
   length (ma_residuals (fitMA1OnDiff prices)) = (length prices - 1)%nat /\
   length (ar_residuals (fitAR1OnDiff prices)) = (length prices - 2)%nat).
Proof.
  split.
  - intros H. unfold fitMA1OnDiff.
    destruct (Nat.ltb_spec (length prices) 3); [reflexivity | lia].
  - intros H. split; [now apply fitMA1OnDiff_residual_count|].
    destruct (fitAR1OnDiff_closed_form prices H) as (_ & _ & Hlen & _). exact Hlen.
Qed.

(** X14: fitARMA11OnDiff returns its all-NaN result with no residuals on
    fewer than 4 prices; on n >= 4 prices it keeps n - 2 residuals. *)
Theorem fitARMA11OnDiff_sample (prices : list num) :
  ((length prices < 4)%nat -> fitARMA11OnDiff prices = ARMA11_all_NaN) /\
  ((4 <= length prices)%nat ->
   length (arma_residuals (fitARMA11OnDiff prices)) = (length prices - 2)%nat).
Proof.
  split.
  - intros H. unfold fitARMA11OnDiff.
    destruct (Nat.ltb_spec (length prices) 4); [reflexivity | lia].
  - apply fitARMA11OnDiff_residual_count.
Qed.

(** Pushing at most one outlier per index keeps the indices in order. *)
Lemma flat_map_indexed_sorted {A} (f : nat * A -> list (@Outlier num)) (l : list A) (s : nat) :
  (forall i x o, In o (f (i, x)) -> f (i, x) = [o] /\ o_index o = i) ->
  StronglySorted lt (map (fun o : @Outlier num => o_index o) (flat_map f (combine (seq s (length l)) l))) /\
  Forall (fun i => s <= i < s + length l)%nat
         (map (fun o : @Outlier num => o_index o) (flat_map f (combine (seq s (length l)) l))).
Proof.
  intros Hf. revert s. induction l as [|x l IH]; intros s; simpl.
  - split; constructor.
  - destruct (IH (S s)) as [IH1 IH2].
    rewrite map_app.
    assert (Hlater : Forall (fun i => (s < i)%nat /\ (s <= i < s + S (length l))%nat)
              (map (fun o : @Outlier num => o_index o)
                   (flat_map f (combine (seq (S s) (length l)) l)))).
    { eapply Forall_impl; [|exact IH2]. simpl. intros; lia. }
    destruct (f (s, x)) as [|o os] eqn:E; simpl.
    + split; [exact IH1|]. eapply Forall_impl; [|exact Hlater]. simpl. tauto.
    + destruct (Hf s x o) as [Hone Hidx]; [rewrite E; now left|].
      rewrite E in Hone. inversion Hone; subst os. simpl. rewrite Hidx.
      split.
      * constructor; [exact IH1|]. eapply Forall_impl; [|exact Hlater]. simpl. tauto.
      * constructor; [lia|]. eapply Forall_impl; [|exact Hlater]. simpl. tauto.
Qed.

(** X5: detectOutliers reports its outliers in increasing order of index,
    no index twice, every index within the series. *)
Theorem detectOutliers_in_index_order (data : @series num) :
  let indices := map (fun o : @Outlier num => o_index o) (detectOutliers data) in
  StronglySorted lt indices /\
  Forall (fun i => (i < length (pricesOf data))%nat) indices.
Proof.
  intros indices. unfold indices, detectOutliers.
  destruct data as [[|v vs] | rows].
  - split; constructor.
  - unfold indexed.
    match goal with |- context [flat_map ?f _] =>
      destruct (flat_map_indexed_sorted f (pricesOf (Numeric (v :: vs))) 0) as [H1 H2] end.
    + intros i x o. destruct (_ || _); simpl; [|tauto].
      intros [<-|[]]. split; reflexivity.
    + split; [exact H1|]. eapply Forall_impl; [|exact H2]. simpl. intros; lia.
  - unfold indexed. cbn [pricesOf]. rewrite length_map.
    match goal with |- context [flat_map ?f _] =>
      destruct (flat_map_indexed_sorted f rows 0) as [H1 H2] end.
    + intros i x o. destruct (_ || _); simpl; [|tauto].
      intros [<-|[]]. split; reflexivity.
    + split; [exact H1|]. eapply Forall_impl; [|exact H2]. simpl. intros; lia.
Qed.

(** X6: on an array of rows detectOutliers finds the outliers it finds on
    the array of their prices, same indices, prices and types; row mode only
    adds the dates. *)
Theorem detectOutliers_modes_agree (rows : list (@Observation num)) :
  map without_date (detectOutliers (Rows rows))
  = detectOutliers (Numeric (map price rows)).
Proof.
  unfold detectOutliers. cbn [pricesOf isNumeric].
  destruct rows as [|r rows]; [reflexivity|].
  set (st := calculateDescriptiveStats (Numeric (map price (r :: rows)))).
  cbn [map]. unfold indexed.
  change (price r :: map price rows) with (map price (r :: rows)).
  rewrite combine_seq_map.
  generalize (combine (seq 0 (length (r :: rows))) (r :: rows)). intros ixs.
  induction ixs as [|[i item] ixs IH]; [reflexivity|].
  cbn [flat_map map fst snd]. rewrite map_app, IH. f_equal.
  destruct (_ || _); reflexivity.
Qed.

Lemma stats_without_finite_price (data : @series num) :
  filter isFinite (pricesOf data) = [] -> calculateDescriptiveStats data = NaN_stats.
Proof. intros H. unfold calculateDescriptiveStats. now rewrite H. Qed.

(** X4: calculateDescriptiveStats looks at the finite prices only: prices
    that are NaN or infinite change nothing, [n] counts the finite ones, and
    a series without a finite price gets the all-NaN statistics with
    [n = 0]. *)
Theorem calculateDescriptiveStats_finite_only (data : @series num) :
  let finite := filter isFinite (pricesOf data) in
  calculateDescriptiveStats data = calculateDescriptiveStats (Numeric finite) /\
  st_n (calculateDescriptiveStats data) = length finite /\
  (finite = [] -> calculateDescriptiveStats data = NaN_stats).
Proof.
  intros finite.
  assert (H : calculateDescriptiveStats (Numeric finite) = calculateDescriptiveStats data).
  { unfold calculateDescriptiveStats. cbn [pricesOf]. unfold finite.
    now rewrite filter_idem. }
  rewrite H. split; [reflexivity|]. split.
  - unfold calculateDescriptiveStats. fold finite.
    destruct finite as [|a [|b l]]; reflexivity.
  - apply stats_without_finite_price.
Qed.


(** X19: the three forecast panels show the same point forecasts:
    generateForecastGenerationForStage5 and generateInterpretationForStage5
    recompute, entry for entry, those of generateRealForecastsForStage5. *)
Theorem stage5_forecasts_agree (dollarData : list Observation) :
  fg_forecasts (generateForecastGenerationForStage5 dollarData)
  = pointForecasts (generateRealForecastsForStage5 dollarData) /\
  generateInterpretationForStage5 dollarData
  = pointForecasts (generateRealForecastsForStage5 dollarData).
Proof. split; reflexivity. Qed.

End MoreGenericProps.

(** ** More facts about binary64 *)

Module MoreFloatFacts.

Import JSFloat FloatFacts.
Local Open Scope Z_scope.

(** *** Numbers, not NaN *)

Lemma SFmul_finite_number (x y : spec_float) :
  SFfinite x -> SFfinite y -> SF64mul x y <> S754_nan.
Proof.
  destruct x as [sx|sx| |sx mx ex], y as [sy|sy| |sy my ey]; simpl;
    intros Hx Hy; try contradiction; try congruence.
  apply binary_round_aux_number. lia.
Qed.

Lemma SFadd_finite_l_number (x y : spec_float) :
  SFfinite x -> y <> S754_nan -> SF64add x y <> S754_nan.
Proof.
  destruct x as [sx|sx| |sx mx ex], y as [sy|sy| |sy my ey]; simpl;
    intros Hx Hy; try contradiction; try congruence;
    try (destruct sx, sy; simpl; congruence).
  apply binary_normalize_number.
Qed.

Lemma SFdiv_nonzero_number (x : spec_float) sy my ey :
  x <> S754_nan -> SF64div x (S754_finite sy my ey) <> S754_nan.
Proof.
  destruct x as [sx|sx| |sx mx ex]; simpl; intros Hx; try congruence.
  unfold SF64div, SFdiv.
  destruct (SFdiv_core_binary prec emax (Z.pos mx) ex (Z.pos my) ey) as [[mz ez] lz] eqn:E.
  apply binary_round_aux_number.
  unfold SFdiv_core_binary in E.
  set (m' := match _ with Z0 => _ | Zpos _ => _ | Zneg _ => _ end) in E.
  assert (Hm' : 0 <= m').
  { unfold m'. destruct (_ - _ - _); try lia. apply Z.shiftl_nonneg. lia. }
  pose proof (Z_div_mod m' (Z.pos my) ltac:(lia)) as Hdm.
  destruct (Z.div_eucl m' (Z.pos my)) as [q r]. inversion E; subst.
  destruct Hdm as [Heq Hr]. nia.
Qed.

Lemma SFsqrt_number (x : spec_float) :
  x <> S754_nan -> SFltb x (S754_zero false) = false -> SF64sqrt x <> S754_nan.
Proof.
  destruct x as [sx|sx| |sx mx ex]; simpl; intros Hx Hlt; try congruence.
  - destruct sx; [discriminate | congruence].
  - destruct sx; [discriminate|].
    unfold SF64sqrt, SFsqrt.
    destruct (SFsqrt_core_binary prec emax (Z.pos mx) ex) as [[mz ez] lz] eqn:E.
    apply binary_round_aux_number.
    unfold SFsqrt_core_binary in E.
    set (m' := match _ with Z0 => _ | Zpos _ => _ | Zneg _ => _ end) in E.
    pose proof (Z.sqrtrem_sqrt m') as Hs.
    destruct (Z.sqrtrem m') as [q r]. inversion E; subst. simpl in Hs. subst mz.
    apply Z.sqrt_nonneg.
Qed.

(** The product of two finite numbers whose exponents are moderate is finite
    and not zero. *)
Lemma SFmul_moderate sx mx ex sy my ey :
  bounded prec emax mx ex = true -> bounded prec emax my ey = true ->
  emin64 <= ex + ey -> ex + ey <= 700 ->
  exists m e, SF64mul (S754_finite sx mx ex) (S754_finite sy my ey)
              = S754_finite (xorb sx sy) m e.
Proof.
  intros Bx By Hlo Hhi. unfold SF64mul, SFmul.
  apply binary_round_aux_finite; [lia | exact Hlo |].
  destruct (canonical_facts _ _ Bx) as (_ & Dx & _).
  destruct (canonical_facts _ _ By) as (_ & Dy & _).
  pose proof (digits2_pos_bounds mx) as [_ Ux].
  pose proof (digits2_pos_bounds my) as [_ Uy].
  assert (Hx : Z.pos mx < 2 ^ prec).
  { eapply Z.lt_le_trans; [exact Ux|]. apply Z.pow_le_mono_r; lia. }
  assert (Hy : Z.pos my < 2 ^ prec).
  { eapply Z.lt_le_trans; [exact Uy|]. apply Z.pow_le_mono_r; lia. }
  assert (Hxy : Z.pos (mx * my) < 2 ^ (prec + prec)).
  { rewrite Pos2Z.inj_mul, Z.pow_add_r by (unfold prec; lia).
    apply Z.mul_lt_mono_nonneg; lia. }
  pose proof (Zdigits2_upper (Z.pos (mx * my)) (prec + prec) ltac:(lia) ltac:(unfold prec; lia)).
  unfold prec in *. lia.
Qed.

(** *** Exact conversion of integers *)

(** Rounding a canonical mantissa changes nothing. *)
Lemma binary_round_aux_exact s m e :
  bounded prec emax m e = true ->
  binary_round_aux prec emax s (Z.pos m) e loc_Exact = S754_finite s m e.
Proof.
  unfold bounded, canonical_mantissa. rewrite andb_true_iff, Z.eqb_eq, Z.leb_le.
  intros [Hc He]. unfold binary_round_aux, shr_fexp.
  change (Zdigits2 (Z.pos m)) with (Z.pos (digits2_pos m)).
  rewrite Hc, Z.sub_diag. cbn [shr shr_record_of_loc loc_of_shr_record shr_m round_nearest_even].
  change (Zdigits2 (Z.pos m)) with (Z.pos (digits2_pos m)).
  rewrite Hc, Z.sub_diag. cbn [shr shr_record_of_loc shr_m].
  destruct (Z.leb_spec e (emax - prec)); [reflexivity | lia].
Qed.

Lemma digits2_iter_xO (m d : positive) :
  Z.pos (digits2_pos (Pos.iter xO m d)) = Z.pos (digits2_pos m) + Z.pos d.
Proof.
  induction d as [|d IH] using Pos.peano_ind.
  - simpl. lia.
  - rewrite Pos.iter_succ. cbn [digits2_pos]. rewrite Pos2Z.inj_succ, IH. lia.
Qed.

(** An integer below 2^53 converts exactly. *)
Lemma Z2float_exact (p : positive) :
  Z.pos p < 2 ^ 53 ->
  exists m e, Prim2SF (Z2float (Z.pos p)) = S754_finite false m e /\
              e <= 0 /\ Z.pos m = Z.pos p * 2 ^ (- e) /\ bounded prec emax m e = true.
Proof.
  intros Hp. unfold Z2float. rewrite of_uint63_spec, Uint63.of_Z_spec.
  change Uint63.wB with (2 ^ 63). rewrite Z.mod_small by lia.
  cbn [binary_normalize]. unfold binary_round.
  pose proof (digits2_pos_bounds p) as [Hlo Hhi].
  set (d := Z.pos (digits2_pos p)) in *.
  assert (Hd : d <= 53).
  { destruct (Z.le_gt_cases d 53) as [H|H]; [exact H|]. exfalso.
    assert (2 ^ 53 <= 2 ^ (d - 1)) by (apply Z.pow_le_mono_r; lia). lia. }
  assert (Hf : fexp64 (d + 0) = d - 53).
  { unfold fexp, SpecFloat.emin, emax, prec. lia. }
  rewrite Hf. unfold shl_align.
  destruct (d - 53 - 0) as [|k|k] eqn:Ek; try lia.
  - assert (Hb : bounded prec emax p 0 = true).
    { unfold bounded, canonical_mantissa. fold d. rewrite Hf.
      apply andb_true_iff. split; [apply Z.eqb_eq; lia | reflexivity]. }
    rewrite binary_round_aux_exact by exact Hb.
    exists p, 0. repeat split; [lia | simpl; lia | exact Hb].
  - assert (Hb : bounded prec emax (Pos.iter xO p k) (d - 53) = true).
    { unfold bounded, canonical_mantissa. rewrite digits2_iter_xO. fold d.
      apply andb_true_iff. split; [apply Z.eqb_eq | apply Z.leb_le].
      - unfold fexp, SpecFloat.emin, emax, prec. lia.
      - unfold emax, prec. lia. }
    rewrite binary_round_aux_exact by exact Hb.
    exists (Pos.iter xO p k), (d - 53). repeat split; [lia | | exact Hb].
    rewrite iter_xO_value. f_equal. f_equal. lia.
Qed.

(** Conversion keeps the order of integers below 2^53. *)
Lemma Z2float_increasing (a b : Z) :
  0 <= a < b -> b < 2 ^ 53 -> PrimFloat.ltb (Z2float a) (Z2float b) = true.
Proof.
  intros [Ha Hab] Hb. rewrite ltb_spec. unfold SFltb.
  destruct b as [|q|q]; try lia.
  destruct (Z2float_exact q Hb) as (mb & eb & Eb & Hb0 & Vb & Bb). rewrite Eb.
  destruct a as [|p|p]; try lia.
  - reflexivity.
  - destruct (Z2float_exact p ltac:(lia)) as (ma & ea & Ea & Ha0 & Va & Ba). rewrite Ea.
    rewrite (SFcompare_aligned false ma ea false mb eb Ba Bb).
    unfold aligned. cbn [cond_Zopp]. rewrite !shl_align_value by lia.
    rewrite Va, Vb, <- !Z.mul_assoc, <- !Z.pow_add_r by lia.
    replace (- ea + (ea - Z.min ea eb)) with (- Z.min ea eb) by lia.
    replace (- eb + (eb - Z.min ea eb)) with (- Z.min ea eb) by lia.
    assert (0 < 2 ^ (- Z.min ea eb)) by (apply Z.pow_pos_nonneg; lia).
    replace (Z.pos p * 2 ^ (- Z.min ea eb) ?= Z.pos q * 2 ^ (- Z.min ea eb)) with Lt; [reflexivity|].
    symmetry. apply Z.compare_lt_iff. nia.
Qed.

Lemma SFnonneg_div_positive (x y : spec_float) :
  SFnonneg x -> SFltb (S754_zero false) y = true -> SFnonneg (SF64div x y).
Proof.
  intros Hx Hy.
  destruct y as [sy|sy| |sy my ey]; try discriminate.
  - destruct sy; [discriminate|].
    destruct x as [sx|sx| |sx mx ex]; simpl in *; try subst; auto.
  - destruct sy; [discriminate|]. now apply SFnonneg_div_pos.
Qed.

Local Open Scope float_scope.

(** *** NaN operands *)

Lemma ltb_nan_l (x : float) : (nan <? x)%float = false.
Proof. rewrite ltb_spec. reflexivity. Qed.

Lemma ltb_nan_r (x : float) : (x <? nan)%float = false.
Proof. rewrite ltb_spec. unfold SFltb. simpl. destruct (Prim2SF x); reflexivity. Qed.

Lemma sub_nan_l (x : float) : (nan - x)%float = nan.
Proof. apply Prim2SF_inj. rewrite sub_spec. reflexivity. Qed.

Lemma add_nan_l (x : float) : (nan + x)%float = nan.
Proof. apply Prim2SF_inj. rewrite add_spec. reflexivity. Qed.

Lemma is_nan_eq (x : float) : PrimFloat.is_nan x = true -> x = nan.
Proof. intros H. apply Prim2SF_inj. apply is_nan_spec in H. now rewrite H. Qed.

Lemma div_nan_l (x : float) : (nan / x)%float = nan.
Proof. apply Prim2SF_inj. rewrite div_spec. reflexivity. Qed.

Lemma sub_nan_r (x : float) : (x - nan)%float = nan.
Proof.
  apply Prim2SF_inj. rewrite sub_spec. change (Prim2SF nan) with S754_nan.
  destruct (Prim2SF x); reflexivity.
Qed.

(** *** Absolute values and signs *)

Lemma abs_nan (x : float) : PrimFloat.is_nan (abs x) = PrimFloat.is_nan x.
Proof.
  destruct (PrimFloat.is_nan x) eqn:E.
  - apply is_nan_spec in E. apply is_nan_spec. rewrite abs_spec, E. reflexivity.
  - apply is_nan_false in E. apply is_nan_false. rewrite abs_spec.
    destruct (Prim2SF x); simpl; congruence.
Qed.

Lemma abs_finite (x : float) : PrimFloat.is_finite (abs x) = PrimFloat.is_finite x.
Proof.
  unfold PrimFloat.is_finite, PrimFloat.is_infinity. rewrite abs_nan. f_equal. f_equal.
  rewrite !FloatAxioms.eqb_spec, !abs_spec.
  destruct (Prim2SF x); reflexivity.
Qed.

(** A number at most a finite bound in absolute value is finite. *)
Lemma leb_abs_finite (x b : float) :
  PrimFloat.is_finite b = true -> (abs x <=? b) = true -> PrimFloat.is_finite x = true.
Proof.
  intros Hb Hle. rewrite <- abs_finite.
  apply is_finite_spec in Hb. rewrite leb_spec, abs_spec in Hle.
  unfold PrimFloat.is_finite, PrimFloat.is_infinity.
  rewrite negb_true_iff, orb_false_iff. split.
  - apply is_nan_false. rewrite abs_spec. intros E. rewrite E in Hle. discriminate.
  - rewrite FloatAxioms.eqb_spec, !abs_spec.
    destruct (Prim2SF x) as [s|s| |s m e]; simpl in *; try reflexivity.
    destruct (Prim2SF b) as [sb|sb| |sb mb eb]; simpl in *; try contradiction; discriminate.
Qed.

Lemma js_sign_large (x b : float) :
  (0 <? b) = true -> (b <? abs x) = true -> js_sign x = 1 \/ js_sign x = (-1).
Proof.
  intros Hb Hx. unfold js_sign.
  destruct (ltb_not_nan _ _ Hx) as [_ Hn]. rewrite abs_nan in Hn. rewrite Hn.
  destruct (0 <? x) eqn:H0; [now left|].
  destruct (x <? 0) eqn:H1; [now right|]. exfalso.
  rewrite ltb_spec in Hb, Hx, H0, H1. rewrite abs_spec in Hx. rewrite Prim2SF_zero in *.
  apply is_nan_false in Hn.
  destruct (Prim2SF x) as [s|s| |s m e]; try congruence;
    destruct (Prim2SF b) as [sb|sb| |sb mb eb]; simpl in *;
    try destruct s; try destruct sb; simpl in *; try discriminate.
Qed.

Lemma add_zero_same (x : float) :
  PrimFloat.is_nan x = false -> (x + 0 =? x)%float = true.
Proof.
  rewrite is_nan_false, FloatAxioms.eqb_spec, add_spec, Prim2SF_zero. intros Hx.
  destruct (Prim2SF x) as [s|s| |s m e] eqn:E; try congruence.
  - destruct s; reflexivity.
  - simpl. unfold SFeqb. now rewrite SFcompare_refl.
  - simpl. unfold SFeqb. now rewrite SFcompare_refl.
Qed.

(** *** Order and exponents *)

Lemma ltb_asym (x y : float) : (x <? y) = true -> (y <? x) = false.
Proof.
  rewrite !ltb_spec. unfold SFltb. rewrite (SFcompare_antisym (Prim2SF x) (Prim2SF y)).
  destruct (SFcompare (Prim2SF x) (Prim2SF y)) as [[| |]|]; simpl; congruence.
Qed.

(** The exponent of a number between [-b] and [b]; of one not below [c] in
    absolute value. *)
Lemma exponent_upper (x b : float) mb eb :
  Prim2SF b = S754_finite false mb eb ->
  PrimFloat.is_nan x = false -> (b <? x) = false -> (x <? - b) = false ->
  match Prim2SF x with
  | S754_zero _ => True
  | S754_finite _ m e => (e <= eb)%Z
  | _ => False
  end.
Proof.
  intros Hb Hn. apply is_nan_false in Hn.
  rewrite !ltb_spec, opp_spec, Hb. unfold SFltb.
  destruct (Prim2SF x) as [s|s| |s m e]; simpl; try congruence; auto.
  - destruct s; simpl; congruence.
  - destruct s; simpl.
    + intros _. destruct (Z.compare_spec e eb); try lia; discriminate.
    + destruct (Z.compare_spec eb e); try lia; discriminate.
Qed.

Lemma exponent_lower (x c : float) mc ec :
  Prim2SF c = S754_finite false mc ec ->
  PrimFloat.is_nan x = false -> (abs x <? c) = false ->
  match Prim2SF x with
  | S754_finite _ m e => (ec <= e)%Z
  | S754_infinity _ => True
  | _ => False
  end.
Proof.
  intros Hc Hn. apply is_nan_false in Hn.
  rewrite ltb_spec, abs_spec, Hc. unfold SFltb.
  destruct (Prim2SF x) as [s|s| |s m e]; simpl; try congruence; auto.
  destruct (Z.compare_spec e ec); try lia; discriminate.
Qed.

(** [Math.max(-b, Math.min(b, x))] stays between [-b] and [b]. *)
Lemma clamp_between (b x : float) :
  PrimFloat.is_nan b = false -> PrimFloat.is_nan x = false ->
  PrimFloat.get_sign b = false -> PrimFloat.get_sign (- b) = true ->
  (b <? - b) = false ->
  let r := js_max (- b) (js_min b x) in
  PrimFloat.is_nan r = false /\ (b <? r) = false /\ (r <? - b) = false.
Proof.
  intros Hb Hx Hs Hs' Hbb.
  assert (Hnb : PrimFloat.is_nan (- b) = false).
  { apply is_nan_false. rewrite opp_spec. apply is_nan_false in Hb.
    destruct (Prim2SF b); simpl; congruence. }
  assert (Hirr : forall y, (y <? y) = false).
  { intros y. destruct (y <? y) eqn:E; [|reflexivity].
    pose proof (ltb_asym _ _ E). congruence. }
  assert (H1 : PrimFloat.is_nan (js_min b x) = false /\ (b <? js_min b x) = false).
  { unfold js_min. rewrite Hb, Hx, Hs. cbn [orb].
    destruct (b <? x) eqn:E1; [split; [exact Hb | apply Hirr]|].
    destruct (x <? b); split; assumption. }
  destruct H1 as [Hn1 Hu1]. set (r1 := js_min b x) in *.
  cbv zeta. unfold js_max. rewrite Hnb, Hn1, Hs'. cbn [orb].
  destruct (- b <? r1) eqn:E1.
  - repeat split; try assumption. now apply ltb_asym.
  - destruct (r1 <? - b) eqn:E2.
    + repeat split; [exact Hnb | exact Hbb | apply Hirr].
    + repeat split; assumption.
Qed.

Lemma Z2float_finite (z : Z) : (0 <= z < 2 ^ 53)%Z -> PrimFloat.is_finite (Z2float z) = true.
Proof.
  intros [H0 H]. destruct z as [|p|p]; try lia; [reflexivity|].
  destruct (Z2float_exact p H) as (m & e & E & _).
  unfold PrimFloat.is_finite, PrimFloat.is_infinity, PrimFloat.is_nan.
  rewrite !FloatAxioms.eqb_spec, abs_spec, E. simpl.
  unfold SFeqb. rewrite SFcompare_refl by discriminate. reflexivity.
Qed.

Lemma nonneg_div_positive (x a b : float) :
  nonneg_or_nan x ->
  PrimFloat.is_finite a = true -> PrimFloat.is_finite b = true -> (b <? a) = true ->
  nonneg_or_nan (x / (a - b)).
Proof.
  intros Hx Ha Hb Hlt. rewrite nonneg_or_nan_spec in *. rewrite div_spec.
  apply SFnonneg_div_positive; [exact Hx|].
  rewrite <- Prim2SF_zero, <- ltb_spec.
  rewrite sub_positive by assumption. exact Hlt.
Qed.

(** *** The order of binary64 *)

Lemma SFleb_trans (x y z : spec_float) :
  SFleb x y = true -> SFleb y z = true -> SFleb x z = true.
Proof.
  unfold SFleb.
  destruct x as [sx|sx| |sx mx ex], y as [sy|sy| |sy my ey], z as [sz|sz| |sz mz ez];
    simpl; try discriminate; try reflexivity;
    try (destruct sx; simpl; try discriminate; try reflexivity);
    try (destruct sy; simpl; try discriminate; try reflexivity);
    try (destruct sz; simpl; try discriminate; try reflexivity).
  all: change (Pos.compare_cont Eq) with Pos.compare.
  all: destruct (Z.compare_spec ex ey); try discriminate;
       destruct (Z.compare_spec ey ez); try discriminate;
       destruct (Z.compare_spec ex ez); try reflexivity; try lia; subst;
       destruct (Pos.compare_spec mx my); try discriminate;
       destruct (Pos.compare_spec my mz); try discriminate;
       destruct (Pos.compare_spec mx mz); try reflexivity; try lia.
Qed.

Lemma leb_trans (x y z : float) :
  (x <=? y) = true -> (y <=? z) = true -> (x <=? z) = true.
Proof. rewrite !leb_spec. apply SFleb_trans. Qed.

Lemma leb_refl (x : float) : PrimFloat.is_nan x = false -> (x <=? x) = true.
Proof.
  rewrite is_nan_false, leb_spec. intros H. unfold SFleb. now rewrite SFcompare_refl.
Qed.

Lemma js_min_below (a b : float) :
  PrimFloat.is_nan a = false -> PrimFloat.is_nan b = false ->
  PrimFloat.is_nan (js_min a b) = false /\
  (js_min a b <=? a) = true /\ (js_min a b <=? b) = true.
Proof.
  intros Ha Hb. unfold js_min. rewrite Ha, Hb. cbn [orb].
  destruct (a <? b) eqn:E1.
  - repeat split; [exact Ha | now apply leb_refl | now apply ltb_leb].
  - destruct (b <? a) eqn:E2.
    + repeat split; [exact Hb | now apply ltb_leb | now apply leb_refl].
    + destruct (get_sign a); repeat split;
        auto using leb_refl, not_ltb_leb.
Qed.

Lemma js_max_above (a b : float) :
  PrimFloat.is_nan a = false -> PrimFloat.is_nan b = false ->
  PrimFloat.is_nan (js_max a b) = false /\
  (a <=? js_max a b) = true /\ (b <=? js_max a b) = true.
Proof.
  intros Ha Hb. unfold js_max. rewrite Ha, Hb. cbn [orb].
  destruct (a <? b) eqn:E1.
  - repeat split; [exact Hb | now apply ltb_leb | now apply leb_refl].
  - destruct (b <? a) eqn:E2.
    + repeat split; [exact Ha | now apply leb_refl | now apply ltb_leb].
    + destruct (get_sign a); repeat split;
        auto using leb_refl, not_ltb_leb.
Qed.

Lemma fold_min_below (l : list float) (acc : float) :
  Forall (fun v => PrimFloat.is_nan v = false) l -> PrimFloat.is_nan acc = false ->
  PrimFloat.is_nan (fold_left js_min l acc) = false /\
  (fold_left js_min l acc <=? acc) = true /\
  (forall x, In x l -> (fold_left js_min l acc <=? x) = true).
Proof.
  intros Hl. revert acc. induction Hl as [|v l Hv Hl IH]; intros acc Hacc; simpl.
  - repeat split; [exact Hacc | now apply leb_refl | tauto].
  - destruct (js_min_below acc v Hacc Hv) as (Hn & H1 & H2).
    destruct (IH _ Hn) as (Hn' & H1' & H2').
    repeat split; [exact Hn' | eapply leb_trans; eassumption |].
    intros x [<-|Hx]; [eapply leb_trans; eassumption | now apply H2'].
Qed.

Lemma fold_max_above (l : list float) (acc : float) :
  Forall (fun v => PrimFloat.is_nan v = false) l -> PrimFloat.is_nan acc = false ->
  PrimFloat.is_nan (fold_left js_max l acc) = false /\
  (acc <=? fold_left js_max l acc) = true /\
  (forall x, In x l -> (x <=? fold_left js_max l acc) = true).
Proof.
  intros Hl. revert acc. induction Hl as [|v l Hv Hl IH]; intros acc Hacc; simpl.
  - repeat split; [exact Hacc | now apply leb_refl | tauto].
  - destruct (js_max_above acc v Hacc Hv) as (Hn & H1 & H2).
    destruct (IH _ Hn) as (Hn' & H1' & H2').
    repeat split; [exact Hn' | eapply leb_trans; eassumption |].
    intros x [<-|Hx]; [eapply leb_trans; eassumption | now apply H2'].
Qed.

(** *** Numbers that are not finite *)

Lemma is_finite_SF (x : float) :
  PrimFloat.is_finite x
  = match Prim2SF x with S754_nan | S754_infinity _ => false | _ => true end.
Proof.
  unfold PrimFloat.is_finite, PrimFloat.is_infinity.
  destruct (PrimFloat.is_nan x) eqn:Hn.
  - apply is_nan_spec in Hn. now rewrite Hn.
  - apply is_nan_false in Hn. cbn [orb].
    rewrite FloatAxioms.eqb_spec, abs_spec.
    destruct (Prim2SF x) as [s|s| |s m e]; simpl; try reflexivity; congruence.
Qed.

Lemma mul_not_finite (a b : float) :
  PrimFloat.is_finite a = false -> PrimFloat.is_finite (a * b) = false.
Proof.
  rewrite !is_finite_SF, mul_spec.
  destruct (Prim2SF a) as [sa|sa| |sa ma ea]; try discriminate; intros _;
    destruct (Prim2SF b) as [sb|sb| |sb mb eb]; reflexivity.
Qed.

Lemma sub_not_finite (a b : float) :
  PrimFloat.is_finite a = false -> PrimFloat.is_finite (a - b) = false.
Proof.
  rewrite !is_finite_SF, sub_spec.
  destruct (Prim2SF a) as [sa|sa| |sa ma ea]; try discriminate; intros _;
    destruct (Prim2SF b) as [sb|sb| |sb mb eb]; try reflexivity;
    destruct sa, sb; reflexivity.
Qed.

End MoreFloatFacts.

(** ** More of the engine on binary64 *)

Import MoreFloatFacts.

Section MoreBinaryProps.

Context {L : Libm}.
Local Open Scope js_scope.

(** *** Outliers *)

(** X7: detectOutliers never reports a NaN price, and a series without a
    finite price has no outliers at all: the quartiles are NaN then and
    every comparison with the fences fails. *)
Theorem detectOutliers_never_NaN (data : @series float) :
  (forall o, In o (detectOutliers data) -> PrimFloat.is_nan (o_price o) = false) /\
  (filter isFinite (pricesOf data) = [] -> detectOutliers data = []).
Proof.
  split.
  - intros o Ho. apply detectOutliers_spec in Ho.
    destruct Ho as (i & p & _ & Hf & ->). cbn [o_price].
    apply orb_true_iff in Hf. destruct Hf as [Hf|Hf]; apply ltb_not_nan in Hf; tauto.
  - intros Hnone. unfold detectOutliers.
    assert (Hst : calculateDescriptiveStats (Numeric (pricesOf data)) = NaN_stats).
    { apply stats_without_finite_price. exact Hnone. }
    rewrite Hst. cbn [st_q1 st_q3 NaN_stats NaN float_Num nsub nadd nmul nltb].
    rewrite !sub_nan_l, add_nan_l.
    destruct data as [[|v vs] | rows]; [reflexivity| |];
      apply flat_map_nil; intros [i x] _; now rewrite ltb_nan_l, ltb_nan_r.
Qed.

(** *** The order of the statistics *)

(** The finite prices sorted by [(a, b) => a - b] are in ascending order. *)
Lemma sorted_prices_ascending (prices : list float) :
  Forall (fun v => PrimFloat.is_finite v = true) prices ->
  StronglySorted (fun a b => (a <=? b)%float = true) (Array_sort (fun a b => a - b) prices).
Proof.
  intros Hfin. apply Sorted_StronglySorted.
  - intros x y z. apply leb_trans.
  - apply (Array_sort_sorted (fun a b : float => a - b)
             (fun v => PrimFloat.is_finite v = true)).
    + intros a b Ha Hb H. cbn [nltb nsub lit float_Num] in H.
      change (js_lit 0) with 0%float in H.
      rewrite sub_positive in H by assumption. now apply ltb_leb.
    + intros a b Ha Hb H. cbn [nltb nsub lit float_Num] in H.
      change (js_lit 0) with 0%float in H.
      rewrite sub_positive in H by assumption.
      apply not_ltb_leb; auto using is_finite_not_nan.
    + exact Hfin.
Qed.

(** On every array of fewer than 4096 elements the index of the median of
    an odd number of prices is the integer quotient n / 2. *)
Lemma median_index (n : nat) :
  (n < 4096)%nat -> to_index (Math_floor (of_nat n / #2) : float) = Some (n / 2)%nat.
Proof.
  intros Hn.
  assert (Hall : forallb (fun k =>
                   match to_index (Math_floor (of_nat k / #2) : float) with
                   | Some i => Nat.eqb i (k / 2)
                   | None => false
                   end) (seq 0 4096) = true) by (vm_compute; reflexivity).
  rewrite forallb_forall in Hall. specialize (Hall n).
  assert (Hin : In n (seq 0 4096)) by (apply in_seq; lia).
  specialize (Hall Hin).
  destruct (to_index (Math_floor (of_nat n / #2) : float)) as [i|]; [|discriminate].
  apply Nat.eqb_eq in Hall. now subst.
Qed.

(** X21: for a series with at least 1 and fewer than 4096 finite prices the
    statistics of calculateDescriptiveStats are in order on binary64:
    min <= q1 <= q3 <= max, both quartiles are prices of the series (there
    is no interpolation), and for an odd number of finite prices the median
    lies between the quartiles. *)
Theorem statistics_ordered (data : @series float) :
  let st := calculateDescriptiveStats data in
  (1 <= st_n st < 4096)%nat ->
  (In (st_q1 st) (pricesOf data) /\ In (st_q3 st) (pricesOf data)) /\
  (st_min st <=? st_q1 st) = true /\
  (st_q1 st <=? st_q3 st) = true /\
  (st_q3 st <=? st_max st) = true /\
  (Nat.odd (st_n st) = true ->
   (st_q1 st <=? st_median st) = true /\ (st_median st <=? st_q3 st) = true).
Proof.
  intros st.
  set (finite := filter isFinite (pricesOf data)).
  assert (Hfin : Forall (fun v => PrimFloat.is_finite v = true) finite).
  { apply Forall_forall. intros x Hx. apply filter_In in Hx. apply Hx. }
  assert (Hsub : forall x, In x finite -> In x (pricesOf data)).
  { intros x Hx. apply filter_In in Hx. apply Hx. }
  assert (Hn : st_n st = length finite).
  { unfold st, calculateDescriptiveStats. fold finite.
    destruct finite as [|a [|b l]]; reflexivity. }
  rewrite Hn. intros [Hn1 Hn2].
  set (sorted := Array_sort (fun a b : float => a - b) finite).
  pose proof (sorted_prices_ascending finite Hfin) as Hs. fold sorted in Hs.
  pose proof (Array_sort_perm (fun a b : float => a - b) finite) as Hp. fold sorted in Hp.
  assert (Hlen : length sorted = length finite) by (apply Permutation_length; exact Hp).
  assert (Hin : forall i, (i < length finite)%nat -> In (get sorted i) finite).
  { intros i Hi. eapply Permutation_in; [exact Hp|]. apply nth_In. lia. }
  assert (Hrefl : forall x, In x sorted -> (x <=? x)%float = true).
  { intros x Hx. apply leb_refl, is_finite_not_nan.
    rewrite Forall_forall in Hfin. apply Hfin. eapply Permutation_in; [exact Hp | exact Hx]. }
  assert (Hord : forall i j, (i <= j < length finite)%nat ->
                             (get sorted i <=? get sorted j)%float = true).
  { intros i j Hij. apply (StronglySorted_nth_le _ sorted nan Hs Hrefl). lia. }
  destruct (quartile_indices (length finite) Hn2) as [Hi1 Hi3].
  pose proof (median_index (length finite) Hn2) as Him.
  assert (Hq : st_q1 st = get sorted (length finite / 4) /\
               st_q3 st = get sorted (3 * length finite / 4) /\
               (Nat.odd (length finite) = true -> st_median st = get sorted (length finite / 2)) /\
               (forall x, In x finite -> (st_min st <=? x)%float = true) /\
               (forall x, In x finite -> (x <=? st_max st)%float = true)).
  { destruct (stats_quartiles (pricesOf data)) as [H1 H3]. cbv zeta in H1, H3.
    fold finite in H1, H3. fold sorted in H1, H3.
    assert (Hsame : calculateDescriptiveStats (Numeric (pricesOf data)) = st).
    { unfold st, calculateDescriptiveStats. reflexivity. }
    rewrite Hsame in H1, H3.
    unfold get_at in H1, H3. rewrite Hi1 in H1. rewrite Hi3 in H3.
    split; [exact H1|]. split; [exact H3|].
    unfold st, calculateDescriptiveStats. fold finite.
    destruct finite as [|a [|b l]] eqn:Ef; [simpl in Hn1; lia | |].
    - cbn [st_median st_min st_max]. split; [reflexivity|].
      assert (Ha : PrimFloat.is_nan a = false).
      { apply is_finite_not_nan. now inversion Hfin. }
      split; intros x [<-|[]]; now apply leb_refl.
    - cbn [st_median st_min st_max]. fold sorted. split.
      + intros Hodd. rewrite <- Nat.negb_odd, Hodd. cbn [negb].
        unfold get_at. now rewrite Him.
      + assert (Hnn : Forall (fun v => PrimFloat.is_nan v = false) (a :: b :: l)).
        { eapply Forall_impl; [|exact Hfin]. intros v. apply is_finite_not_nan. }
        split; intros x Hx.
        * apply (fold_min_below (a :: b :: l) infinity Hnn eq_refl). exact Hx.
        * apply (fold_max_above (a :: b :: l) (- infinity)%float Hnn eq_refl). exact Hx. }
  destruct Hq as (-> & -> & Hmed & Hmin & Hmax).
  destruct (quartile_positions (length finite) Hn1) as (H4 & H2 & H3).
  repeat split.
  - apply Hsub, Hin. lia.
  - apply Hsub, Hin. lia.
  - apply Hmin, Hin. lia.
  - apply Hord. lia.
  - apply Hmax, Hin. lia.
  - rewrite (Hmed H). apply Hord. lia.
  - rewrite (Hmed H). apply Hord. lia.
Qed.

(** *** Skewness and kurtosis of small samples *)

(** The bias corrections of the two shape statistics divide by zero on two
    values (both) and on three (the kurtosis). *)
Lemma shape_factors (data : list float) (mean stdDev : float) :
  negb (isFinite stdDev) || (stdDev === #0) = false ->
  (length data = 2%nat -> isFinite (calculateSkewness data mean stdDev) = false) /\
  (length data = 2%nat \/ length data = 3%nat ->
   isFinite (calculateKurtosis data mean stdDev) = false).
Proof.
  intros Hg. unfold calculateSkewness, calculateKurtosis. rewrite Hg. split.
  - intros ->. cbn [nmul ndiv nsub isFinite float_Num].
    apply mul_not_finite. reflexivity.
  - intros Hn. cbn [nmul ndiv nsub nadd isFinite float_Num].
    apply sub_not_finite, mul_not_finite.
    destruct Hn as [-> | ->]; reflexivity.
Qed.

(** X22: the bias corrections of calculateSkewness and calculateKurtosis
    divide by zero on small samples.  Unless the standard deviation is 0 or
    not finite, in which case both are 0, the skewness of exactly two
    finite prices and the kurtosis of two or three are never finite numbers
    (they are NaN or an infinity), whatever the host's Math.pow returns. *)
Theorem shape_of_small_samples (data : @series float) :
  let st := calculateDescriptiveStats data in
  let flat := negb (isFinite (st_stdDev st)) || (st_stdDev st === #0) in
  ((2 <= st_n st)%nat -> flat = true -> st_skewness st = #0 /\ st_kurtosis st = #0) /\
  (st_n st = 2%nat -> flat = false -> isFinite (st_skewness st) = false) /\
  (st_n st = 2%nat \/ st_n st = 3%nat -> flat = false -> isFinite (st_kurtosis st) = false).
Proof.
  intros st flat. unfold flat, st, calculateDescriptiveStats.
  destruct (filter isFinite (pricesOf data)) as [|a [|b l]] eqn:E.
  - cbn [st_n]. repeat split; intros; lia.
  - cbn [st_n]. repeat split; intros; lia.
  - cbn [st_n st_stdDev st_skewness st_kurtosis].
    set (prices := a :: b :: l).
    set (mean := sum prices / of_nat (length prices)).
    set (stdDev := Math_sqrt _).
    split; [|split].
    + intros _ Hg. unfold calculateSkewness, calculateKurtosis. rewrite Hg.
      split; reflexivity.
    + intros Hn Hg. now apply (shape_factors prices mean stdDev Hg).
    + intros Hn Hg. now apply (shape_factors prices mean stdDev Hg).
Qed.

(** *** Test statistics *)

Lemma of_nat_Z2float (n : nat) : @of_nat float (float_Num L) n = Z2float (Z.of_nat n).
Proof. reflexivity. Qed.

Lemma js_max0_nonneg (x : float) : nonneg_or_nan (js_max 0 x).
Proof.
  unfold js_max. change (PrimFloat.is_nan 0) with false. cbn [orb].
  destruct (PrimFloat.is_nan x) eqn:Hx; [now left|].
  destruct (0 <? x)%float eqn:E; [right; now apply ltb_leb|].
  destruct (x <? 0)%float; [right; reflexivity|].
  change (get_sign 0) with false. right. reflexivity.
Qed.

Lemma nonneg_lit (q : Q) : (0 <=? js_lit q)%float = true -> nonneg_or_nan (js_lit q).
Proof. intros H. now right. Qed.

(** X12: no statistic of the three residual tests is negative: the
    Jarque-Bera statistic (when the host's [Math.pow(x, 2)] is never
    negative), the Ljung-Box Q (below 2^32 residuals) and the ARCH LM
    statistic are each NaN or at least zero. *)
Theorem statistics_never_negative :
  (forall x : float, nonneg_or_nan (libm_pow L x 2)) ->
  (forall values : list float, nonneg_or_nan (jb (computeJarqueBera values))) /\
  (forall (residuals : list float) (m p : nat),
      (Z.of_nat (length residuals) < 2 ^ 32)%Z ->
      nonneg_or_nan (lb_Q (ljungBoxTest residuals m p))) /\
  (forall (residuals : list float) (m : nat),
      nonneg_or_nan (arch_LM (archLMTest residuals m))).
Proof.
  intros Hpow. split; [|split].
  - intros values. unfold computeJarqueBera.
    destruct (Nat.ltb _ _); cbn [jb]; [now left|].
    apply nonneg_mul.
    + apply nonneg_div_pos; [apply nonneg_of_nat | eapply positive_finite_lit; reflexivity].
    + apply nonneg_add; [apply nonneg_mul_self|].
      apply nonneg_div_pos; [apply Hpow | eapply positive_finite_lit; reflexivity].
  - intros residuals m p Hsize. unfold ljungBoxTest.
    destruct (Nat.ltb_spec (length residuals) (m + 1)) as [Hlt|Hge]; cbn [lb_Q]; [now left|].
    apply nonneg_mul.
    + apply (fold_left_invariant nonneg_or_nan).
      * intros Q k Hk HQ. apply in_seq in Hk.
        apply nonneg_add; [exact HQ|].
        rewrite !of_nat_Z2float.
        apply nonneg_div_positive; [apply nonneg_mul_self | | |].
        -- apply Z2float_finite. lia.
        -- apply Z2float_finite. lia.
        -- apply Z2float_increasing; lia.
      * now right.
    + apply nonneg_mul; [apply nonneg_of_nat|].
      apply nonneg_add; [apply nonneg_of_nat | now right].
  - intros residuals m. unfold archLMTest.
    destruct (Nat.ltb _ _); cbn [arch_LM]; [now left|].
    apply nonneg_mul; [apply nonneg_of_nat | apply js_max0_nonneg].
Qed.

(** *** The moment fitters *)

Lemma estimateTheta_clamped (rho1 : float) :
  let t := estimateThetaFromACF1 rho1 in
  PrimFloat.is_nan t = true \/ within #0.99 t.
Proof.
  cbv zeta. unfold estimateThetaFromACF1.
  set (r := Math_max _ _).
  assert (H0 : within #0.99 #0) by (split; reflexivity).
  destruct (Math_abs r <? _); [now right|].
  destruct (_ - _ <? #0); [now right|].
  set (theta := if _ <=? #1 then _ else _).
  destruct (Math_abs theta >? #0.99) eqn:Hbig.
  - right. cbn [Math_sign float_Num nmul].
    set (b := #0.99) in *.
    assert (Hpos : (0 <? b)%float = true) by reflexivity.
    destruct (js_sign_large theta b Hpos Hbig) as [-> | ->]; split; reflexivity.
  - destruct (PrimFloat.is_nan theta) eqn:Hn; [now left|]. right.
    assert (Hle : (abs theta <=? #0.99)%float = true).
    { apply not_ltb_leb; [reflexivity | now rewrite abs_nan | exact Hbig]. }
    split; [|exact Hle]. eapply leb_abs_finite; [|exact Hle]. reflexivity.
Qed.

Lemma theta_roots_numbers (r : float) :
  PrimFloat.is_nan r = false ->
  (#0.49 <? r) = false -> (r <? - #0.49) = false ->
  (Math_abs r <? #1e-6) = false ->
  (#1 - #4 * r * r <? #0) = false ->
  PrimFloat.is_nan ((#1 - Math_sqrt (#1 - #4 * r * r)) / (#2 * r)) = false /\
  PrimFloat.is_nan ((#1 + Math_sqrt (#1 - #4 * r * r)) / (#2 * r)) = false.
Proof.
  intros Hn Hu Hl Hc Hdisc.
  cbn [lit nltb nsub nadd nmul ndiv nneg Math_abs Math_sqrt float_Num] in *.
  assert (E49 : Prim2SF (js_lit 0.49) = S754_finite false 8827055269646172 (-54))
    by reflexivity.
  assert (E6 : Prim2SF (js_lit 1e-6) = S754_finite false 4722366482869645 (-72))
    by reflexivity.
  pose proof (exponent_upper r (js_lit 0.49) _ _ E49 Hn Hu Hl) as Hup.
  pose proof (exponent_lower r (js_lit 1e-6) _ _ E6 Hn Hc) as Hlo.
  pose proof (Prim2SF_valid r) as Hv.
  destruct (Prim2SF r) as [s|s| |s m e] eqn:Er; try contradiction.
  simpl in Hv.
  assert (H2 : exists m2 e2, Prim2SF (js_lit 2 * r)%float = S754_finite (xorb false s) m2 e2).
  { rewrite mul_spec, Er.
    change (Prim2SF (js_lit 2)) with (S754_finite false 4503599627370496 (-51)).
    apply SFmul_moderate; [reflexivity | exact Hv | |]; unfold SpecFloat.emin, emax, prec; lia. }
  assert (H4 : exists m4 e4, Prim2SF (js_lit 4 * r)%float = S754_finite (xorb false s) m4 e4).
  { rewrite mul_spec, Er.
    change (Prim2SF (js_lit 4)) with (S754_finite false 4503599627370496 (-50)).
    apply SFmul_moderate; [reflexivity | exact Hv | |]; unfold SpecFloat.emin, emax, prec; lia. }
  destruct H2 as (m2 & e2 & E2). destruct H4 as (m4 & e4 & E4).
  assert (Hsq : Prim2SF (js_lit 4 * r * r)%float <> S754_nan).
  { rewrite mul_spec, E4, Er. apply SFmul_finite_number; exact I. }
  assert (Hd : Prim2SF (js_lit 1 - js_lit 4 * r * r)%float <> S754_nan).
  { rewrite sub_spec. apply SFsub_finite_number; [exact I | exact Hsq]. }
  assert (Hs : Prim2SF (PrimFloat.sqrt (js_lit 1 - js_lit 4 * r * r))%float <> S754_nan).
  { rewrite sqrt_spec. apply SFsqrt_number; [exact Hd|].
    rewrite ltb_spec in Hdisc. exact Hdisc. }
  split; apply is_nan_false; rewrite div_spec, E2; apply SFdiv_nonzero_number.
  - rewrite sub_spec. apply SFsub_finite_number; [exact I | exact Hs].
  - rewrite add_spec. apply SFadd_finite_l_number; [exact I | exact Hs].
Qed.

Lemma estimateTheta_finite (rho1 : float) :
  PrimFloat.is_finite rho1 = true -> within #0.99 (estimateThetaFromACF1 rho1).
Proof.
  intros Hfin.
  destruct (estimateTheta_clamped rho1) as [Hnan | H]; [exfalso | exact H].
  revert Hnan. unfold estimateThetaFromACF1.
  set (c := #0.49).
  assert (Hc1 : PrimFloat.is_nan c = false) by reflexivity.
  assert (Hc2 : PrimFloat.get_sign c = false) by reflexivity.
  assert (Hc3 : PrimFloat.get_sign (- c)%float = true) by reflexivity.
  assert (Hc4 : (c <? - c)%float = false) by reflexivity.
  destruct (clamp_between c rho1 Hc1 (is_finite_not_nan _ Hfin) Hc2 Hc3 Hc4)
    as (Hrn & Hru & Hrl).
  unfold c in *. clear c Hc1 Hc2 Hc3 Hc4.
  cbn [Math_max Math_min nneg float_Num].
  set (r := js_max (- #0.49) (js_min #0.49 rho1)) in *.
  destruct (Math_abs r <? #1e-6) eqn:Hsmall; [discriminate|].
  destruct (#1 - #4 * r * r <? #0) eqn:Hdisc; [discriminate|].
  destruct (theta_roots_numbers r Hrn Hru Hrl Hsmall Hdisc) as [Ht1 Ht2].
  set (t1 := (#1 - Math_sqrt (#1 - #4 * r * r)) / (#2 * r)) in *.
  set (t2 := (#1 + Math_sqrt (#1 - #4 * r * r)) / (#2 * r)) in *.
  set (theta := if Math_abs t1 <=? #1 then t1 else t2).
  assert (Hth : PrimFloat.is_nan theta = false) by (unfold theta; destruct (_ <=? _); assumption).
  destruct (Math_abs theta >? #0.99) eqn:Hbig; [|congruence].
  set (b := #0.99) in *.
  assert (Hpos : (0 <? b)%float = true) by reflexivity.
  cbn [Math_sign float_Num nmul].
  destruct (js_sign_large theta b Hpos Hbig) as [-> | ->]; discriminate.
Qed.

Lemma ma1_rho1_is_finite (prices : list float) : PrimFloat.is_finite (ma1_rho1 prices) = true.
Proof.
  unfold ma1_rho1.
  destruct (Nat.ltb _ _); cbn [andb]; [|reflexivity].
  destruct (isFinite (get _ 1)) eqn:E; [exact E | reflexivity].
Qed.

(** X15: estimateThetaFromACF1 never leaves the invertible range: its
    result is NaN or within [[-0.99, 0.99]], and for a finite lag-one
    autocorrelation it is never NaN; so the theta that fitMA1OnDiff reports
    for three or more prices is always a number of that range. *)
Theorem fitMA1OnDiff_invertible (prices : list float) :
  (forall rho1 : float,
      let t := estimateThetaFromACF1 rho1 in
      PrimFloat.is_nan t = true \/ within #0.99 t) /\
  (forall rho1 : float,
      isFinite rho1 = true -> within #0.99 (estimateThetaFromACF1 rho1)) /\
  ((3 <= length prices)%nat -> within #0.99 (ma_theta (fitMA1OnDiff prices))).
Proof.
  split; [apply estimateTheta_clamped|]. split; [apply estimateTheta_finite|].
  intros Hlen. unfold fitMA1OnDiff.
  destruct (Nat.ltb_spec (length prices) 3) as [Hlt|_]; [lia|].
  cbn [ma_theta]. apply estimateTheta_finite. apply ma1_rho1_is_finite.
Qed.



(** *** The fit panel *)

(** [Math.max(0, Math.min(1, x))] is NaN or in the unit interval. *)
Lemma clamp01_unit (x : float) : unit_or_nan (js_max 0 (js_min 1 x)).
Proof.
  destruct (PrimFloat.is_nan x) eqn:Hx.
  - left. unfold js_min, js_max. rewrite Hx. reflexivity.
  - assert (H1 : PrimFloat.is_nan (js_min 1 x) = false /\ (js_min 1 x <=? 1)%float = true).
    { unfold js_min. rewrite Hx. change (PrimFloat.is_nan 1) with false. cbn [orb].
      destruct (1 <? x)%float eqn:E1; [split; reflexivity|].
      destruct (x <? 1)%float eqn:E2.
      - split; [exact Hx | now apply ltb_leb].
      - change (get_sign 1) with false. cbv iota.
        split; [exact Hx | now apply not_ltb_leb]. }
    destruct H1 as [Hn Hle]. set (r := js_min 1 x) in *.
    right. unfold js_max. rewrite Hn. change (PrimFloat.is_nan 0) with false. cbn [orb].
    destruct (0 <? r)%float eqn:E1.
    + split; [now apply ltb_leb | exact Hle].
    + destruct (r <? 0)%float; [split; reflexivity|].
      change (get_sign 0) with false. cbv iota. split; reflexivity.
Qed.

(** X17: the R2 of the fit panel is NaN or lies in [[0, 1]]; a NaN R2,
    which is what fewer than three prices give, is shown as the lowest
    level. *)
Theorem fit_metrics_R2 (dollarData : list (@Observation float)) :
  let m := generateFitMetricsForStage3 dollarData in
  unit_or_nan (fm_R2 m) /\
  (PrimFloat.is_nan (fm_R2 m) = true -> fm_level m = "Bajo"%string) /\
  ((length dollarData < 3)%nat -> PrimFloat.is_nan (fm_R2 m) = true).
Proof.
  intros m. unfold m, generateFitMetricsForStage3.
  cbn [fm_R2 fm_level Math_max Math_min float_Num]. split; [|split].
  - apply clamp01_unit.
  - intros Hn. cbn [nltb float_Num]. rewrite (is_nan_eq _ Hn), !ltb_nan_r. reflexivity.
  - intros Hlen. unfold fitAR1OnDiff. rewrite length_map.
    destruct (Nat.ltb_spec (length dollarData) 3) as [_|Hge]; [|lia].
    cbn [ar_sigma2 NaN float_Num ndiv nsub]. rewrite div_nan_l, sub_nan_r. reflexivity.
Qed.

(** *** Forecasts without a fit *)

Lemma diffForecastsFrom_NaN (phi prev : float) (count : nat) :
  isFinite phi = false -> diffForecastsFrom phi prev count = repeat NaN count.
Proof.
  intros Hphi. revert prev.
  induction count as [|c IH]; intros prev; cbn [diffForecastsFrom repeat]; [reflexivity|].
  rewrite Hphi. f_equal. apply IH.
Qed.

Lemma guarded_sum_of_NaN (l : list float) :
  Forall (fun b => b = nan) l ->
  fold_left (fun a b => a + (if isFinite b then b else #0)) l #0 = #0.
Proof.
  induction 1 as [|b l Hb _ IH]; simpl; [reflexivity|].
  subst b. exact IH.
Qed.

(** X18: when fitAR1OnDiff gives no finite phi, generateRealForecastsForStage5
    forecasts NaN differences and NaN standard errors, and every point
    forecast is the last price carried forward (NaN when the last price is
    not finite). *)
Theorem forecast_without_fit (dollarData : list (@Observation float)) :
  let prices := map price dollarData in
  let lastPrice := get prices (length prices - 1) in
  let f := generateRealForecastsForStage5 dollarData in
  isFinite (ar_phi (fitAR1OnDiff prices)) = false ->
  diffForecasts f = repeat NaN forecastHorizon /\
  seForecasts f = repeat NaN forecastHorizon /\
  pointForecasts f
  = repeat (if isFinite lastPrice then lastPrice + #0 else NaN) forecastHorizon /\
  (isFinite lastPrice = true -> (lastPrice + #0 === lastPrice) = true).
Proof.
  intros prices lastPrice f Hphi. unfold f, generateRealForecastsForStage5.
  fold prices. fold lastPrice. cbn [diffForecasts seForecasts pointForecasts].
  rewrite Hphi, (diffForecastsFrom_NaN _ _ _ Hphi), andb_false_r.
  split; [reflexivity|]. split; [|split].
  - change (isFinite (NaN : float)) with false. cbv iota. apply map_const_seq.
  - rewrite <- (map_const_seq (if isFinite lastPrice then lastPrice + #0 else NaN) 1).
    apply map_ext_in. intros h _.
    rewrite guarded_sum_of_NaN; [reflexivity|].
    apply Forall_forall. intros b Hb. apply In_firstn in Hb.
    apply repeat_spec in Hb. exact Hb.
  - intros Hfin. apply add_zero_same. now apply is_finite_not_nan.
Qed.

End MoreBinaryProps.

(** ** Facts about the date strings *)

Module DatesFacts.

Import Dates.
Local Open Scope N_scope.

Lemma In_below (n : N) (b : nat) : n < N.of_nat b -> In n (below b).
Proof.
  intros H. unfold below. apply in_map_iff. exists (N.to_nat n).
  split; [apply N2Nat.id|]. apply in_seq. lia.
Qed.

Lemma forallb_below (P : N -> bool) (b : nat) (n : N) :
  forallb P (below b) = true -> n < N.of_nat b -> P n = true.
Proof.
  intros H Hn. rewrite forallb_forall in H. apply H. now apply In_below.
Qed.

Lemma is_digit_spec (c : N) : is_digit c = true <-> 48 <= c <= 57.
Proof. unfold is_digit. rewrite andb_true_iff, !N.leb_le. tauto. Qed.

Lemma parseInt_two (d1 d2 : N) :
  is_digit d1 = true -> is_digit d2 = true ->
  parseInt [d1; d2] = 10 * (d1 - 48) + (d2 - 48) /\ parseInt [d1; d2] < 100.
Proof.
  rewrite !is_digit_spec. intros H1 H2. unfold parseInt. cbn [fold_left]. lia.
Qed.

Lemma lookup_month (key : jsstring) (mm : N) :
  lookup key monthMap = Some mm -> 1 <= mm <= 12.
Proof.
  unfold monthMap. simpl.
  repeat (destruct (jsstring_eqb key _); [intros H; inversion H; lia|]).
  discriminate.
Qed.

Lemma two_digits_shape (n : N) :
  n < 100 ->
  padStart2 (String_of n) = [48 + n / 10; 48 + n mod 10].
Proof.
  intros H.
  assert (Hall : forallb (fun n => jsstring_eqb (padStart2 (String_of n))
                                     [48 + n / 10; 48 + n mod 10]) (below 100) = true)
    by (vm_compute; reflexivity).
  pose proof (forallb_below _ 100 n Hall H) as Hn. cbv beta in Hn.
  unfold jsstring_eqb in Hn. apply andb_true_iff in Hn. destruct Hn as [Hlen Hall'].
  destruct (padStart2 (String_of n)) as [|a [|b [|c l]]]; try discriminate.
  simpl in Hall'. rewrite !andb_true_iff, !N.eqb_eq in Hall'.
  destruct Hall' as (-> & -> & _). reflexivity.
Qed.

(** [parseCustomDate] with its result folded into [iso_date]. *)
Lemma parseCustomDate_eq (s : jsstring) :
  parseCustomDate s
  = match exec_date s with
    | None => None
    | Some (g1, g2, g3) =>
        match lookup (map lower g2) monthMap with
        | None => None
        | Some mm => Some (iso_date (2000 + parseInt g3) mm (parseInt g1))
        end
    end.
Proof. reflexivity. Qed.

Lemma exec_date_groups (s g1 g2 g3 : jsstring) :
  exec_date s = Some (g1, g2, g3) ->
  exists d1 d2 l1 l2 l3 y1 y2 rest,
    skip_spaces s = d1 :: d2 :: l1 :: l2 :: l3 :: y1 :: y2 :: rest /\
    g1 = [d1; d2] /\ g2 = [l1; l2; l3] /\ g3 = [y1; y2] /\
    is_digit d1 = true /\ is_digit d2 = true /\
    is_letter l1 = true /\ is_letter l2 = true /\ is_letter l3 = true /\
    is_digit y1 = true /\ is_digit y2 = true /\ forallb is_space rest = true.
Proof.
  unfold exec_date.
  destruct (skip_spaces s) as [|d1 [|d2 [|l1 [|l2 [|l3 [|y1 [|y2 rest]]]]]]]; try discriminate.
  destruct (_ && _) eqn:Hm; [|discriminate].
  rewrite !andb_true_iff in Hm.
  destruct Hm as (((((((Hd1 & Hd2) & Hl1) & Hl2) & Hl3) & Hy1) & Hy2) & Hrest).
  intros [= <- <- <-]. exists d1, d2, l1, l2, l3, y1, y2, rest. repeat split; assumption.
Qed.

(** *** White space and letter case *)

Ltac decide_codes c :=
  repeat match goal with
         | |- context [N.eqb c ?k] =>
             replace (N.eqb c k) with false by (symmetry; apply N.eqb_neq; lia)
         | |- context [N.leb ?k c] =>
             first [ replace (N.leb k c) with false by (symmetry; apply N.leb_gt; lia)
                   | replace (N.leb k c) with true by (symmetry; apply N.leb_le; lia) ]
         | |- context [N.leb c ?k] =>
             first [ replace (N.leb c k) with false by (symmetry; apply N.leb_gt; lia)
                   | replace (N.leb c k) with true by (symmetry; apply N.leb_le; lia) ]
         end.

Lemma is_letter_spec (c : N) : is_letter c = true <-> 65 <= c <= 90 \/ 97 <= c <= 122.
Proof. unfold is_letter. rewrite orb_true_iff, !andb_true_iff, !N.leb_le. tauto. Qed.

Lemma digit_not_space (c : N) : is_digit c = true -> is_space c = false.
Proof.
  rewrite is_digit_spec. intros H. unfold is_space. decide_codes c. reflexivity.
Qed.

Lemma letter_not_space (c : N) : is_letter c = true -> is_space c = false.
Proof.
  rewrite is_letter_spec. intros [H|H]; unfold is_space; decide_codes c; reflexivity.
Qed.

Lemma space_not_digit (c : N) : is_space c = true -> is_digit c = false.
Proof.
  intros H. destruct (is_digit c) eqn:E; [|reflexivity].
  apply digit_not_space in E. congruence.
Qed.

Lemma space_not_letter (c : N) : is_space c = true -> is_letter c = false.
Proof.
  intros H. destruct (is_letter c) eqn:E; [|reflexivity].
  apply letter_not_space in E. congruence.
Qed.

Lemma skip_spaces_app_l (ws s : jsstring) :
  forallb is_space ws = true -> skip_spaces (ws ++ s) = skip_spaces s.
Proof.
  induction ws as [|c ws IH]; simpl; [reflexivity|].
  rewrite andb_true_iff. intros [Hc Hws]. rewrite Hc. now apply IH.
Qed.

Lemma skip_spaces_app_r (s ws : jsstring) :
  forallb is_space ws = true ->
  skip_spaces (s ++ ws) = match skip_spaces s with [] => [] | t => t ++ ws end.
Proof.
  intros Hws. induction s as [|c s IH]; simpl.
  - rewrite <- (app_nil_r ws) at 1. rewrite skip_spaces_app_l by exact Hws. reflexivity.
  - destruct (is_space c); [exact IH | reflexivity].
Qed.

Lemma exec_date_trailing (s ws : jsstring) :
  forallb is_space ws = true -> exec_date (s ++ ws) = exec_date s.
Proof.
  intros Hws. unfold exec_date. rewrite skip_spaces_app_r by exact Hws.
  destruct ws as [|w ws]; [destruct (skip_spaces s); [reflexivity | now rewrite app_nil_r]|].
  simpl in Hws. apply andb_true_iff in Hws. destruct Hws as [Hw Hws].
  pose proof (space_not_digit _ Hw) as Hd. pose proof (space_not_letter _ Hw) as Hl.
  destruct (skip_spaces s) as [|d1 [|d2 [|l1 [|l2 [|l3 [|y1 [|y2 rest]]]]]]];
    cbn [app]; try reflexivity;
    try (destruct ws as [|? [|? [|? [|? [|? [|? ?]]]]]];
         rewrite ?Hd, ?Hl, ?andb_false_r, ?andb_false_l; reflexivity).
  rewrite forallb_app. cbn [forallb]. rewrite Hw, Hws, !andb_true_r. reflexivity.
Qed.

Lemma lower_classes (c : N) :
  is_space (lower c) = is_space c /\ is_digit (lower c) = is_digit c /\
  is_letter (lower c) = is_letter c /\ lower (lower c) = lower c.
Proof.
  unfold lower. destruct ((65 <=? c) && (c <=? 90)) eqn:E.
  - apply andb_true_iff in E. rewrite !N.leb_le in E.
    assert (Hs : is_space c = false) by (apply letter_not_space, is_letter_spec; lia).
    assert (Hs' : is_space (c + 32) = false) by (apply letter_not_space, is_letter_spec; lia).
    rewrite Hs, Hs'. repeat split.
    + unfold is_digit. decide_codes c.
      replace (48 <=? c + 32) with true by (symmetry; apply N.leb_le; lia).
      replace (c + 32 <=? 57) with false by (symmetry; apply N.leb_gt; lia). reflexivity.
    + transitivity true; [|symmetry]; apply is_letter_spec; lia.
    + replace (65 <=? c + 32) with true by (symmetry; apply N.leb_le; lia).
      replace (c + 32 <=? 90) with false by (symmetry; apply N.leb_gt; lia). reflexivity.
  - rewrite E. repeat split.
Qed.

Lemma skip_spaces_lower (s : jsstring) :
  skip_spaces (map lower s) = map lower (skip_spaces s).
Proof.
  induction s as [|c s IH]; simpl; [reflexivity|].
  destruct (lower_classes c) as (-> & _). destruct (is_space c); [exact IH | reflexivity].
Qed.

Lemma forallb_space_lower (s : jsstring) :
  forallb is_space (map lower s) = forallb is_space s.
Proof.
  induction s as [|c s IH]; simpl; [reflexivity|].
  destruct (lower_classes c) as (-> & _). now rewrite IH.
Qed.

Lemma exec_date_lower (s : jsstring) :
  exec_date (map lower s)
  = match exec_date s with
    | Some (g1, g2, g3) => Some (g1, map lower g2, g3)
    | None => None
    end.
Proof.
  unfold exec_date. rewrite skip_spaces_lower.
  destruct (skip_spaces s) as [|d1 [|d2 [|l1 [|l2 [|l3 [|y1 [|y2 rest]]]]]]]; try reflexivity.
  cbn [map]. rewrite forallb_space_lower.
  destruct (lower_classes d1) as (_ & Hd1 & _). destruct (lower_classes d2) as (_ & Hd2 & _).
  destruct (lower_classes l1) as (_ & _ & Hl1 & _). destruct (lower_classes l2) as (_ & _ & Hl2 & _).
  destruct (lower_classes l3) as (_ & _ & Hl3 & _).
  destruct (lower_classes y1) as (_ & Hy1 & _). destruct (lower_classes y2) as (_ & Hy2 & _).
  rewrite Hd1, Hd2, Hl1, Hl2, Hl3, Hy1, Hy2.
  destruct (_ && _) eqn:Hm; [|reflexivity].
  rewrite !andb_true_iff in Hm.
  destruct Hm as (((((((D1 & D2) & _) & _) & _) & Y1) & Y2) & _).
  assert (Hsame : forall c, is_digit c = true -> lower c = c).
  { intros c Hc. apply is_digit_spec in Hc. unfold lower.
    replace (65 <=? c) with false by (symmetry; apply N.leb_gt; lia). reflexivity. }
  rewrite (Hsame d1), (Hsame d2), (Hsame y1), (Hsame y2) by assumption. reflexivity.
Qed.

(** *** Round trip with formatDateCompactEs *)

Lemma decimal_fuel (f1 f2 : nat) (n : N) :
  (N.to_nat (N.log2 n) < f1)%nat -> (N.to_nat (N.log2 n) < f2)%nat ->
  decimal f1 n = decimal f2 n.
Proof.
  revert f2 n. induction f1 as [|f1 IH]; intros f2 n H1 H2; [lia|].
  destruct f2 as [|f2]; [lia|].
  cbn [decimal]. destruct (N.ltb_spec n 10) as [Hlt|Hge]; [reflexivity|].
  assert (Hlog : N.log2 (n / 10) < N.log2 n).
  { apply N.le_lt_trans with (N.log2 (n / 2)).
    - apply N.log2_le_mono, N.div_le_compat_l. lia.
    - rewrite <- N.div2_div, N.div2_spec, N.log2_shiftr.
      assert (0 < N.log2 n) by (apply N.log2_pos; lia). lia. }
  f_equal. apply IH; lia.
Qed.

Lemma String_of_small (n : N) : n < 10 -> String_of n = [48 + n].
Proof.
  intros H. unfold String_of. cbn [decimal].
  destruct (N.ltb_spec n 10); [reflexivity | lia].
Qed.

Lemma String_of_step (n : N) :
  10 <= n -> String_of n = String_of (n / 10) ++ [48 + n mod 10].
Proof.
  intros H. unfold String_of at 1. cbn [decimal].
  destruct (N.ltb_spec n 10); [lia|]. f_equal.
  apply decimal_fuel; [|lia].
  assert (Hlog : N.log2 (n / 10) < N.log2 n).
  { apply N.le_lt_trans with (N.log2 (n / 2)).
    - apply N.log2_le_mono, N.div_le_compat_l. lia.
    - rewrite <- N.div2_div, N.div2_spec, N.log2_shiftr.
      assert (0 < N.log2 n) by (apply N.log2_pos; lia). lia. }
  lia.
Qed.

(** The last two characters of a number of at least two digits. *)
Lemma String_of_last2 (n : N) :
  10 <= n ->
  slice_last2 (String_of n) = [48 + (n / 10) mod 10; 48 + n mod 10].
Proof.
  intros H. rewrite String_of_step by exact H.
  assert (Hpre : exists pre, String_of (n / 10) = pre ++ [48 + (n / 10) mod 10]).
  { destruct (N.ltb_spec (n / 10) 10) as [Hlt|Hge].
    - exists []. rewrite String_of_small by exact Hlt. rewrite N.mod_small by exact Hlt. reflexivity.
    - exists (String_of (n / 10 / 10)). now apply String_of_step. }
  destruct Hpre as [pre ->]. rewrite <- app_assoc. cbn [app].
  unfold slice_last2. rewrite length_app. cbn [length].
  replace (length pre + 2 - 2)%nat with (length pre + 0)%nat by lia.
  rewrite skipn_app, skipn_all2 by lia.
  replace (length pre + 0 - length pre)%nat with 0%nat by lia. reflexivity.
Qed.

Lemma is_digit_of (q : N) : q < 10 -> is_digit (48 + q) = true.
Proof. intros H. apply is_digit_spec. lia. Qed.

(** The twelve month names read back as the months 1 to 12. *)
Lemma months_read_back (i : nat) (m : String.string) :
  nth_error months i = Some m ->
  exists l1 l2 l3,
    units m = [l1; l2; l3] /\
    is_letter l1 = true /\ is_letter l2 = true /\ is_letter l3 = true /\
    lookup (map lower [l1; l2; l3]) monthMap = Some (N.of_nat i + 1).
Proof.
  intros H.
  do 12 (destruct i as [|i]; [inversion H; subst m; do 3 eexists; repeat split; reflexivity|]).
  destruct i; discriminate.
Qed.

Lemma skip_spaces_split (s : jsstring) :
  exists ws, s = ws ++ skip_spaces s /\ forallb is_space ws = true.
Proof.
  induction s as [|c s (ws & E & H)]; [now exists []|]. simpl.
  destruct (is_space c) eqn:Hc.
  - exists (c :: ws). simpl. rewrite Hc, H. split; [now f_equal | reflexivity].
  - now exists [].
Qed.

Lemma year_digits (yy : N) :
  yy < 100 -> String_of (2000 + yy) = [50; 48; 48 + yy / 10; 48 + yy mod 10].
Proof.
  intros H.
  assert (Hall : forallb (fun yy => jsstring_eqb (String_of (2000 + yy))
                                      [50; 48; 48 + yy / 10; 48 + yy mod 10])
                         (below 100) = true) by (vm_compute; reflexivity).
  pose proof (forallb_below _ 100 yy Hall H) as Hy. cbv beta in Hy.
  unfold jsstring_eqb in Hy. apply andb_true_iff in Hy. destruct Hy as [Hlen Hall'].
  destruct (String_of (2000 + yy)) as [|a [|b [|c [|d [|e l]]]]]; try discriminate.
  simpl in Hall'. rewrite !andb_true_iff, !N.eqb_eq in Hall'.
  destruct Hall' as (-> & -> & -> & -> & _). reflexivity.
Qed.

Lemma two_digits_value (d1 d2 : N) :
  is_digit d1 = true -> is_digit d2 = true ->
  let n := parseInt [d1; d2] in
  n < 100 /\ 48 + n / 10 = d1 /\ 48 + n mod 10 = d2.
Proof.
  intros H1 H2 n. destruct (parseInt_two d1 d2 H1 H2) as [E Hn]. fold n in E, Hn.
  apply is_digit_spec in H1, H2.
  assert (Hq : n / 10 = d1 - 48).
  { symmetry. apply (N.div_unique n 10 (d1 - 48) (d2 - 48)); lia. }
  assert (Hr : n mod 10 = d2 - 48).
  { symmetry. apply (N.mod_unique n 10 (d1 - 48) (d2 - 48)); lia. }
  rewrite Hq, Hr. repeat split; lia.
Qed.

(** The date string written for two year digits, a month and two day digits. *)
Lemma iso_date_digits (y1 y2 d1 d2 mm : N) :
  is_digit y1 = true -> is_digit y2 = true -> is_digit d1 = true -> is_digit d2 = true ->
  iso_date (2000 + parseInt [y1; y2]) mm (parseInt [d1; d2])
  = units "20"%string ++ [y1; y2] ++ units "-"%string ++ padStart2 (String_of mm)
    ++ units "-"%string ++ [d1; d2].
Proof.
  intros Hy1 Hy2 Hd1 Hd2.
  destruct (two_digits_value y1 y2 Hy1 Hy2) as (Hy & Ey1 & Ey2).
  destruct (two_digits_value d1 d2 Hd1 Hd2) as (Hd & Ed1 & Ed2).
  unfold iso_date. rewrite (year_digits _ Hy), (two_digits_shape _ Hd).
  rewrite Ey1, Ey2, Ed1, Ed2. reflexivity.
Qed.

Lemma exec_date_core (d1 d2 l1 l2 l3 y1 y2 : N) :
  forallb is_digit [d1; d2; y1; y2] = true -> forallb is_letter [l1; l2; l3] = true ->
  exec_date [d1; d2; l1; l2; l3; y1; y2] = Some ([d1; d2], [l1; l2; l3], [y1; y2]).
Proof.
  cbn [forallb]. rewrite !andb_true_iff.
  intros (Hd1 & Hd2 & Hy1 & Hy2 & _) (Hl1 & Hl2 & Hl3 & _).
  unfold exec_date. cbn [skip_spaces]. rewrite (digit_not_space _ Hd1).
  rewrite Hd1, Hd2, Hl1, Hl2, Hl3, Hy1, Hy2. reflexivity.
Qed.

End DatesFacts.

(** ** The two date functions *)

Section DatesProps.

Import Dates DatesFacts.
Local Open Scope N_scope.

(** *** What parseCustomDate returns *)

(** X1: [parseCustomDate] accepts exactly two digits, three letters and two
    digits between white space, the three letters being, in small letters, a
    key of the month table; and what it returns is 20, the two year digits
    of the input, the month of the table in two digits (01 to 12) and the
    two day digits of the input, with a hyphen between them.  The day is
    copied, not checked: any two digits pass. *)
Theorem parseCustomDate_shape (s iso : jsstring) :
  parseCustomDate s = Some iso <->
  exists (ws1 ws2 : jsstring) (d1 d2 l1 l2 l3 y1 y2 mm : N),
    s = ws1 ++ [d1; d2; l1; l2; l3; y1; y2] ++ ws2 /\
    forallb is_space ws1 = true /\ forallb is_space ws2 = true /\
    forallb is_digit [d1; d2; y1; y2] = true /\
    forallb is_letter [l1; l2; l3] = true /\
    lookup [lower l1; lower l2; lower l3] monthMap = Some mm /\
    1 <= mm <= 12 /\
    iso = units "20"%string ++ [y1; y2] ++ units "-"%string ++ padStart2 (String_of mm)
          ++ units "-"%string ++ [d1; d2].
Proof.
  split.
  - rewrite parseCustomDate_eq.
    destruct (exec_date s) as [[[g1 g2] g3]|] eqn:E; [|discriminate].
    destruct (exec_date_groups _ _ _ _ E)
      as (d1 & d2 & l1 & l2 & l3 & y1 & y2 & rest & Hs & -> & -> & ->
          & Hd1 & Hd2 & Hl1 & Hl2 & Hl3 & Hy1 & Hy2 & Hrest).
    cbn [map].
    destruct (lookup _ monthMap) as [mm|] eqn:Hmon; [|discriminate].
    intros [= <-].
    destruct (skip_spaces_split s) as (ws1 & Hsplit & Hws1).
    exists ws1, rest, d1, d2, l1, l2, l3, y1, y2, mm.
    split; [rewrite Hsplit at 1; now rewrite Hs|].
    split; [exact Hws1|]. split; [exact Hrest|].
    split; [cbn [forallb]; now rewrite Hd1, Hd2, Hy1, Hy2|].
    split; [cbn [forallb]; now rewrite Hl1, Hl2, Hl3|].
    split; [exact Hmon|]. split; [exact (lookup_month _ _ Hmon)|].
    now apply iso_date_digits.
  - intros (ws1 & ws2 & d1 & d2 & l1 & l2 & l3 & y1 & y2 & mm
            & -> & Hws1 & Hws2 & Hd & Hl & Hmon & _ & ->).
    rewrite parseCustomDate_eq.
    assert (E : exec_date (ws1 ++ [d1; d2; l1; l2; l3; y1; y2] ++ ws2)
                = Some ([d1; d2], [l1; l2; l3], [y1; y2])).
    { rewrite app_assoc, exec_date_trailing by exact Hws2.
      unfold exec_date at 1. rewrite skip_spaces_app_l by exact Hws1.
      apply (exec_date_core d1 d2 l1 l2 l3 y1 y2 Hd Hl). }
    rewrite E. cbn [map]. rewrite Hmon. f_equal.
    cbn [forallb] in Hd. rewrite !andb_true_iff in Hd.
    destruct Hd as (Hd1 & Hd2 & Hy1 & Hy2 & _).
    now apply iso_date_digits.
Qed.

(** *** White space and letter case *)

(** X2: white space before and after the date makes no difference to
    [parseCustomDate], and neither does the case of the letters: writing
    the capital letters A to Z of the input small changes nothing. *)
Theorem parseCustomDate_trim_and_case :
  (forall ws1 s ws2 : jsstring,
      forallb is_space ws1 = true -> forallb is_space ws2 = true ->
      parseCustomDate (ws1 ++ s ++ ws2) = parseCustomDate s) /\
  (forall s : jsstring, parseCustomDate (map lower s) = parseCustomDate s).
Proof.
  split.
  - intros ws1 s ws2 H1 H2. rewrite !parseCustomDate_eq.
    assert (E : exec_date (ws1 ++ s ++ ws2) = exec_date s).
    { rewrite app_assoc, exec_date_trailing by exact H2.
      unfold exec_date. now rewrite skip_spaces_app_l. }
    now rewrite E.
  - intros s. rewrite !parseCustomDate_eq, exec_date_lower.
    destruct (exec_date s) as [[[g1 g2] g3]|]; [|reflexivity].
    assert (E : map lower (map lower g2) = map lower g2).
    { rewrite map_map. apply map_ext. intros c. apply lower_classes. }
    now rewrite E.
Qed.

(** *** Round trip with formatDateCompactEs *)

(** X3: [parseCustomDate] reads back what [formatDateCompactEs] writes for
    a date of the year 10 or later: it gives the day and the month of the
    date, in the year 2000 + (year mod 100), which is the date itself for
    the years 2000 to 2099 and a date of another century otherwise. *)
Theorem parse_format_round_trip (d : JsDate) :
  getDate d < 100 -> (getMonth d < 12)%nat -> (10 <= getFullYear d)%Z ->
  parseCustomDate (formatDateCompactEs d)
  = Some (iso_date (2000 + Z.to_N (getFullYear d) mod 100)
                   (N.of_nat (getMonth d) + 1) (getDate d)).
Proof.
  intros Hday Hmon Hyear.
  destruct (nth_error months (getMonth d)) as [m|] eqn:Em.
  2:{ apply nth_error_None in Em. simpl in Em. lia. }
  destruct (months_read_back _ _ Em) as (l1 & l2 & l3 & Hm & L1 & L2 & L3 & Hlook).
  set (y := Z.to_N (getFullYear d)).
  assert (Hy : 10 <= y) by (unfold y; lia).
  assert (Hfmt : formatDateCompactEs d
                 = [48 + getDate d / 10; 48 + getDate d mod 10; l1; l2; l3;
                    48 + (y / 10) mod 10; 48 + y mod 10]).
  { unfold formatDateCompactEs. rewrite Em, Hm, (two_digits_shape _ Hday).
    assert (Hs : String_of_Z (getFullYear d) = String_of y).
    { unfold String_of_Z, y. destruct (getFullYear d); try reflexivity. lia. }
    rewrite Hs, String_of_last2 by exact Hy. reflexivity. }
  rewrite parseCustomDate_eq, Hfmt. unfold exec_date.
  assert (Hcancel : forall a, 48 + a - 48 = a) by (intros a; lia).
  assert (Hq : getDate d / 10 < 10) by (apply N.Div0.div_lt_upper_bound; lia).
  assert (Hr : getDate d mod 10 < 10) by (apply N.mod_lt; lia).
  assert (Hyq : (y / 10) mod 10 < 10) by (apply N.mod_lt; lia).
  assert (Hyr : y mod 10 < 10) by (apply N.mod_lt; lia).
  cbn [skip_spaces]. rewrite (digit_not_space _ (is_digit_of _ Hq)).
  rewrite !is_digit_of by assumption. rewrite L1, L2, L3. cbn [andb forallb].
  rewrite Hlook. f_equal. f_equal.
  - f_equal. destruct (parseInt_two _ _ (is_digit_of _ Hyq) (is_digit_of _ Hyr)) as [-> _].
    rewrite !Hcancel. change 100 with (10 * 10).
    rewrite (N.Div0.mod_mul_r y 10 10). lia.
  - destruct (parseInt_two _ _ (is_digit_of _ Hq) (is_digit_of _ Hr)) as [-> _].
    rewrite !Hcancel.
    pose proof (N.div_mod (getDate d) 10 ltac:(lia)). lia.
Qed.

End DatesProps.

(** ** Evaluations of the further properties *)

Section MoreReference.

#[local] Existing Instance RefLibm.libm.
Local Open Scope js_scope.

(** The three statistics on the residuals 1, 2, 4, 3, 7, 5, 6, 9. *)
Lemma statistics_never_negative_witness :
  let residuals := [1; 2; 4; 3; 7; 5; 6; 9]%float in
  nonneg_or_nan (jb (computeJarqueBera residuals)) /\
  nonneg_or_nan (lb_Q (ljungBoxTest residuals 2 0)) /\
  nonneg_or_nan (arch_LM (archLMTest residuals 2)).
Proof.
  intros residuals.
  destruct (@statistics_never_negative RefLibm.libm ref_pow_square_sign) as (Hjb & Hlb & Harch).
  split; [apply Hjb|]. split; [|apply Harch].
  apply Hlb. simpl. lia.
Defined.


(** Two prices leave one difference and no fit: the forecasts repeat the
    last price. *)
Lemma forecast_without_fit_witness :
  let dollarData := map row [3.5; 3.75]%float in
  let f := generateRealForecastsForStage5 dollarData in
  diffForecasts f = repeat NaN forecastHorizon /\
  seForecasts f = repeat NaN forecastHorizon /\
  pointForecasts f = repeat (3.75 + 0)%float forecastHorizon.
Proof.
  intros dollarData f.
  destruct (forecast_without_fit dollarData) as (H1 & H2 & H3 & _); [reflexivity|].
  repeat split; assumption.
Defined.

(** The statistics of the prices 3, 1, 2. *)
Lemma statistics_ordered_witness :
  let st := calculateDescriptiveStats (Numeric [3; 1; 2]%float) in
  (st_min st <=? st_q1 st) = true /\
  (st_q1 st <=? st_q3 st) = true /\
  (st_q3 st <=? st_max st) = true.
Proof.
  intros st.
  destruct (statistics_ordered (Numeric [3; 1; 2]%float)) as (_ & H1 & H2 & H3 & _).
  - assert (E : st_n (calculateDescriptiveStats (Numeric [3; 1; 2]%float)) = 3%nat)
      by (vm_compute; reflexivity).
    rewrite E. lia.
  - repeat split; assumption.
Defined.

(** The shape statistics of the prices 1, 2. *)
Lemma shape_of_small_samples_witness :
  let st := calculateDescriptiveStats (Numeric [1; 2]%float) in
  isFinite (st_skewness st) = false /\ isFinite (st_kurtosis st) = false.
Proof.
  intros st.
  destruct (shape_of_small_samples (Numeric [1; 2]%float)) as (_ & Hs & Hk).
  split; [apply Hs | apply Hk]; try reflexivity. left. reflexivity.
Defined.

End MoreReference.


Section DatesExamples.

Import Dates.
Local Open Scope N_scope.

(** 99feb24 between two blanks is read as 2024-02-99: the day is copied as
    it is. *)
Lemma parseCustomDate_shape_witness :
  parseCustomDate (units " 99feb24 "%string) = Some (units "2024-02-99"%string).
Proof.
  apply (proj2 (parseCustomDate_shape (units " 99feb24 "%string)
                                      (units "2024-02-99"%string))).
  exists [32], [32], 57, 57, 102, 101, 98, 50, 52%N, 2.
  repeat split; try reflexivity; lia.
Defined.

(** The 15th of October 2024 is written 15Oct24 and read back. *)
Lemma parse_format_round_trip_witness :
  let d := {| getDate := 15; getMonth := 9; getFullYear := 2024 |} in
  parseCustomDate (formatDateCompactEs d)
  = Some (iso_date (2000 + Z.to_N 2024 mod 100) (N.of_nat 9 + 1) 15).
Proof.
  intros d. apply (parse_format_round_trip d); simpl; lia.
Defined.

End DatesExamples.

(** ** Rounding errors of binary64 *)

Module Rounding.

Import JSFloat FloatFacts MoreFloatFacts.
Local Open Scope R_scope.

(** *** Powers of two *)

Lemma bpow_pos (e : Z) : 0 < bpow e.
Proof. apply powerRZ_lt. lra. Qed.

Lemma bpow_add (a b : Z) : bpow (a + b) = bpow a * bpow b.
Proof. apply powerRZ_add. lra. Qed.

Lemma bpow_0 : bpow 0 = 1.
Proof. reflexivity. Qed.

Lemma bpow_1 : bpow 1 = 2.
Proof. unfold bpow. simpl. lra. Qed.

Lemma bpow_opp (a : Z) : bpow (- a) = / bpow a.
Proof. apply powerRZ_neg'. Qed.

Lemma bpow_IZR (k : Z) : (0 <= k)%Z -> bpow k = IZR (2 ^ k).
Proof.
  intros Hk. unfold bpow. rewrite <- (Z2Nat.id k Hk) at 1.
  rewrite <- pow_powerRZ, pow_IZR, Z2Nat.id by exact Hk. reflexivity.
Qed.

Lemma bpow_ge_1 (k : Z) : (0 <= k)%Z -> 1 <= bpow k.
Proof.
  intros Hk. rewrite bpow_IZR by exact Hk. apply IZR_le.
  pose proof (Z.pow_pos_nonneg 2 k ltac:(lia) Hk). lia.
Qed.

Lemma bpow_le (a b : Z) : (a <= b)%Z -> bpow a <= bpow b.
Proof.
  intros H. replace b with (a + (b - a))%Z by lia. rewrite bpow_add.
  pose proof (bpow_pos a). pose proof (bpow_ge_1 (b - a) ltac:(lia)). nra.
Qed.

Lemma bpow_lt (a b : Z) : (a < b)%Z -> bpow a < bpow b.
Proof.
  intros H. replace b with (a + 1 + (b - a - 1))%Z by lia. rewrite !bpow_add, bpow_1.
  pose proof (bpow_pos a). pose proof (bpow_ge_1 (b - a - 1) ltac:(lia)). nra.
Qed.

Lemma bpow_succ (a : Z) : bpow (a + 1) = 2 * bpow a.
Proof. rewrite bpow_add, bpow_1. lra. Qed.

Lemma bpow_pred (a : Z) : bpow (a - 1) = bpow a / 2.
Proof.
  replace a with (a - 1 + 1)%Z at 2 by lia. rewrite bpow_succ. lra.
Qed.

Lemma Rabs_le_both (a b : R) : Rabs a <= b -> - b <= a <= b.
Proof. unfold Rabs. destruct (Rcase_abs a); lra. Qed.

(** *** Shifting right keeps the location *)

Lemma located_range (x : R) (m : Z) (l : location) :
  located x m l -> IZR m <= x < IZR m + 1.
Proof. destruct l as [|[| |]]; simpl; lra. Qed.

Lemma shr_1_located (mrs : shr_record) (x : R) :
  (0 <= shr_m mrs)%Z ->
  located x (shr_m mrs) (loc_of_shr_record mrs) ->
  located (x / 2) (shr_m (shr_1 mrs)) (loc_of_shr_record (shr_1 mrs)).
Proof.
  destruct mrs as [m r s]. cbn [shr_m]. intros Hm.
  destruct m as [|p|p]; [| |lia].
  - destruct r, s; simpl; lra.
  - destruct p as [p|p|].
    + assert (E : IZR (Z.pos p~1) = 2 * IZR (Z.pos p) + 1)
        by (rewrite Pos2Z.inj_xI, plus_IZR, mult_IZR; reflexivity).
      destruct r, s; cbn -[IZR]; rewrite E; lra.
    + assert (E : IZR (Z.pos p~0) = 2 * IZR (Z.pos p))
        by (rewrite Pos2Z.inj_xO, mult_IZR; reflexivity).
      destruct r, s; cbn -[IZR]; rewrite E; lra.
    + destruct r, s; simpl; lra.
Qed.

Lemma shr_1_nonneg (mrs : shr_record) : (0 <= shr_m mrs)%Z -> (0 <= shr_m (shr_1 mrs))%Z.
Proof. intros H. rewrite shr_1_m by exact H. apply Z.div2_nonneg. exact H. Qed.

Lemma iter_shr_located (p : positive) (mrs : shr_record) (x : R) :
  (0 <= shr_m mrs)%Z ->
  located x (shr_m mrs) (loc_of_shr_record mrs) ->
  (0 <= shr_m (iter_pos shr_1 p mrs))%Z /\
  located (x * bpow (- Z.pos p)) (shr_m (iter_pos shr_1 p mrs))
          (loc_of_shr_record (iter_pos shr_1 p mrs)).
Proof.
  revert mrs x. induction p as [p IH|p IH|]; intros mrs x Hm Hl; simpl iter_pos.
  - pose proof (shr_1_nonneg mrs Hm) as H1.
    pose proof (shr_1_located mrs x Hm Hl) as L1.
    destruct (IH _ _ H1 L1) as [H2 L2].
    destruct (IH _ _ H2 L2) as [H3 L3].
    split; [exact H3|].
    replace (x * bpow (- Z.pos p~1)) with (x / 2 * bpow (- Z.pos p) * bpow (- Z.pos p));
      [exact L3|].
    rewrite Pos2Z.inj_xI.
    replace (- (2 * Z.pos p + 1))%Z with (- Z.pos p + - Z.pos p + - (1))%Z by lia.
    rewrite !bpow_add, (bpow_opp 1), bpow_1. field.
  - destruct (IH _ _ Hm Hl) as [H2 L2].
    destruct (IH _ _ H2 L2) as [H3 L3].
    split; [exact H3|].
    replace (x * bpow (- Z.pos p~0)) with (x * bpow (- Z.pos p) * bpow (- Z.pos p));
      [exact L3|].
    rewrite Pos2Z.inj_xO.
    replace (- (2 * Z.pos p))%Z with (- Z.pos p + - Z.pos p)%Z by lia.
    rewrite !bpow_add. ring.
  - split; [now apply shr_1_nonneg|].
    replace (x * bpow (- (1))) with (x / 2); [now apply shr_1_located|].
    rewrite (bpow_opp 1), bpow_1. field.
Qed.

Lemma loc_of_shr_record_of_loc (m : Z) (l : location) :
  loc_of_shr_record (shr_record_of_loc m l) = l.
Proof. destruct l as [|[| |]]; reflexivity. Qed.

(** The first step of rounding: the mantissa at the exponent
    [max e (fexp (digits m + e))], with the location of the real. *)
Lemma shr_fexp_located (m e : Z) (l : location) (x : R) :
  (0 <= m)%Z -> located x m l ->
  let e' := Z.max e (fexp64 (Zdigits2 m + e)) in
  snd (shr_fexp prec emax m e l) = e' /\
  (0 <= shr_m (fst (shr_fexp prec emax m e l)))%Z /\
  located (x * bpow (e - e')) (shr_m (fst (shr_fexp prec emax m e l)))
          (loc_of_shr_record (fst (shr_fexp prec emax m e l))).
Proof.
  intros Hm Hl e'. unfold shr_fexp, shr.
  assert (H0 : (0 <= shr_m (shr_record_of_loc m l))%Z) by (rewrite shr_record_of_loc_m; exact Hm).
  assert (L0 : located x (shr_m (shr_record_of_loc m l))
                       (loc_of_shr_record (shr_record_of_loc m l))).
  { rewrite shr_record_of_loc_m, loc_of_shr_record_of_loc. exact Hl. }
  destruct (fexp64 (Zdigits2 m + e) - e)%Z as [|n|n] eqn:En; cbn [fst snd].
  - assert (E : e' = e) by (unfold e'; lia). rewrite E, Z.sub_diag, bpow_0, Rmult_1_r.
    auto.
  - destruct (iter_shr_located n _ x H0 L0) as [H1 L1].
    assert (E : e' = (e + Z.pos n)%Z) by (unfold e'; lia).
    rewrite E. replace (e - (e + Z.pos n))%Z with (- Z.pos n)%Z by lia. auto.
  - assert (E : e' = e) by (unfold e'; lia). rewrite E, Z.sub_diag, bpow_0, Rmult_1_r.
    auto.
Qed.

Lemma round_nearest_even_located (x : R) (m : Z) (l : location) :
  located x m l ->
  Rabs (IZR (round_nearest_even m l) - x) <= / 2 /\
  (l = loc_Exact -> IZR (round_nearest_even m l) = x).
Proof.
  intros Hl. split.
  - destruct l as [|[| |]]; simpl in *; try (destruct (Z.even m));
      rewrite ?plus_IZR; apply Rabs_le; lra.
  - intros ->. simpl in *. now symmetry.
Qed.

Lemma fexp64_ge (k : Z) : (k - 53 <= fexp64 k)%Z /\ (emin64 <= fexp64 k)%Z.
Proof. unfold fexp, SpecFloat.emin, prec, emax. lia. Qed.

Lemma succ_le_pow_digits (m : Z) : (0 <= m)%Z -> (m + 1 <= 2 ^ Zdigits2 m)%Z.
Proof.
  intros Hm. destruct m as [|p|p]; [simpl; lia| |lia].
  pose proof (Zdigits2_lt (Z.pos p) ltac:(lia)). lia.
Qed.

(** After the first step the mantissa is below 2^53. *)
Lemma first_step_small (m e : Z) (l : location) (x : R) :
  (0 <= m)%Z -> located x m l ->
  (shr_m (fst (shr_fexp prec emax m e l)) < 2 ^ 53)%Z.
Proof.
  intros Hm Hl.
  destruct (shr_fexp_located m e l x Hm Hl) as (_ & H0 & L).
  set (e' := Z.max e (fexp64 (Zdigits2 m + e))) in *.
  set (m' := shr_m (fst (shr_fexp prec emax m e l))) in *.
  apply located_range in L. apply located_range in Hl.
  apply lt_IZR. rewrite <- bpow_IZR by lia.
  pose proof (succ_le_pow_digits m Hm) as Hd. apply IZR_le in Hd.
  rewrite plus_IZR in Hd.
  assert (Hdn : (0 <= Zdigits2 m)%Z) by (destruct m; simpl; lia).
  rewrite <- bpow_IZR in Hd by exact Hdn.
  pose proof (fexp64_ge (Zdigits2 m + e)) as [Hf _].
  assert (He' : (Zdigits2 m + e - 53 <= e')%Z) by (unfold e'; lia).
  pose proof (bpow_pos (e - e')).
  assert (Hx : x * bpow (e - e') < bpow (Zdigits2 m) * bpow (e - e')) by nra.
  rewrite <- bpow_add in Hx.
  pose proof (bpow_le (Zdigits2 m + (e - e')) 53 ltac:(lia)). lra.
Qed.

Lemma shr_no_shift (mrs : shr_record) (e n : Z) : (n <= 0)%Z -> shr mrs e n = (mrs, e).
Proof. intros H. unfold shr. destruct n; try reflexivity. lia. Qed.

(** The second step changes nothing in the value: it shifts only 2^53. *)
Lemma second_step (s : bool) (m2 e' : Z) :
  (0 <= m2 <= 2 ^ 53)%Z -> (emin64 <= e')%Z ->
  let z :=
    let '(mrs'', e'') := shr_fexp prec emax m2 e' loc_Exact in
    match shr_m mrs'' with
    | Z0 => S754_zero s
    | Zpos m => if (e'' <=? emax - prec)%Z then S754_finite s m e'' else S754_infinity s
    | Zneg _ => S754_nan
    end in
  (z = S754_infinity s /\ bpow 972 <= IZR m2 * bpow e') \/
  (SFfinite z /\ SF2R z = (if s then - (IZR m2 * bpow e') else IZR m2 * bpow e')).
Proof.
  intros [Hlo Hhi] He'. cbv zeta.
  destruct (Z.eq_dec m2 0) as [->|Hnz].
  - unfold shr_fexp. rewrite shr_no_shift.
    + simpl. right. split; [exact I|]. destruct s; lra.
    + simpl Zdigits2. pose proof (fexp64_ge (0 + e')).
      unfold fexp, SpecFloat.emin, prec, emax in *. lia.
  - destruct (Z.eq_dec m2 (2 ^ 53)) as [->|Hne].
    + unfold shr_fexp.
      assert (E : (fexp64 (Zdigits2 (2 ^ 53) + e') - e' = 1)%Z).
      { change (Zdigits2 (2 ^ 53)) with 54%Z.
        unfold fexp, SpecFloat.emin, prec, emax in *. lia. }
      rewrite E. cbn [shr iter_pos shr_record_of_loc].
      change (shr_m (shr_1 {| shr_m := 2 ^ 53; shr_r := false; shr_s := false |}))
        with (Z.pos (4503599627370496)).
      destruct (Z.leb_spec (e' + 1) (emax - prec)) as [_|Hover]; [right | left].
      * split; [exact I|]. cbn [SF2R]. rewrite bpow_succ.
        change (IZR (2 ^ 53)) with (IZR (2 * 4503599627370496)). rewrite mult_IZR.
        destruct s; lra.
      * split; [reflexivity|]. rewrite <- (bpow_IZR 53), <- bpow_add by lia.
        apply bpow_le. unfold emax, prec in Hover. lia.
    + assert (Hd : (Zdigits2 m2 <= 53)%Z) by (apply Zdigits2_upper; lia).
      unfold shr_fexp. rewrite shr_no_shift.
      * rewrite shr_record_of_loc_m. destruct m2 as [|p|p]; try lia.
        destruct (Z.leb_spec e' (emax - prec)) as [_|Hover]; [right | left].
        -- split; [exact I|]. cbn [SF2R]. destruct s; lra.
        -- split; [reflexivity|].
           assert (H1 : 1 <= IZR (Z.pos p)) by (apply IZR_le; lia).
           pose proof (bpow_le 972 e' ltac:(unfold emax, prec in Hover; lia)).
           pose proof (bpow_pos 972). nra.
      * unfold fexp, SpecFloat.emin, prec, emax in *. lia.
Qed.

(** *** The error of one rounding *)

Lemma binary_round_aux_error (s : bool) (m e : Z) (l : location) (x : R) :
  (0 <= m)%Z -> located x m l ->
  let z := binary_round_aux prec emax s m e l in
  let e' := Z.max e (fexp64 (Zdigits2 m + e)) in
  (z = S754_infinity s /\ bpow 971 <= x * bpow e) \/
  (SFfinite z /\
   exists v : R,
     SF2R z = (if s then - v else v) /\ 0 <= v /\
     Rabs (v - x * bpow e) <= bpow (e' - 1) /\
     (l = loc_Exact -> e' = e -> v = x * bpow e)).
Proof.
  intros Hm Hl z e'. unfold z, binary_round_aux.
  destruct (shr_fexp_located m e l x Hm Hl) as (E1 & H1 & L1).
  pose proof (first_step_small m e l x Hm Hl) as Hsmall.
  fold e' in E1, L1.
  destruct (shr_fexp prec emax m e l) as [mrs' e1]. cbn [fst snd] in *. subst e1.
  destruct (round_nearest_even_located _ _ _ L1) as [Hr Hexact].
  pose proof (round_nearest_even_ge (shr_m mrs') (loc_of_shr_record mrs')) as Hge.
  pose proof (round_nearest_even_le (shr_m mrs') (loc_of_shr_record mrs')) as Hle.
  set (m2 := round_nearest_even (shr_m mrs') (loc_of_shr_record mrs')) in *.
  assert (He' : (emin64 <= e')%Z).
  { pose proof (fexp64_ge (Zdigits2 m + e)). unfold e'. lia. }
  pose proof (bpow_pos e') as Hp.
  assert (Hm2 : 0 <= IZR m2) by (apply IZR_le; lia).
  assert (EX : x * bpow e = x * bpow (e - e') * bpow e').
  { rewrite Rmult_assoc, <- bpow_add. f_equal. f_equal. lia. }
  destruct (second_step s m2 e' ltac:(lia) He') as [[Hinf Hbig] | [Hfin Hval]]; [left | right].
  { split; [exact Hinf|]. rewrite EX.
    assert (Hone : 1 <= IZR m2).
    { apply IZR_le. destruct (Z.eq_dec m2 0) as [E0|E0]; [|lia].
      rewrite E0 in Hbig. pose proof (bpow_pos 972). simpl in Hbig. lra. }
    apply Rabs_le_both in Hr.
    replace 972%Z with (971 + 1)%Z in Hbig by lia. rewrite bpow_succ in Hbig.
    pose proof (bpow_pos 971). nra. }
  split; [exact Hfin|].
  exists (IZR m2 * bpow e'). split; [exact Hval|].
  split; [nra|].
  split.
  - rewrite EX, <- Rmult_minus_distr_r, Rabs_mult, (Rabs_pos_eq (bpow e')) by lra.
    rewrite bpow_pred. nra.
  - intros -> Ee. cbn [located] in Hl. subst x.
    rewrite Ee, Z.sub_diag, bpow_0, Rmult_1_r in Hr.
    rewrite <- minus_IZR in Hr.
    assert (Hz : (m2 - m = 0)%Z).
    { unfold Rabs in Hr. destruct (Rcase_abs (IZR (m2 - m))) as [Hneg|Hpos].
      - assert (H : IZR (-1) < IZR (m2 - m)) by (simpl; lra).
        apply lt_IZR in H. apply (lt_IZR _ 0) in Hneg. lia.
      - assert (H : IZR (m2 - m) < IZR 1) by (simpl; lra).
        apply lt_IZR in H. apply Rge_le, (le_IZR 0) in Hpos. lia. }
    replace m2 with m by lia. now rewrite Ee.
Qed.

Lemma eps64_pos : 0 < eps64. Proof. apply bpow_pos. Qed.
Lemma eta64_pos : 0 < eta64. Proof. apply bpow_pos. Qed.

Lemma bound_nonneg (a : R) : 0 <= a -> 0 <= eps64 * a + eta64.
Proof.
  intros Ha. pose proof eta64_pos.
  pose proof (Rmult_le_pos eps64 a (Rlt_le _ _ eps64_pos) Ha). lra.
Qed.

Lemma rounded_refl (t : R) : rounded t t.
Proof. unfold rounded. rewrite Rminus_diag, Rabs_R0. apply bound_nonneg, Rabs_pos. Qed.

Lemma rounded_opp (v t : R) : rounded v t -> rounded (- v) (- t).
Proof.
  unfold rounded. replace (- v - - t) with (- (v - t)) by ring. now rewrite !Rabs_Ropp.
Qed.

Lemma mantissa_value_pos (m : positive) (e : Z) : 0 < IZR (Z.pos m) * bpow e.
Proof. apply Rmult_lt_0_compat; [apply IZR_lt; lia | apply bpow_pos]. Qed.

(** Half a unit in the last place, relative to the number rounded. *)
Lemma half_ulp_bound (m e : Z) (l : location) (x : R) :
  (0 <= m)%Z -> located x m l -> (e <= fexp64 (Zdigits2 m + e))%Z ->
  bpow (Z.max e (fexp64 (Zdigits2 m + e)) - 1) <= eps64 * (x * bpow e) + eta64.
Proof.
  intros Hm Hl He. rewrite Z.max_r by exact He.
  apply located_range in Hl.
  pose proof eps64_pos as Hu. pose proof eta64_pos as Ht. pose proof (bpow_pos e) as Hpe.
  destruct m as [|p|p]; [| |lia].
  - cbn [Zdigits2] in *.
    assert (E : fexp64 (0 + e) = (-1074)%Z).
    { clear - He. unfold fexp, SpecFloat.emin, prec, emax in *. lia. }
    rewrite E. change (bpow (-1074 - 1)) with eta64. simpl in Hl.
    assert (0 <= eps64 * (x * bpow e))
      by (apply Rmult_le_pos; [lra | apply Rmult_le_pos; lra]).
    lra.
  - cbn [Zdigits2] in *. pose proof (digits2_pos_bounds p) as [Hlo _].
    set (d := Z.pos (digits2_pos p)) in *.
    apply IZR_le in Hlo. rewrite <- bpow_IZR in Hlo by lia.
    assert (Hx : bpow (d - 1 + e) <= x * bpow e).
    { rewrite bpow_add. nra. }
    destruct (Z.le_gt_cases (-1074) (d + e - 53)) as [Hn|Hs].
    + assert (E : fexp64 (d + e) = (d + e - 53)%Z).
      { unfold fexp, SpecFloat.emin, prec, emax. lia. }
      rewrite E. replace (d + e - 53 - 1)%Z with (-53 + (d - 1 + e))%Z by lia.
      rewrite bpow_add. fold eps64. nra.
    + assert (E : fexp64 (d + e) = (-1074)%Z).
      { unfold fexp, SpecFloat.emin, prec, emax. lia. }
      rewrite E. change (bpow (-1074 - 1)) with eta64.
      pose proof (bpow_pos (d - 1 + e)). nra.
Qed.

(** *** One rounding: overflow, or a relative error of at most [eps64] *)

Lemma round_error (s : bool) (m e : Z) (l : location) (x : R) :
  (0 <= m)%Z -> located x m l ->
  l = loc_Exact \/ (e <= fexp64 (Zdigits2 m + e))%Z ->
  let z := binary_round_aux prec emax s m e l in
  let t := if s then - (x * bpow e) else x * bpow e in
  (z = S754_infinity s /\ bpow 971 <= x * bpow e) \/
  (SFfinite z /\ rounded (SF2R z) t).
Proof.
  intros Hm Hl Hcase z t.
  assert (Hx : 0 <= x * bpow e).
  { apply located_range in Hl. apply Rmult_le_pos; [|apply Rlt_le, bpow_pos].
    apply IZR_le in Hm. lra. }
  destruct (binary_round_aux_error s m e l x Hm Hl)
    as [Hinf | (Hfin & v & Hv & Hv0 & Herr & Hexact)]; [now left | right].
  split; [exact Hfin|]. fold z in Hv. rewrite Hv.
  assert (H : rounded v (x * bpow e)).
  { unfold rounded. rewrite (Rabs_pos_eq (x * bpow e)) by exact Hx.
    destruct (Z.le_gt_cases e (fexp64 (Zdigits2 m + e))) as [Hle|Hgt].
    - eapply Rle_trans; [exact Herr|]. now apply (half_ulp_bound m e l).
    - destruct Hcase as [Hl0|Hle]; [|lia].
      rewrite (Hexact Hl0) by lia.
      rewrite Rminus_diag, Rabs_R0. now apply bound_nonneg. }
  unfold t. destruct s; [now apply rounded_opp | exact H].
Qed.

Lemma shl_align_real (m : positive) (e e' : Z) :
  IZR (Z.pos (fst (shl_align m e e'))) * bpow (snd (shl_align m e e'))
  = IZR (Z.pos m) * bpow e.
Proof.
  unfold shl_align. destruct (e' - e)%Z as [|d|d] eqn:E; cbn [fst snd]; try reflexivity.
  rewrite iter_xO_value, mult_IZR, <- bpow_IZR by lia.
  rewrite Rmult_assoc, <- bpow_add. f_equal. f_equal. lia.
Qed.

Lemma binary_round_error (s : bool) (m : positive) (e : Z) :
  let z := binary_round prec emax s m e in
  let x := IZR (Z.pos m) * bpow e in
  (z = S754_infinity s /\ bpow 971 <= x) \/
  (SFfinite z /\ rounded (SF2R z) (if s then - x else x)).
Proof.
  intros z x. unfold z, x, binary_round.
  pose proof (shl_align_real m e (fexp64 (Z.pos (digits2_pos m) + e))) as Hv.
  destruct (shl_align m e _) as [mz ez]. cbn [fst snd] in Hv.
  rewrite <- Hv.
  apply (round_error s (Z.pos mz) ez loc_Exact (IZR (Z.pos mz))); [lia | reflexivity | now left].
Qed.

Lemma binary_normalize_error (M e : Z) :
  let z := binary_normalize prec emax M e false in
  let t := IZR M * bpow e in
  (~ SFfinite z /\ bpow 971 <= Rabs t) \/ (SFfinite z /\ rounded (SF2R z) t).
Proof.
  intros z t. unfold z, t. clear z t.
  destruct M as [|p|p]; cbn [binary_normalize].
  - right. split; [exact I|]. simpl. rewrite Rmult_0_l. apply rounded_refl.
  - destruct (binary_round_error false p e) as [[Hinf Hbig] | [Hfin Hr]].
    + left. rewrite Hinf. split; [intros []|].
      rewrite Rabs_pos_eq by apply Rlt_le, mantissa_value_pos. exact Hbig.
    + right. split; assumption.
  - change (Z.neg p) with (- Z.pos p)%Z. rewrite opp_IZR.
    replace (- IZR (Z.pos p) * bpow e) with (- (IZR (Z.pos p) * bpow e)) by ring.
    destruct (binary_round_error true p e) as [[Hinf Hbig] | [Hfin Hr]].
    + left. rewrite Hinf. split; [intros []|].
      rewrite Rabs_Ropp, Rabs_pos_eq by apply Rlt_le, mantissa_value_pos. exact Hbig.
    + right. split; assumption.
Qed.

Lemma aligned_real (s : bool) (m : positive) (e ez : Z) :
  (ez <= e)%Z -> IZR (aligned s m e ez) * bpow ez = SF2R (S754_finite s m e).
Proof.
  intros He. unfold aligned. rewrite shl_align_value by exact He.
  cbn [SF2R].
  assert (Eb : bpow e = bpow (e - ez) * bpow ez) by (rewrite <- bpow_add; f_equal; lia).
  rewrite Eb.
  destruct s; cbn [cond_Zopp]; rewrite ?opp_IZR, mult_IZR, <- bpow_IZR by lia; ring.
Qed.

(** *** Products, sums and differences *)

Lemma SFmul_error (x y : spec_float) :
  SFfinite x -> SFfinite y ->
  (~ SFfinite (SF64mul x y) /\ bpow 971 <= Rabs (SF2R x * SF2R y)) \/
  (SFfinite (SF64mul x y) /\ rounded (SF2R (SF64mul x y)) (SF2R x * SF2R y)).
Proof.
  destruct x as [sx|sx| |sx mx ex], y as [sy|sy| |sy my ey]; cbn [SFfinite];
    try contradiction; intros _ _; cbn [SFmul SF64mul SF2R];
    rewrite ?Rmult_0_l, ?Rmult_0_r;
    try (right; split; [exact I | apply rounded_refl]).
  unfold SF64mul, SFmul.
  pose proof (mantissa_value_pos (mx * my) (ex + ey)) as HX.
  assert (E : IZR (Z.pos (mx * my)) * bpow (ex + ey)
              = IZR (Z.pos mx) * bpow ex * (IZR (Z.pos my) * bpow ey)).
  { rewrite Pos2Z.inj_mul, mult_IZR, bpow_add. ring. }
  set (X := IZR (Z.pos (mx * my)) * bpow (ex + ey)) in *.
  assert (T : (if xorb sx sy then - X else X)
              = (if sx then - IZR (Z.pos mx) else IZR (Z.pos mx)) * bpow ex
                * ((if sy then - IZR (Z.pos my) else IZR (Z.pos my)) * bpow ey)).
  { rewrite E. destruct sx, sy; cbn [xorb]; ring. }
  rewrite <- T.
  destruct (round_error (xorb sx sy) (Z.pos (mx * my)) (ex + ey) loc_Exact
                        (IZR (Z.pos (mx * my))) ltac:(lia) eq_refl (or_introl eq_refl))
    as [[Hinf Hbig] | [Hfin Hr]].
  - left. rewrite Hinf. split; [intros []|].
    fold X in Hbig. destruct (xorb sx sy); rewrite ?Rabs_Ropp, Rabs_pos_eq; lra.
  - right. split; assumption.
Qed.

Lemma SFadd_error (x y : spec_float) :
  SFfinite x -> SFfinite y ->
  (~ SFfinite (SF64add x y) /\ bpow 971 <= Rabs (SF2R x + SF2R y)) \/
  (SFfinite (SF64add x y) /\ rounded (SF2R (SF64add x y)) (SF2R x + SF2R y)).
Proof.
  destruct x as [sx|sx| |sx mx ex], y as [sy|sy| |sy my ey]; cbn [SFfinite];
    try contradiction; intros _ _; cbn [SFadd SF64add].
  - right. destruct sx, sy; cbn [SF2R SFfinite]; rewrite Rplus_0_l;
      (split; [exact I | apply rounded_refl]).
  - right. cbn [SF2R SFfinite]. rewrite Rplus_0_l. split; [exact I | apply rounded_refl].
  - right. cbn [SF2R SFfinite]. rewrite Rplus_0_r. split; [exact I | apply rounded_refl].
  - unfold SF64add, SFadd.
    set (ez := Z.min ex ey).
    fold (aligned sx mx ex ez). fold (aligned sy my ey ez).
    pose proof (binary_normalize_error (aligned sx mx ex ez + aligned sy my ey ez) ez) as Hb.
    cbv zeta in Hb.
    rewrite plus_IZR, Rmult_plus_distr_r, !aligned_real in Hb by (unfold ez; lia).
    exact Hb.
Qed.

Lemma SFsub_add_opp (x y : spec_float) : SF64sub x y = SF64add x (SFopp y).
Proof.
  destruct x as [sx|sx| |sx mx ex], y as [sy|sy| |sy my ey]; try reflexivity;
    try (destruct sx, sy; reflexivity).
Qed.

Lemma SF2R_opp (x : spec_float) : SF2R (SFopp x) = - SF2R x.
Proof. destruct x as [s|s| |s m e]; simpl; try lra. destruct s; simpl; ring. Qed.

Lemma SFfinite_opp (x : spec_float) : SFfinite (SFopp x) <-> SFfinite x.
Proof. destruct x; simpl; tauto. Qed.

Lemma SFsub_error (x y : spec_float) :
  SFfinite x -> SFfinite y ->
  (~ SFfinite (SF64sub x y) /\ bpow 971 <= Rabs (SF2R x - SF2R y)) \/
  (SFfinite (SF64sub x y) /\ rounded (SF2R (SF64sub x y)) (SF2R x - SF2R y)).
Proof.
  intros Hx Hy. rewrite SFsub_add_opp.
  pose proof (SFadd_error x (SFopp y) Hx (proj2 (SFfinite_opp y) Hy)) as H.
  rewrite SF2R_opp in H. exact H.
Qed.

(** The same on primitive floats: a result that is finite is the exact
    result rounded; finite operands whose exact result is below 2^971 give
    a finite result. *)
Lemma is_finite_SFfinite (x : float) : PrimFloat.is_finite x = true <-> SFfinite (Prim2SF x).
Proof.
  rewrite is_finite_SF. destruct (Prim2SF x); simpl; split; intros; try easy.
Qed.

Lemma add_finite_inv (a b : float) :
  PrimFloat.is_finite (a + b) = true ->
  PrimFloat.is_finite a = true /\ PrimFloat.is_finite b = true.
Proof.
  rewrite !is_finite_SF, add_spec.
  destruct (Prim2SF a) as [sa|sa| |sa ma ea], (Prim2SF b) as [sb|sb| |sb mb eb];
    simpl; try (split; reflexivity); try discriminate;
    try (destruct sa, sb; simpl; discriminate).
Qed.

Lemma sub_finite_inv (a b : float) :
  PrimFloat.is_finite (a - b) = true ->
  PrimFloat.is_finite a = true /\ PrimFloat.is_finite b = true.
Proof.
  rewrite !is_finite_SF, sub_spec.
  destruct (Prim2SF a) as [sa|sa| |sa ma ea], (Prim2SF b) as [sb|sb| |sb mb eb];
    simpl; try (split; reflexivity); try discriminate;
    try (destruct sa, sb; simpl; discriminate).
Qed.

Lemma mul_finite_inv (a b : float) :
  PrimFloat.is_finite (a * b) = true ->
  PrimFloat.is_finite a = true /\ PrimFloat.is_finite b = true.
Proof.
  rewrite !is_finite_SF, mul_spec.
  destruct (Prim2SF a) as [sa|sa| |sa ma ea], (Prim2SF b) as [sb|sb| |sb mb eb];
    simpl; try (split; reflexivity); try discriminate.
Qed.

Lemma mul_error (x y : float) :
  PrimFloat.is_finite (x * y) = true -> rounded (B2R (x * y)) (B2R x * B2R y).
Proof.
  intros H. destruct (mul_finite_inv _ _ H) as [Hx Hy].
  apply is_finite_SFfinite in H, Hx, Hy. unfold B2R. rewrite mul_spec in *.
  destruct (SFmul_error _ _ Hx Hy) as [[Hn _] | [_ Hr]]; [contradiction | exact Hr].
Qed.

Lemma add_error (x y : float) :
  PrimFloat.is_finite (x + y) = true -> rounded (B2R (x + y)) (B2R x + B2R y).
Proof.
  intros H. destruct (add_finite_inv _ _ H) as [Hx Hy].
  apply is_finite_SFfinite in H, Hx, Hy. unfold B2R. rewrite add_spec in *.
  destruct (SFadd_error _ _ Hx Hy) as [[Hn _] | [_ Hr]]; [contradiction | exact Hr].
Qed.

Lemma sub_error (x y : float) :
  PrimFloat.is_finite (x - y) = true -> rounded (B2R (x - y)) (B2R x - B2R y).
Proof.
  intros H. destruct (sub_finite_inv _ _ H) as [Hx Hy].
  apply is_finite_SFfinite in H, Hx, Hy. unfold B2R. rewrite sub_spec in *.
  destruct (SFsub_error _ _ Hx Hy) as [[Hn _] | [_ Hr]]; [contradiction | exact Hr].
Qed.

Lemma mul_safe (x y : float) :
  PrimFloat.is_finite x = true -> PrimFloat.is_finite y = true ->
  Rabs (B2R x * B2R y) < bpow 971 ->
  PrimFloat.is_finite (x * y) = true /\ rounded (B2R (x * y)) (B2R x * B2R y).
Proof.
  intros Hx Hy Hb. apply is_finite_SFfinite in Hx, Hy.
  rewrite is_finite_SFfinite. unfold B2R in *. rewrite mul_spec.
  destruct (SFmul_error _ _ Hx Hy) as [[_ Hbig] | H]; [lra | exact H].
Qed.

Lemma add_safe (x y : float) :
  PrimFloat.is_finite x = true -> PrimFloat.is_finite y = true ->
  Rabs (B2R x + B2R y) < bpow 971 ->
  PrimFloat.is_finite (x + y) = true /\ rounded (B2R (x + y)) (B2R x + B2R y).
Proof.
  intros Hx Hy Hb. apply is_finite_SFfinite in Hx, Hy.
  rewrite is_finite_SFfinite. unfold B2R in *. rewrite add_spec.
  destruct (SFadd_error _ _ Hx Hy) as [[_ Hbig] | H]; [lra | exact H].
Qed.

Lemma sub_safe (x y : float) :
  PrimFloat.is_finite x = true -> PrimFloat.is_finite y = true ->
  Rabs (B2R x - B2R y) < bpow 971 ->
  PrimFloat.is_finite (x - y) = true /\ rounded (B2R (x - y)) (B2R x - B2R y).
Proof.
  intros Hx Hy Hb. apply is_finite_SFfinite in Hx, Hy.
  rewrite is_finite_SFfinite. unfold B2R in *. rewrite sub_spec.
  destruct (SFsub_error _ _ Hx Hy) as [[_ Hbig] | H]; [lra | exact H].
Qed.

(** *** Quotients *)

Lemma fraction_compare (a b : R) :
  0 < b ->
  (0 < a -> 0 < a / b) /\ (a < b -> a / b < 1) /\
  (2 * a < b -> a / b < / 2) /\ (2 * a = b -> a / b = / 2) /\ (b < 2 * a -> / 2 < a / b).
Proof.
  intros Hb. unfold Rdiv.
  pose proof (Rinv_0_lt_compat b Hb) as Hi.
  assert (E : b * / b = 1) by (apply Rinv_r; lra).
  repeat split; intros H; nra.
Qed.

Lemma new_location_located (nb k q : Z) :
  (0 < nb)%Z -> (0 <= k < nb)%Z ->
  located (IZR q + IZR k / IZR nb) q (new_location nb k).
Proof.
  intros Hnb [Hk0 Hk].
  assert (Hb : 0 < IZR nb) by (apply IZR_lt; lia).
  destruct (fraction_compare (IZR k) (IZR nb) Hb) as (F1 & F2 & F3 & F4 & F5).
  assert (G1 : (0 < k)%Z -> 0 < IZR k / IZR nb) by (intros H; apply F1, IZR_lt; exact H).
  assert (G2 : IZR k / IZR nb < 1) by (apply F2, IZR_lt; exact Hk).
  assert (G3 : (2 * k < nb)%Z -> IZR k / IZR nb < / 2).
  { intros H. apply F3. apply IZR_lt in H. rewrite mult_IZR in H. exact H. }
  assert (G4 : (2 * k = nb)%Z -> IZR k / IZR nb = / 2).
  { intros H. apply F4. rewrite <- H, mult_IZR. reflexivity. }
  assert (G5 : (nb < 2 * k)%Z -> / 2 < IZR k / IZR nb).
  { intros H. apply F5. apply IZR_lt in H. rewrite mult_IZR in H. exact H. }
  assert (G0 : k = 0%Z -> IZR q + IZR k / IZR nb = IZR q).
  { intros ->. unfold Rdiv. rewrite Rmult_0_l. lra. }
  unfold new_location.
  destruct (Z.even nb) eqn:Ev.
  - unfold new_location_even.
    destruct (Z.eqb_spec k 0) as [Hz|Hnz]; [exact (G0 Hz)|].
    specialize (G1 ltac:(lia)).
    destruct (Z.compare_spec (2 * k) nb) as [H|H|H]; unfold located.
    + rewrite (G4 H). reflexivity.
    + specialize (G3 H). lra.
    + specialize (G5 H). lra.
  - unfold new_location_odd.
    destruct (Z.eqb_spec k 0) as [Hz|Hnz]; [exact (G0 Hz)|].
    specialize (G1 ltac:(lia)).
    assert (Hodd : (2 * k <> nb)%Z).
    { intros H. rewrite <- H, Z.even_mul in Ev. discriminate. }
    destruct (Z.compare_spec (2 * k + 1) nb) as [H|H|H]; unfold located.
    + specialize (G3 ltac:(lia)). lra.
    + specialize (G3 ltac:(lia)). lra.
    + specialize (G5 ltac:(lia)). lra.
Qed.

Lemma fexp64_mono (a b : Z) : (a <= b)%Z -> (fexp64 a <= fexp64 b)%Z.
Proof. unfold fexp. lia. Qed.

Lemma Zdigits2_nonneg (m : Z) : (0 <= Zdigits2 m)%Z.
Proof. destruct m; simpl; lia. Qed.

Lemma SFdiv_core_located (mx my : positive) (ex ey : Z) :
  let '(q, e', l) := SFdiv_core_binary prec emax (Z.pos mx) ex (Z.pos my) ey in
  (0 <= q)%Z /\
  (e' <= fexp64 (Zdigits2 q + e'))%Z /\
  exists x : R,
    located x q l /\
    x * bpow e' = IZR (Z.pos mx) * bpow ex / (IZR (Z.pos my) * bpow ey).
Proof.
  unfold SFdiv_core_binary.
  set (d1 := Zdigits2 (Z.pos mx)). set (d2 := Zdigits2 (Z.pos my)).
  set (e' := Z.min (fexp64 (d1 + ex - (d2 + ey))) (ex - ey)).
  set (s := (ex - ey - e')%Z).
  assert (Hs : (0 <= s)%Z) by (unfold s, e'; lia).
  set (m' := match s with Z.pos _ => Z.shiftl (Z.pos mx) s | 0%Z => Z.pos mx | Z.neg _ => 0%Z end).
  assert (Hm' : m' = (Z.pos mx * 2 ^ s)%Z).
  { unfold m'. destruct s as [|p|p]; [simpl; lia | apply Z.shiftl_mul_pow2; lia | lia]. }
  pose proof (Z_div_mod m' (Z.pos my) ltac:(lia)) as Hdm.
  destruct (Z.div_eucl m' (Z.pos my)) as [q r]. destruct Hdm as [Heq Hr].
  assert (Hp : (0 < 2 ^ s)%Z) by (apply Z.pow_pos_nonneg; lia).
  assert (Hq : (0 <= q)%Z) by nia.
  pose proof (Zdigits2_lt (Z.pos mx) ltac:(lia)) as [_ _].
  pose proof (digits2_pos_bounds mx) as [Hlo1 _].
  pose proof (digits2_pos_bounds my) as [_ Hhi2].
  change (Z.pos (digits2_pos mx)) with d1 in Hlo1.
  change (Z.pos (digits2_pos my)) with d2 in Hhi2.
  pose proof (succ_le_pow_digits q Hq) as Hdq.
  pose proof (Zdigits2_nonneg q) as Hdq0.
  assert (Hd1 : (0 < d1)%Z) by (unfold d1; simpl; lia).
  assert (Hd2 : (0 < d2)%Z) by (unfold d2; simpl; lia).
  assert (Hdig : (d1 + s - d2 <= Zdigits2 q)%Z).
  { assert (H1 : (2 ^ (d1 - 1 + s) <= m')%Z).
    { rewrite Hm', Z.pow_add_r by lia. nia. }
    assert (H2 : (m' < 2 ^ (d2 + Zdigits2 q))%Z).
    { rewrite Z.pow_add_r by lia.
      assert (0 < 2 ^ Zdigits2 q)%Z by (apply Z.pow_pos_nonneg; lia). nia. }
    assert (H3 : (2 ^ (d1 - 1 + s) < 2 ^ (d2 + Zdigits2 q))%Z) by lia.
    apply Z.pow_lt_mono_r_iff in H3; lia. }
  split; [exact Hq|]. split.
  - apply Z.le_trans with (fexp64 (d1 + ex - (d2 + ey))); [unfold e'; lia|].
    apply fexp64_mono. unfold s in Hdig. lia.
  - exists (IZR q + IZR r / IZR (Z.pos my)). split.
    + apply new_location_located; lia.
    + assert (Hy : 0 < IZR (Z.pos my)) by (apply IZR_lt; lia).
      assert (E : IZR q + IZR r / IZR (Z.pos my) = IZR m' / IZR (Z.pos my)).
      { rewrite Heq, plus_IZR, mult_IZR. field. lra. }
      rewrite E, Hm', mult_IZR, <- bpow_IZR by exact Hs.
      assert (Eb : bpow ex = bpow s * bpow e' * bpow ey).
      { rewrite <- !bpow_add. f_equal. unfold s. lia. }
      rewrite Eb. pose proof (bpow_pos ey). field. lra.
Qed.

Lemma SFdiv_error (x y : spec_float) :
  SFfinite x -> SFfinite y -> SF2R y <> 0 ->
  (~ SFfinite (SF64div x y) /\ bpow 971 <= Rabs (SF2R x / SF2R y)) \/
  (SFfinite (SF64div x y) /\ rounded (SF2R (SF64div x y)) (SF2R x / SF2R y)).
Proof.
  destruct x as [sx|sx| |sx mx ex], y as [sy|sy| |sy my ey]; cbn [SFfinite];
    try contradiction; intros _ _ Hy; cbn [SFdiv SF64div].
  - right. cbn [SF2R SFfinite]. unfold Rdiv. rewrite Rmult_0_l.
    split; [exact I | apply rounded_refl].
  - unfold SF64div, SFdiv.
    pose proof (SFdiv_core_located mx my ex ey) as Hc.
    destruct (SFdiv_core_binary prec emax (Z.pos mx) ex (Z.pos my) ey) as [[q e'] l].
    destruct Hc as (Hq & He' & x & Hl & Hx).
    pose proof (mantissa_value_pos mx ex) as Px. pose proof (mantissa_value_pos my ey) as Py.
    set (X := IZR (Z.pos mx) * bpow ex) in *. set (Y := IZR (Z.pos my) * bpow ey) in *.
    assert (HXY : 0 < X / Y) by (apply Rdiv_lt_0_compat; assumption).
    assert (T : (if xorb sx sy then - (x * bpow e') else x * bpow e')
                = SF2R (S754_finite sx mx ex) / SF2R (S754_finite sy my ey)).
    { rewrite Hx. cbn [SF2R]. unfold X, Y.
      pose proof (bpow_pos ey) as Pey.
      assert (Pmy : 0 < IZR (Z.pos my)) by (apply IZR_lt; lia).
      destruct sx, sy; cbn [xorb]; field; split; lra. }
    rewrite <- T.
    destruct (round_error (xorb sx sy) q e' l x Hq Hl (or_intror He')) as [[Hinf Hbig] | H].
    + left. rewrite Hinf. split; [intros []|].
      rewrite Hx in Hbig.
      destruct (xorb sx sy); rewrite ?Rabs_Ropp, Rabs_pos_eq; rewrite ?Hx; lra.
    + right. exact H.
Qed.

(** *** Square roots *)

Lemma sqrtrem_located (m' : Z) :
  (0 <= m')%Z ->
  let (q, r) := Z.sqrtrem m' in
  (0 <= q)%Z /\ (m' < (q + 1) * (q + 1))%Z /\
  located (R_sqrt.sqrt (IZR m')) q
          (if (r =? 0)%Z then loc_Exact else loc_Inexact (if (r <=? q)%Z then Lt else Gt)).
Proof.
  intros Hm. pose proof (Z.sqrtrem_spec m' Hm) as H.
  destruct (Z.sqrtrem m') as [q r]. destruct H as [Heq [Hr0 Hr]].
  assert (Hq : (0 <= q)%Z) by lia.
  split; [exact Hq|]. split; [nia|].
  set (y := R_sqrt.sqrt (IZR m')).
  assert (Hy0 : 0 <= y) by apply sqrt_pos.
  assert (Hy2 : y * y = IZR q * IZR q + IZR r).
  { unfold y. rewrite sqrt_sqrt by (apply IZR_le; lia).
    rewrite Heq, plus_IZR, mult_IZR. reflexivity. }
  assert (Q0 : 0 <= IZR q) by (apply IZR_le; lia).
  assert (R0 : 0 <= IZR r) by (apply IZR_le; lia).
  assert (R2 : IZR r <= 2 * IZR q).
  { apply IZR_le in Hr. rewrite mult_IZR in Hr. exact Hr. }
  destruct (Z.eqb_spec r 0) as [->|Hnz].
  - cbv beta iota. unfold located. simpl in Hy2. nra.
  - assert (R1 : 1 <= IZR r) by (apply IZR_le; lia).
    destruct (Z.leb_spec r q) as [Hle|Hgt]; cbv beta iota; unfold located.
    + apply IZR_le in Hle. split; nra.
    + assert (Hgt' : IZR q + 1 <= IZR r).
      { rewrite <- plus_IZR. apply IZR_le. lia. }
      split; nra.
Qed.

Lemma SFsqrt_core_located (mx : positive) (ex : Z) :
  let '(q, e', l) := SFsqrt_core_binary prec emax (Z.pos mx) ex in
  (0 <= q)%Z /\
  (e' <= fexp64 (Zdigits2 q + e'))%Z /\
  located (R_sqrt.sqrt (IZR (Z.pos mx) * bpow ex) * bpow (- e')) q l.
Proof.
  unfold SFsqrt_core_binary.
  set (d := Zdigits2 (Z.pos mx)).
  set (e' := Z.min (fexp64 (Z.div2 (d + ex + 1))) (Z.div2 ex)).
  set (s := (ex - 2 * e')%Z).
  pose proof (Zdiv2_odd_eqn ex) as Hex.
  pose proof (Zdiv2_odd_eqn (d + ex + 1)) as Hde.
  assert (Hs : (0 <= s)%Z).
  { unfold s, e'. destruct (Z.odd ex); lia. }
  set (m' := match s with Z.pos _ => Z.shiftl (Z.pos mx) s | 0%Z => Z.pos mx | Z.neg _ => 0%Z end).
  assert (Hm' : m' = (Z.pos mx * 2 ^ s)%Z).
  { unfold m'. destruct s as [|p|p]; [simpl; lia | apply Z.shiftl_mul_pow2; lia | lia]. }
  assert (Hp : (0 < 2 ^ s)%Z) by (apply Z.pow_pos_nonneg; lia).
  pose proof (sqrtrem_located m' ltac:(nia)) as Hq.
  destruct (Z.sqrtrem m') as [q r]. destruct Hq as (Hq0 & Hlt & Hloc).
  pose proof (digits2_pos_bounds mx) as [Hlo _].
  change (Z.pos (digits2_pos mx)) with d in Hlo.
  assert (Hd : (0 < d)%Z) by (unfold d; simpl; lia).
  pose proof (succ_le_pow_digits q Hq0) as Hdq.
  pose proof (Zdigits2_nonneg q) as Hdq0.
  assert (Hdig : (d + s <= 2 * Zdigits2 q)%Z).
  { assert (H1 : (2 ^ (d - 1 + s) <= m')%Z).
    { rewrite Hm', Z.pow_add_r by lia. nia. }
    assert (H2 : (m' < 2 ^ (2 * Zdigits2 q))%Z).
    { replace (2 * Zdigits2 q)%Z with (Zdigits2 q + Zdigits2 q)%Z by lia.
      rewrite Z.pow_add_r by lia. nia. }
    assert (H3 : (2 ^ (d - 1 + s) < 2 ^ (2 * Zdigits2 q))%Z) by lia.
    apply Z.pow_lt_mono_r_iff in H3; lia. }
  split; [exact Hq0|]. split.
  - apply Z.le_trans with (fexp64 (Z.div2 (d + ex + 1))); [unfold e'; lia|].
    apply fexp64_mono. unfold s in Hdig. destruct (Z.odd (d + ex + 1)); lia.
  - replace (R_sqrt.sqrt (IZR (Z.pos mx) * bpow ex) * bpow (- e'))
      with (R_sqrt.sqrt (IZR m')); [exact Hloc|].
    assert (Eb : bpow ex = bpow s * (bpow e' * bpow e')).
    { rewrite <- !bpow_add. f_equal. unfold s. lia. }
    rewrite Eb, Hm', mult_IZR, <- bpow_IZR by exact Hs.
    pose proof (bpow_pos e') as Pe. pose proof (bpow_pos s) as Ps.
    assert (Pm : 0 < IZR (Z.pos mx)) by (apply IZR_lt; lia).
    replace (IZR (Z.pos mx) * (bpow s * (bpow e' * bpow e')))
      with (IZR (Z.pos mx) * bpow s * (bpow e' * bpow e')) by ring.
    rewrite (sqrt_mult (IZR (Z.pos mx) * bpow s) (bpow e' * bpow e')) by nra.
    rewrite sqrt_square by lra.
    rewrite bpow_opp. field. lra.
Qed.

Lemma SFsqrt_error (x : spec_float) :
  valid_binary x = true -> SFfinite x -> 0 <= SF2R x ->
  SFfinite (SF64sqrt x) /\ rounded (SF2R (SF64sqrt x)) (R_sqrt.sqrt (SF2R x)).
Proof.
  destruct x as [sx|sx| |sx mx ex]; cbn [SFfinite]; try contradiction; intros Hv _ Hx.
  - cbn [SFsqrt SF64sqrt SF2R SFfinite]. rewrite sqrt_0. split; [exact I | apply rounded_refl].
  - pose proof (mantissa_value_pos mx ex) as Px.
    destruct sx.
    { exfalso. cbn [SF2R] in Hx. lra. }
    unfold SF64sqrt, SFsqrt. cbn [SF2R].
    pose proof (SFsqrt_core_located mx ex) as Hc.
    destruct (SFsqrt_core_binary prec emax (Z.pos mx) ex) as [[q e'] l].
    destruct Hc as (Hq & He' & Hl).
    set (X := IZR (Z.pos mx) * bpow ex) in *.
    assert (T : R_sqrt.sqrt X * bpow (- e') * bpow e' = R_sqrt.sqrt X).
    { rewrite Rmult_assoc, <- bpow_add, Z.add_opp_diag_l, bpow_0. ring. }
    destruct (round_error false q e' l _ Hq Hl (or_intror He')) as [[Hinf Hbig] | H].
    + exfalso. rewrite T in Hbig.
      (* the square root of a binary64 is below 2^512 *)
      unfold SpecFloat.valid_binary, bounded in Hv.
      apply andb_true_iff in Hv. destruct Hv as [Hc Hb].
      apply Z.leb_le in Hb. unfold canonical_mantissa in Hc. apply Z.eqb_eq in Hc.
      pose proof (digits2_pos_bounds mx) as [_ Hhi].
      assert (Hd : (Z.pos (digits2_pos mx) + ex <= 1024)%Z).
      { unfold fexp, SpecFloat.emin, prec, emax in *. lia. }
      assert (HX : X < bpow 1024).
      { unfold X. apply IZR_lt in Hhi. rewrite <- bpow_IZR in Hhi by lia.
        pose proof (bpow_pos ex).
        apply Rlt_le_trans with (bpow (Z.pos (digits2_pos mx)) * bpow ex); [nra|].
        rewrite <- bpow_add. apply bpow_le. lia. }
      assert (Hs : R_sqrt.sqrt X < bpow 512).
      { replace (bpow 512) with (R_sqrt.sqrt (bpow 1024)).
        - apply sqrt_lt_1; [lra | apply Rlt_le, bpow_pos | exact HX].
        - replace 1024%Z with (512 + 512)%Z by lia. rewrite bpow_add.
          apply sqrt_square, Rlt_le, bpow_pos. }
      pose proof (bpow_le 512 971 ltac:(lia)). lra.
    + cbv zeta in H. rewrite T in H. exact H.
Qed.

(** *** The order of binary64 is the order of the reals *)

Lemma SFcompare_real (x y : spec_float) :
  valid_binary x = true -> valid_binary y = true -> SFfinite x -> SFfinite y ->
  match SFcompare x y with
  | Some Lt => SF2R x < SF2R y
  | Some Eq => SF2R x = SF2R y
  | Some Gt => SF2R y < SF2R x
  | None => False
  end.
Proof.
  destruct x as [sx|sx| |sx mx ex], y as [sy|sy| |sy my ey]; cbn [SFfinite];
    try contradiction; intros Vx Vy _ _.
  - reflexivity.
  - pose proof (mantissa_value_pos my ey). destruct sy; cbn [SFcompare SF2R]; lra.
  - pose proof (mantissa_value_pos mx ex). destruct sx; cbn [SFcompare SF2R]; lra.
  - unfold SpecFloat.valid_binary in Vx, Vy.
    rewrite (SFcompare_aligned sx mx ex sy my ey Vx Vy).
    set (ez := Z.min ex ey).
    rewrite <- (aligned_real sx mx ex ez), <- (aligned_real sy my ey ez) by (unfold ez; lia).
    pose proof (bpow_pos ez) as Pz.
    destruct (Z.compare_spec (aligned sx mx ex ez) (aligned sy my ey ez)) as [H|H|H].
    + now rewrite H.
    + apply Rmult_lt_compat_r; [exact Pz | now apply IZR_lt].
    + apply Rmult_lt_compat_r; [exact Pz | now apply IZR_lt].
Qed.

Lemma ltb_real (x y : float) :
  PrimFloat.is_finite x = true -> PrimFloat.is_finite y = true ->
  ((x <? y)%float = true <-> B2R x < B2R y).
Proof.
  intros Hx Hy. apply is_finite_SFfinite in Hx, Hy.
  pose proof (SFcompare_real _ _ (Prim2SF_valid x) (Prim2SF_valid y) Hx Hy) as H.
  rewrite ltb_spec. unfold SFltb, B2R.
  destruct (SFcompare (Prim2SF x) (Prim2SF y)) as [[| |]|]; split; intros G;
    try discriminate; try reflexivity; try contradiction; try lra.
Qed.

Lemma leb_real (x y : float) :
  PrimFloat.is_finite x = true -> PrimFloat.is_finite y = true ->
  ((x <=? y)%float = true <-> B2R x <= B2R y).
Proof.
  intros Hx Hy. apply is_finite_SFfinite in Hx, Hy.
  pose proof (SFcompare_real _ _ (Prim2SF_valid x) (Prim2SF_valid y) Hx Hy) as H.
  rewrite leb_spec. unfold SFleb, B2R.
  destruct (SFcompare (Prim2SF x) (Prim2SF y)) as [[| |]|]; split; intros G;
    try discriminate; try reflexivity; try contradiction; try lra.
Qed.

Lemma ltb_false_real (x y : float) :
  PrimFloat.is_finite x = true -> PrimFloat.is_finite y = true ->
  ((x <? y)%float = false <-> B2R y <= B2R x).
Proof.
  intros Hx Hy. pose proof (ltb_real x y Hx Hy) as H.
  destruct (x <? y)%float; split; intros G; try discriminate; try reflexivity.
  - assert (B2R x < B2R y) by now apply H. lra.
  - apply Rnot_lt_le. intros C. apply H in C. discriminate.
Qed.

Lemma B2R_abs (x : float) : B2R (abs x) = Rabs (B2R x).
Proof.
  unfold B2R. rewrite abs_spec.
  destruct (Prim2SF x) as [s|s| |s m e]; cbn [SFabs SF2R]; try (now rewrite Rabs_R0).
  pose proof (mantissa_value_pos m e) as P.
  destruct s.
  - rewrite Ropp_mult_distr_l_reverse, Rabs_Ropp, Rabs_pos_eq; lra.
  - rewrite Rabs_pos_eq; lra.
Qed.

Lemma B2R_opp (x : float) : B2R (- x) = - B2R x.
Proof. unfold B2R. rewrite opp_spec. apply SF2R_opp. Qed.

Lemma opp_finite (x : float) : PrimFloat.is_finite (- x) = PrimFloat.is_finite x.
Proof.
  destruct (PrimFloat.is_finite x) eqn:E.
  - apply is_finite_SFfinite. apply is_finite_SFfinite in E. rewrite opp_spec.
    now apply SFfinite_opp.
  - destruct (PrimFloat.is_finite (- x)) eqn:F; [|reflexivity].
    apply is_finite_SFfinite in F. rewrite opp_spec in F. apply (proj1 (SFfinite_opp _)) in F.
    apply is_finite_SFfinite in F. congruence.
Qed.

(** A number that is not NaN and lies between two finite bounds is finite. *)
Lemma between_finite (b x : float) :
  PrimFloat.is_finite b = true -> PrimFloat.is_nan x = false ->
  (b <? x)%float = false -> (x <? - b)%float = false ->
  PrimFloat.is_finite x = true.
Proof.
  intros Hb Hn Hu Hl. apply is_finite_SFfinite. apply is_finite_SFfinite in Hb.
  apply is_nan_false in Hn. rewrite ltb_spec in Hu, Hl. rewrite opp_spec in Hl.
  destruct (Prim2SF x) as [s|s| |s m e]; cbn [SFfinite]; try exact I; try congruence.
  destruct (Prim2SF b) as [sb|sb| |sb mb eb]; cbn [SFfinite] in Hb; try contradiction;
    destruct s; try discriminate.
Qed.

(** *** Division and square root *)

Lemma div_safe (x y : float) :
  PrimFloat.is_finite x = true -> PrimFloat.is_finite y = true ->
  B2R y <> 0 -> Rabs (B2R x / B2R y) < bpow 971 ->
  PrimFloat.is_finite (x / y) = true /\ rounded (B2R (x / y)) (B2R x / B2R y).
Proof.
  intros Hx Hy Hy0 Hb. apply is_finite_SFfinite in Hx, Hy.
  rewrite is_finite_SFfinite. unfold B2R in *. rewrite div_spec.
  destruct (SFdiv_error _ _ Hx Hy Hy0) as [[_ Hbig] | H]; [lra | exact H].
Qed.

Lemma sqrt_safe (x : float) :
  PrimFloat.is_finite x = true -> 0 <= B2R x ->
  PrimFloat.is_finite (PrimFloat.sqrt x) = true /\
  rounded (B2R (PrimFloat.sqrt x)) (R_sqrt.sqrt (B2R x)).
Proof.
  intros Hx H0. apply is_finite_SFfinite in Hx.
  rewrite is_finite_SFfinite. unfold B2R in *. rewrite sqrt_spec.
  apply SFsqrt_error; [apply Prim2SF_valid | exact Hx | exact H0].
Qed.

(** *** The size of the rounding units *)

Lemma eps64_le : eps64 <= / 9000000000000000.
Proof.
  unfold eps64. change (-53)%Z with (- (53))%Z. rewrite bpow_opp, bpow_IZR by lia.
  change (2 ^ 53)%Z with 9007199254740992%Z.
  apply Rinv_le_contravar; lra.
Qed.

Lemma eta64_le : eta64 <= eps64 * / 1000000000000000000000000.
Proof.
  unfold eta64, eps64. replace (-1075)%Z with (-53 + -1022)%Z by lia. rewrite bpow_add.
  apply Rmult_le_compat_l; [apply Rlt_le, bpow_pos|].
  apply Rle_trans with (bpow (-80)); [apply bpow_le; lia|].
  change (-80)%Z with (- (80))%Z. rewrite bpow_opp, bpow_IZR by lia.
  change (2 ^ 80)%Z with 1208925819614629174706176%Z.
  apply Rinv_le_contravar; lra.
Qed.

(** A rounding of a value of size at most [c] is off by little more than
    [eps64 * c]. *)
Lemma rounded_within (v t c : R) :
  rounded v t -> Rabs t <= c -> / 100000000000000000000 <= c ->
  Rabs (v - t) <= 10001 / 10000 * eps64 * c.
Proof.
  unfold rounded. intros H Ht Hc.
  pose proof eps64_pos as He. pose proof eta64_le as Hn.
  assert (H1 : eps64 * Rabs t <= eps64 * c) by (apply Rmult_le_compat_l; lra).
  assert (H2 : eps64 * / 1000000000000000000000000 <= eps64 * (c * / 10000)).
  { apply Rmult_le_compat_l; lra. }
  lra.
Qed.

Lemma Rabs_mult_le (x y cx cy : R) :
  Rabs x <= cx -> Rabs y <= cy -> Rabs (x * y) <= cx * cy.
Proof.
  intros Hx Hy. rewrite Rabs_mult.
  apply Rmult_le_compat; auto using Rabs_pos.
Qed.

Lemma Rabs_near (x y d c : R) : Rabs (x - y) <= d -> Rabs y <= c -> Rabs x <= c + d.
Proof.
  intros H1 H2. replace x with (y + (x - y)) by ring.
  eapply Rle_trans; [apply Rabs_triang | lra].
Qed.

Lemma Rabs_chain (x y z d1 d2 : R) :
  Rabs (x - y) <= d1 -> Rabs (y - z) <= d2 -> Rabs (x - z) <= d1 + d2.
Proof.
  intros H1 H2. replace (x - z) with ((x - y) + (y - z)) by ring.
  eapply Rle_trans; [apply Rabs_triang | lra].
Qed.

(** *** The root of the quadratic *)

(** The root [estimateThetaFromACF1] picks: it solves [r t^2 - t + r = 0]. *)
Lemma theta_root (r : R) :
  Rabs r <= 4901 / 10000 -> r <> 0 ->
  let s := R_sqrt.sqrt (1 - 4 * r * r) in
  let t := (1 - s) / (2 * r) in
  r = t / (1 + t * t) /\ Rabs t <= 2 * Rabs r /\ t * (1 + s) = 2 * r.
Proof.
  intros Hr Hr0 s t. apply Rabs_le_both in Hr.
  assert (Hd : 0 <= 1 - 4 * r * r) by nra.
  assert (Hs0 : 0 <= s) by apply sqrt_pos.
  assert (Hs : s * s = 1 - 4 * r * r) by (apply sqrt_sqrt; exact Hd).
  assert (H1s : 1 - s = 4 * r * r / (1 + s)).
  { apply Rmult_eq_reg_r with (1 + s); [|lra].
    unfold Rdiv. rewrite Rmult_assoc, Rinv_l, Rmult_1_r by lra. nra. }
  assert (Ht : t = 2 * r / (1 + s)).
  { unfold t. rewrite H1s. field. lra. }
  assert (Htt : 1 + t * t = 2 / (1 + s)).
  { rewrite Ht.
    replace (2 * r / (1 + s) * (2 * r / (1 + s))) with ((4 * r * r / (1 + s)) / (1 + s))
      by (field; lra).
    rewrite <- H1s. field. lra. }
  split; [|split].
  - rewrite Htt, Ht. field. lra.
  - rewrite Ht. unfold Rdiv. rewrite Rabs_mult, Rabs_inv.
    rewrite (Rabs_pos_eq (1 + s)) by lra.
    assert (Hi : / (1 + s) <= 1).
    { rewrite <- Rinv_1. apply Rinv_le_contravar; lra. }
    assert (Hi0 : 0 < / (1 + s)) by (apply Rinv_0_lt_compat; lra).
    rewrite Rabs_mult, (Rabs_pos_eq 2) by lra.
    pose proof (Rabs_pos r). nra.
  - rewrite Ht. field. lra.
Qed.

(** [t / (1 + t^2)] moves no faster than [t]. *)
Lemma ratio_lipschitz (t u : R) :
  Rabs (t / (1 + t * t) - u / (1 + u * u)) <= Rabs (t - u).
Proof.
  set (P := (1 + t * t) * (1 + u * u)).
  assert (HP : 0 < P) by (unfold P; nra).
  assert (E : t / (1 + t * t) - u / (1 + u * u) = (t - u) * ((1 - t * u) / P)).
  { unfold P. field. split; nra. }
  rewrite E, Rabs_mult.
  assert (H : Rabs ((1 - t * u) / P) <= 1).
  { unfold Rdiv. rewrite Rabs_mult, Rabs_inv, (Rabs_pos_eq P) by lra.
    apply Rmult_le_reg_r with P; [exact HP|].
    rewrite Rmult_assoc, Rinv_l, Rmult_1_r, Rmult_1_l by lra.
    apply Rabs_le. unfold P. split; nra. }
  pose proof (Rabs_pos (t - u)). nra.
Qed.

Lemma sqrt_close (d D c delta : R) :
  0 < c -> c * c <= d -> c * c <= D -> Rabs (d - D) <= delta ->
  c <= R_sqrt.sqrt d /\ c <= R_sqrt.sqrt D /\
  Rabs (R_sqrt.sqrt d - R_sqrt.sqrt D) * (2 * c) <= delta.
Proof.
  intros Hc Hd HD H.
  assert (Hcc : 0 <= c * c) by nra.
  assert (X : c <= R_sqrt.sqrt d).
  { rewrite <- (sqrt_square c) by lra. apply sqrt_le_1; lra. }
  assert (Y : c <= R_sqrt.sqrt D).
  { rewrite <- (sqrt_square c) by lra. apply sqrt_le_1; lra. }
  split; [exact X|]. split; [exact Y|].
  set (x := R_sqrt.sqrt d) in *. set (y := R_sqrt.sqrt D) in *.
  assert (Ex : x * x = d) by (apply sqrt_sqrt; lra).
  assert (Ey : y * y = D) by (apply sqrt_sqrt; lra).
  apply Rabs_le_both in H.
  assert (F : (x - y) * (x + y) = d - D) by nra.
  unfold Rabs. destruct (Rcase_abs (x - y)); nra.
Qed.

(** *** The roundings of [estimateThetaFromACF1], one after the other *)

Lemma step_a (r a : R) :
  Rabs r <= 4901 / 10000 -> rounded a (4 * r) ->
  Rabs (4 * r) <= 2 /\ Rabs (a - 4 * r) <= 2 * eps64.
Proof.
  intros Hr Ha. pose proof eps64_pos as He.
  assert (H4 : Rabs (4 * r) <= 19604 / 10000).
  { rewrite Rabs_mult, (Rabs_pos_eq 4) by lra. lra. }
  pose proof (rounded_within _ _ _ Ha H4 ltac:(lra)). split; lra.
Qed.

Lemma step_q (r a q : R) :
  Rabs r <= 4901 / 10000 -> Rabs (a - 4 * r) <= 2 * eps64 -> rounded q (a * r) ->
  Rabs (a * r) <= 1 /\ Rabs (q - 4 * r * r) <= 2 * eps64.
Proof.
  intros Hr Ha Hq. pose proof eps64_pos as He. pose proof eps64_le as Hs.
  assert (H4 : Rabs (4 * r) <= 19604 / 10000).
  { rewrite Rabs_mult, (Rabs_pos_eq 4) by lra. lra. }
  assert (Ha' : Rabs a <= 19605 / 10000).
  { pose proof (Rabs_near _ _ _ _ Ha H4). lra. }
  pose proof (Rabs_mult_le _ _ _ _ Ha' Hr) as Har.
  pose proof (rounded_within _ _ _ Hq Har ltac:(lra)) as H1.
  assert (H2 : Rabs (a * r - 4 * r * r) <= 2 * eps64 * (4901 / 10000)).
  { replace (a * r - 4 * r * r) with ((a - 4 * r) * r) by ring.
    apply Rabs_mult_le; assumption. }
  pose proof (Rabs_chain _ _ _ _ _ H1 H2). split; lra.
Qed.

Lemma step_d (r q d : R) :
  Rabs r <= 4901 / 10000 -> Rabs (q - 4 * r * r) <= 2 * eps64 -> rounded d (1 - q) ->
  Rabs (1 - q) <= 2 /\
  Rabs (d - (1 - 4 * r * r)) <= 31 / 10 * eps64 /\ 39204 / 1000000 <= d <= 2.
Proof.
  intros Hr Hq Hd. pose proof eps64_pos as He. pose proof eps64_le as Hs.
  apply Rabs_le_both in Hr.
  assert (Hrr : 0 <= 4 * r * r <= 96079204 / 100000000) by nra.
  assert (H1 : Rabs (1 - q) <= 10001 / 10000).
  { apply Rabs_le_both in Hq. apply Rabs_le. lra. }
  pose proof (rounded_within _ _ _ Hd H1 ltac:(lra)) as H2.
  assert (H3 : Rabs ((1 - q) - (1 - 4 * r * r)) <= 2 * eps64).
  { replace ((1 - q) - (1 - 4 * r * r)) with (- (q - 4 * r * r)) by ring.
    now rewrite Rabs_Ropp. }
  pose proof (Rabs_chain _ _ _ _ _ H2 H3) as H4.
  split; [lra|]. split; [lra|].
  apply Rabs_le_both in H4. lra.
Qed.

Lemma step_s (r d s : R) :
  Rabs r <= 4901 / 10000 ->
  Rabs (d - (1 - 4 * r * r)) <= 31 / 10 * eps64 -> 39204 / 1000000 <= d ->
  rounded s (R_sqrt.sqrt d) ->
  let S := R_sqrt.sqrt (1 - 4 * r * r) in
  198 / 1000 <= S <= 1 /\ Rabs (s - S) <= 9 * eps64.
Proof.
  intros Hr Hd Hd0 Hs S. pose proof eps64_pos as He. pose proof eps64_le as Hl.
  apply Rabs_le_both in Hr.
  assert (Hrr : 0 <= 4 * r * r <= 96079204 / 100000000) by nra.
  destruct (sqrt_close d (1 - 4 * r * r) (198 / 1000) _ ltac:(lra) ltac:(lra) ltac:(lra) Hd)
    as (Hx & Hy & Hc).
  fold S in Hy, Hc.
  assert (HS1 : S <= 1).
  { unfold S. rewrite <- sqrt_1 at 2. apply sqrt_le_1; lra. }
  assert (Hc' : Rabs (R_sqrt.sqrt d - S) <= 8 * eps64).
  { pose proof (Rabs_pos (R_sqrt.sqrt d - S)). lra. }
  assert (Hsd : Rabs (R_sqrt.sqrt d) <= 10001 / 10000).
  { apply Rabs_le_both in Hc'. rewrite Rabs_pos_eq by lra. lra. }
  pose proof (rounded_within _ _ _ Hs Hsd ltac:(lra)) as H1.
  assert (H2 : Rabs (R_sqrt.sqrt d - S) <= 31 / 10 * eps64 / (396 / 1000)).
  { apply Rmult_le_reg_r with (2 * (198 / 1000)); [lra|].
    eapply Rle_trans; [exact Hc|]. right. field. }
  pose proof (Rabs_chain _ _ _ _ _ H1 H2). split; lra.
Qed.

Lemma step_u (s S u : R) :
  198 / 1000 <= S <= 1 -> Rabs (s - S) <= 9 * eps64 -> rounded u (1 - s) ->
  Rabs (1 - s) <= 1 /\ Rabs (u - (1 - S)) <= 10 * eps64.
Proof.
  intros HS Hs Hu. pose proof eps64_pos as He. pose proof eps64_le as Hl.
  assert (H1 : Rabs (1 - s) <= 803 / 1000).
  { apply Rabs_le_both in Hs. apply Rabs_le. lra. }
  pose proof (rounded_within _ _ _ Hu H1 ltac:(lra)) as H2.
  assert (H3 : Rabs ((1 - s) - (1 - S)) <= 9 * eps64).
  { replace ((1 - s) - (1 - S)) with (- (s - S)) by ring. now rewrite Rabs_Ropp. }
  pose proof (Rabs_chain _ _ _ _ _ H2 H3). split; lra.
Qed.

Lemma step_b (r b : R) :
  99 / 100000000 <= Rabs r <= 4901 / 10000 -> rounded b (2 * r) ->
  Rabs (2 * r) <= 1 /\ Rabs (b - 2 * r) <= 20002 / 10000 * eps64 * Rabs r.
Proof.
  intros Hr Hb. pose proof eps64_pos as He.
  assert (H2 : Rabs (2 * r) <= 2 * Rabs r).
  { rewrite Rabs_mult, (Rabs_pos_eq 2) by lra. lra. }
  pose proof (rounded_within _ _ _ Hb H2 ltac:(lra)). split; lra.
Qed.

Lemma bpow_50 : bpow (-50) = 8 * eps64.
Proof.
  unfold eps64. replace (-50)%Z with (3 + -53)%Z by lia. rewrite bpow_add.
  f_equal. rewrite bpow_IZR by lia. reflexivity.
Qed.

Lemma step_t (r u b : R) :
  99 / 100000000 <= Rabs r <= 4901 / 10000 ->
  Rabs (u - (1 - R_sqrt.sqrt (1 - 4 * r * r))) <= 10 * eps64 ->
  Rabs (b - 2 * r) <= 20002 / 10000 * eps64 * Rabs r ->
  b <> 0 /\ Rabs (u / b) <= 1 /\
  forall t : R, rounded t (u / b) ->
    Rabs t <= 985 / 1000 /\
    Rabs (r - t / (1 + t * t)) <= bpow (-50) / Rabs r.
Proof.
  intros Hr Hu Hb. pose proof eps64_pos as He. pose proof eps64_le as Hl.
  set (R := Rabs r) in *.
  assert (Hr0 : r <> 0).
  { intros E. unfold R in Hr. rewrite E, Rabs_R0 in Hr. lra. }
  destruct (theta_root r (proj2 Hr) Hr0) as (Hroot & Hth & _).
  set (S := R_sqrt.sqrt (1 - 4 * r * r)) in *.
  set (th := (1 - S) / (2 * r)) in *. fold R in Hth.
  assert (HS : 198 / 1000 <= S <= 1).
  { assert (Hrr : 0 <= 4 * r * r <= 96079204 / 100000000).
    { destruct Hr as [_ Hr]. apply Rabs_le_both in Hr. nra. }
    split.
    - unfold S. rewrite <- (sqrt_square (198 / 1000)) by lra. apply sqrt_le_1; lra.
    - unfold S. rewrite <- sqrt_1 at 2. apply sqrt_le_1; lra. }
  assert (H2r : Rabs (2 * r) = 2 * R).
  { unfold R. rewrite Rabs_mult, (Rabs_pos_eq 2) by lra. reflexivity. }
  (* the divisor *)
  assert (HeR : eps64 * R <= / 10000 * R).
  { apply Rmult_le_compat_r; lra. }
  assert (Hbl : 19999 / 10000 * R <= Rabs b).
  { assert (T : Rabs (2 * r) <= Rabs b + Rabs (b - 2 * r)).
    { replace (2 * r) with (b - (b - 2 * r)) at 1 by ring.
      eapply Rle_trans; [apply Rabs_triang|]. rewrite Rabs_Ropp. lra. }
    rewrite H2r in T.
    assert (eps64 * R <= / 100000 * R) by (apply Rmult_le_compat_r; lra).
    lra. }
  assert (Hb0 : b <> 0).
  { intros E. rewrite E, Rabs_R0 in Hbl. lra. }
  (* the quotient before its rounding *)
  set (N := (u - (1 - S)) * (2 * r) - (1 - S) * (b - 2 * r)).
  assert (HN : Rabs N <= 2161 / 100 * eps64 * R).
  { unfold N.
    assert (N1 : Rabs ((u - (1 - S)) * (2 * r)) <= 10 * eps64 * (2 * R)).
    { apply Rabs_mult_le; [exact Hu | rewrite H2r; lra]. }
    assert (N2 : Rabs ((1 - S) * (b - 2 * r)) <= 802 / 1000 * (20002 / 10000 * eps64 * R)).
    { apply Rabs_mult_le; [apply Rabs_le; lra | exact Hb]. }
    eapply Rle_trans; [apply Rabs_triang|]. rewrite Rabs_Ropp.
    assert (0 <= eps64 * R) by (apply Rmult_le_pos; lra). lra. }
  assert (EN : (u / b - th) * (b * (2 * r)) = N).
  { unfold N, th. field. split; assumption. }
  set (X := Rabs (u / b - th)).
  assert (HX0 : 0 <= X) by apply Rabs_pos.
  assert (HXN : X * (Rabs b * (2 * R)) = Rabs N).
  { rewrite <- EN, Rabs_mult, Rabs_mult, H2r. reflexivity. }
  assert (HXR : X * R <= 541 / 100 * eps64).
  { apply Rmult_le_reg_r with (39998 / 10000 * R); [lra|].
    apply Rle_trans with (X * (Rabs b * (2 * R))).
    - replace (X * R * (39998 / 10000 * R)) with (X * (19999 / 10000 * R * (2 * R))) by field.
      apply Rmult_le_compat_l; [exact HX0|].
      apply Rmult_le_compat_r; lra.
    - rewrite HXN. assert (0 <= eps64 * R) by (apply Rmult_le_pos; lra). lra. }
  assert (HXs : X <= / 1000).
  { apply Rmult_le_reg_r with R; [lra|].
    apply Rle_trans with (541 / 100 * eps64); [exact HXR|]. lra. }
  assert (Hq : Rabs (u / b) <= 982 / 1000).
  { pose proof (Rabs_near _ _ _ _ (Rle_trans _ _ _ (Rle_refl X) HXs) Hth). lra. }
  split; [exact Hb0|]. split; [lra|].
  intros t Ht.
  pose proof (rounded_within _ _ _ Ht Hq ltac:(lra)) as H1.
  assert (Hd : Rabs (t - th) <= Rabs (t - u / b) + X).
  { apply (Rabs_chain t (u / b) th); apply Rle_refl. }
  split.
  - pose proof (Rabs_near _ _ _ _ H1 Hq). lra.
  - rewrite Hroot at 1.
    eapply Rle_trans; [apply ratio_lipschitz|].
    rewrite Rabs_minus_sym. rewrite bpow_50.
    apply Rmult_le_reg_r with R; [lra|].
    unfold Rdiv. rewrite Rmult_assoc, Rinv_l, Rmult_1_r by lra.
    assert (T : Rabs (t - u / b) * R <= 10001 / 10000 * eps64 * (982 / 1000) * (4901 / 10000)).
    { apply Rmult_le_compat; [apply Rabs_pos | lra | exact H1 | lra]. }
    assert (Rabs (t - th) * R <= Rabs (t - u / b) * R + X * R).
    { rewrite <- Rmult_plus_distr_r. apply Rmult_le_compat_r; lra. }
    lra.
Qed.

(** The tolerance of the root, at its largest. *)
Lemma tolerance_small (x : R) :
  99 / 100000000 <= x -> bpow (-50) / x <= / 1000000000.
Proof.
  intros Hx. rewrite bpow_50. pose proof eps64_pos as He. pose proof eps64_le as Hl.
  apply Rmult_le_reg_r with x; [lra|].
  unfold Rdiv. rewrite Rmult_assoc, Rinv_l, Rmult_1_r by lra.
  assert (H : / 9000000000000000 * 8 <= / 1000000000 * (99 / 100000000)) by lra.
  nra.
Qed.

Lemma eps64_small : eps64 <= / 8.
Proof.
  unfold eps64. apply Rle_trans with (bpow (-3)); [apply bpow_le; lia|].
  unfold bpow. simpl. lra.
Qed.

(** A relative error bound in terms of the computed value. *)
Lemma error_of_result (v t : R) :
  rounded v t -> Rabs (v - t) <= 2 * eps64 * Rabs v + 2 * eta64.
Proof.
  unfold rounded. intros H. pose proof eps64_pos. pose proof eps64_small. pose proof eta64_pos.
  assert (Ht : Rabs t <= Rabs v + Rabs (v - t)).
  { replace t with (v - (v - t)) at 1 by ring. unfold Rminus at 1.
    eapply Rle_trans; [apply Rabs_triang|]. rewrite Rabs_Ropp. lra. }
  pose proof (Rabs_pos (v - t)). pose proof (Rabs_pos v). pose proof (Rabs_pos t).
  set (d := Rabs (v - t)) in *. set (a := Rabs v) in *. set (b := Rabs t) in *.
  assert (eps64 * b <= eps64 * a + eps64 * d) by nra.
  assert (eps64 * d <= d / 8) by nra.
  assert (eps64 * a >= 0) by nra.
  lra.
Qed.

Lemma criteria_within (A lnv k twok : float) (K : R) :
  B2R k = K -> 0 <= K -> B2R twok = 2 * K ->
  PrimFloat.is_finite (A + twok) = true ->
  PrimFloat.is_finite (A + k * lnv) = true ->
  criteria_agree K (A + twok) (A + k * lnv) lnv.
Proof.
  intros Hk HK H2k HA HB. unfold criteria_agree.
  destruct (add_finite_inv _ _ HB) as [_ HQ].
  pose proof (error_of_result _ _ (add_error _ _ HB)) as E1.
  pose proof (error_of_result _ _ (add_error _ _ HA)) as E2.
  pose proof (mul_error _ _ HQ) as E3. unfold rounded in E3.
  rewrite Hk in E3. rewrite H2k in E2.
  set (a := B2R A) in *. set (q := B2R (k * lnv)) in *. set (l := B2R lnv) in *.
  set (Bv := B2R (A + k * lnv)) in *. set (Av := B2R (A + twok)) in *.
  replace (Bv - (Av + K * (l - 2))) with ((Bv - (a + q)) - (Av - (a + 2 * K)) + (q - K * l))
    by ring.
  eapply Rle_trans; [apply Rabs_triang|].
  eapply Rle_trans; [apply Rplus_le_compat_r; unfold Rminus at 1; apply Rabs_triang|].
  rewrite Rabs_Ropp.
  rewrite Rabs_mult, (Rabs_pos_eq K) in E3 by exact HK.
  pose proof eps64_pos. pose proof eta64_pos.
  pose proof (Rabs_pos l).
  assert (0 <= eps64 * (K * Rabs l)) by (apply Rmult_le_pos; [lra | apply Rmult_le_pos; lra]).
  lra.
Qed.

(** The real value of a closed binary64. *)
Ltac closed_B2R :=
  unfold B2R;
  match goal with
  | |- context [Prim2SF ?x] =>
      let v := eval vm_compute in (Prim2SF x) in change (Prim2SF x) with v
  end;
  cbn [SF2R];
  repeat match goal with
  | |- context [bpow (Z.neg ?p)] =>
      change (bpow (Z.neg p)) with (bpow (- Z.pos p));
      rewrite (bpow_opp (Z.pos p)), (bpow_IZR (Z.pos p)) by lia;
      let w := eval vm_compute in (2 ^ Z.pos p)%Z in change (2 ^ Z.pos p)%Z with w
  | |- context [bpow (Z.pos ?p)] =>
      rewrite (bpow_IZR (Z.pos p)) by lia;
      let w := eval vm_compute in (2 ^ Z.pos p)%Z in change (2 ^ Z.pos p)%Z with w
  | |- context [bpow 0] => rewrite bpow_0
  end.

Lemma B2R_2 : B2R 2 = 2. Proof. closed_B2R. lra. Qed.
Lemma B2R_3 : B2R 3 = 3. Proof. closed_B2R. lra. Qed.
Lemma B2R_4 : B2R 4 = 4. Proof. closed_B2R. lra. Qed.
Lemma B2R_6 : B2R 6 = 6. Proof. closed_B2R. lra. Qed.

(** *** The literals of [estimateThetaFromACF1] *)

Lemma B2R_lit_0 : B2R (js_lit 0) = 0.
Proof. closed_B2R. reflexivity. Qed.

Lemma B2R_lit_1 : B2R (js_lit 1) = 1.
Proof. closed_B2R. lra. Qed.

Lemma B2R_lit_2 : B2R (js_lit 2) = 2.
Proof. closed_B2R. lra. Qed.

Lemma B2R_lit_4 : B2R (js_lit 4) = 4.
Proof. closed_B2R. lra. Qed.

Lemma B2R_lit_049 : 0 < B2R (js_lit 0.49) <= 4901 / 10000.
Proof. closed_B2R. lra. Qed.

Lemma B2R_lit_099 : 989 / 1000 <= B2R (js_lit 0.99).
Proof. closed_B2R. lra. Qed.

Lemma B2R_lit_1e6 : 99 / 100000000 <= B2R (js_lit 1e-6).
Proof. closed_B2R. lra. Qed.

Lemma bpow_971_large : 1000 <= bpow 971.
Proof.
  apply Rle_trans with (bpow 10); [|apply bpow_le; lia].
  rewrite bpow_IZR by lia. change (2 ^ 10)%Z with 1024%Z. lra.
Qed.

Lemma opp_opp (x : float) : (- - x)%float = x.
Proof.
  apply Prim2SF_inj. rewrite !opp_spec.
  destruct (Prim2SF x) as [s|s| |s m e]; cbn [SFopp]; rewrite ?negb_involutive; reflexivity.
Qed.

Lemma abs_opp (x : float) : abs (- x) = abs x.
Proof.
  apply Prim2SF_inj. rewrite !abs_spec, opp_spec.
  destruct (Prim2SF x) as [s|s| |s m e]; reflexivity.
Qed.

Lemma positive_opp (x : float) :
  (0 <? x)%float = true ->
  (0 <=? x)%float = true /\ (0 <? - x)%float = false /\ (0 <=? - x)%float = false.
Proof.
  intros H. split; [now apply ltb_leb|].
  rewrite ltb_spec in H. rewrite ltb_spec, leb_spec, opp_spec. rewrite Prim2SF_zero in *.
  destruct (Prim2SF x) as [s|s| |s m e]; try discriminate;
    destruct s; try discriminate; split; reflexivity.
Qed.

End Rounding.

Import Rounding.

(** ** Properties that hold up to rounding *)

Section RoundedProps.

Context {L : Libm}.
Local Open Scope js_scope.

(** *** The two information criteria *)

(** [Math.max(1, nEff)] is [nEff] once there is a residual. *)
Lemma js_max_1_of_nat (n : nat) :
  (1 <= n)%nat -> (Z.of_nat n < 2 ^ 32)%Z ->
  Math_max #1 (of_nat n) = @of_nat float (float_Num L) n.
Proof.
  intros Hn Hlt. cbn [Math_max float_Num]. rewrite of_nat_Z2float.
  change (#1 : float) with (Z2float 1).
  destruct (Nat.eq_dec n 1) as [->|Hne]; [reflexivity|].
  assert (H : PrimFloat.ltb (Z2float 1) (Z2float (Z.of_nat n)) = true)
    by (apply Z2float_increasing; lia).
  unfold js_max. destruct (ltb_not_nan _ _ H) as [H1 H2].
  now rewrite H1, H2, H.
Qed.

(** Two criteria computed from the same likelihood term agree. *)
Lemma criteria_agree_2 (A lnv : float) :
  PrimFloat.is_finite (A + #2 * #2) = true ->
  PrimFloat.is_finite (A + #2 * lnv) = true ->
  criteria_agree 2 (A + #2 * #2) (A + #2 * lnv) lnv.
Proof.
  intros HA HB. apply criteria_within; try assumption; [apply B2R_2 | lra |].
  transitivity (B2R 4); [reflexivity | rewrite B2R_4; lra].
Qed.

Lemma criteria_agree_3 (A lnv : float) :
  PrimFloat.is_finite (A + #2 * #3) = true ->
  PrimFloat.is_finite (A + #3 * lnv) = true ->
  criteria_agree 3 (A + #2 * #3) (A + #3 * lnv) lnv.
Proof.
  intros HA HB. apply criteria_within; try assumption; [apply B2R_3 | lra |].
  transitivity (B2R 6); [reflexivity | rewrite B2R_6; lra].
Qed.

Lemma AR1_criteria (prices : list float) :
  (Z.of_nat (length prices) < 2 ^ 32)%Z -> (3 <= length prices)%nat ->
  let fit := fitAR1OnDiff prices in
  let nEff := length (ar_residuals fit) in
  let logL :=
    - #0.5 * of_nat nEff * (Math_log (#2 * Math_PI) + Math_log (ar_sigma2 fit) + #1) in
  nEff = (length prices - 2)%nat /\
  ar_AIC fit = - #2 * logL + #2 * #2 /\
  ar_BIC fit = - #2 * logL + #2 * Math_log (of_nat nEff) /\
  (isFinite (ar_AIC fit) = true -> isFinite (ar_BIC fit) = true ->
   criteria_agree 2 (ar_AIC fit) (ar_BIC fit) (Math_log (of_nat nEff))).
Proof.
  intros Hsize Hlen fit nEff.
  assert (Hres : nEff = (length prices - 2)%nat).
  { destruct (fitAR1OnDiff_closed_form prices Hlen) as (_ & _ & H & _). exact H. }
  revert Hres. unfold nEff, fit, fitAR1OnDiff.
  destruct (Nat.ltb_spec (length prices) 3) as [Hlt|_]; [lia|].
  cbn [ar_residuals ar_sigma2 ar_AIC ar_BIC]. intros Hres. rewrite Hres.
  rewrite js_max_1_of_nat by lia. cbv zeta.
  split; [reflexivity|]. split; [reflexivity|]. split; [reflexivity|].
  apply criteria_agree_2.
Qed.

Lemma MA1_criteria (prices : list float) :
  (Z.of_nat (length prices) < 2 ^ 32)%Z -> (3 <= length prices)%nat ->
  let fit := fitMA1OnDiff prices in
  let nEff := length (ma_residuals fit) in
  let logL :=
    - #0.5 * of_nat nEff * (Math_log (#2 * Math_PI) + Math_log (ma_sigma2 fit) + #1) in
  nEff = (length prices - 1)%nat /\
  ma_AIC fit = - #2 * logL + #2 * #2 /\
  ma_BIC fit = - #2 * logL + #2 * Math_log (of_nat nEff) /\
  (isFinite (ma_AIC fit) = true -> isFinite (ma_BIC fit) = true ->
   criteria_agree 2 (ma_AIC fit) (ma_BIC fit) (Math_log (of_nat nEff))).
Proof.
  intros Hsize Hlen fit nEff.
  assert (Hres : nEff = (length prices - 1)%nat)
    by (apply fitMA1OnDiff_residual_count; exact Hlen).
  revert Hres. unfold nEff, fit, fitMA1OnDiff.
  destruct (Nat.ltb_spec (length prices) 3) as [Hlt|_]; [lia|].
  cbn [ma_residuals ma_sigma2 ma_AIC ma_BIC]. intros Hres. rewrite Hres.
  rewrite js_max_1_of_nat by lia. cbv zeta.
  split; [reflexivity|]. split; [reflexivity|]. split; [reflexivity|].
  apply criteria_agree_2.
Qed.

Lemma ARMA11_criteria (prices : list float) :
  (Z.of_nat (length prices) < 2 ^ 32)%Z -> (4 <= length prices)%nat ->
  let fit := fitARMA11OnDiff prices in
  let nEff := length (arma_residuals fit) in
  let logL :=
    - #0.5 * of_nat nEff * (Math_log (#2 * Math_PI) + Math_log (arma_sigma2 fit) + #1) in
  nEff = (length prices - 2)%nat /\
  arma_AIC fit = - #2 * logL + #2 * #3 /\
  arma_BIC fit = - #2 * logL + #3 * Math_log (of_nat nEff) /\
  (isFinite (arma_AIC fit) = true -> isFinite (arma_BIC fit) = true ->
   criteria_agree 3 (arma_AIC fit) (arma_BIC fit) (Math_log (of_nat nEff))).
Proof.
  intros Hsize Hlen fit nEff.
  assert (Hres : nEff = (length prices - 2)%nat)
    by (apply fitARMA11OnDiff_residual_count; exact Hlen).
  revert Hres. unfold nEff, fit, fitARMA11OnDiff.
  destruct (Nat.ltb_spec (length prices) 4) as [Hlt|_]; [lia|].
  destruct (arma11_search (demeanedReturns prices)) as [[bestPhi bestTheta] bestSigma2].
  cbn [arma_residuals arma_sigma2 arma_AIC arma_BIC]. intros Hres. rewrite Hres.
  rewrite js_max_1_of_nat by lia. cbv zeta.
  split; [reflexivity|]. split; [reflexivity|]. split; [reflexivity|].
  apply criteria_agree_3.
Qed.

(** C3: on binary64, each fitter that passes its guard (3 prices for
    fitAR1OnDiff and fitMA1OnDiff, 4 for fitARMA11OnDiff; fewer than 2^32
    prices, as every array has) keeps nEff >= 1 residuals and computes
    AIC = -2 logL + 2 k and BIC = -2 logL + k ln(nEff) from the same
    logL = -0.5 nEff (ln(2 pi) + ln(sigma2) + 1), with k = 2, 2 and 3 and
    ln the host's Math.log.  Whenever both criteria are finite they satisfy
    BIC = AIC + k (ln(nEff) - 2) up to the rounding of the two sums and of
    the product: as real numbers the two sides differ by at most
    2^-52 (|AIC| + |BIC| + k |ln(nEff)|) + 2^-1072.  The rounded results are
    not equal in general. *)
Theorem information_criteria_identity (prices : list float) :
  (Z.of_nat (length prices) < 2 ^ 32)%Z ->
  ((3 <= length prices)%nat ->
   let fit := fitAR1OnDiff prices in
   let nEff := length (ar_residuals fit) in
   let logL :=
     - #0.5 * of_nat nEff * (Math_log (#2 * Math_PI) + Math_log (ar_sigma2 fit) + #1) in
   nEff = (length prices - 2)%nat /\
   ar_AIC fit = - #2 * logL + #2 * #2 /\
   ar_BIC fit = - #2 * logL + #2 * Math_log (of_nat nEff) /\
   (isFinite (ar_AIC fit) = true -> isFinite (ar_BIC fit) = true ->
    criteria_agree 2 (ar_AIC fit) (ar_BIC fit) (Math_log (of_nat nEff)))) /\
  ((3 <= length prices)%nat ->
   let fit := fitMA1OnDiff prices in
   let nEff := length (ma_residuals fit) in
   let logL :=
     - #0.5 * of_nat nEff * (Math_log (#2 * Math_PI) + Math_log (ma_sigma2 fit) + #1) in
   nEff = (length prices - 1)%nat /\
   ma_AIC fit = - #2 * logL + #2 * #2 /\
   ma_BIC fit = - #2 * logL + #2 * Math_log (of_nat nEff) /\
   (isFinite (ma_AIC fit) = true -> isFinite (ma_BIC fit) = true ->
    criteria_agree 2 (ma_AIC fit) (ma_BIC fit) (Math_log (of_nat nEff)))) /\
  ((4 <= length prices)%nat ->
   let fit := fitARMA11OnDiff prices in
   let nEff := length (arma_residuals fit) in
   let logL :=
     - #0.5 * of_nat nEff * (Math_log (#2 * Math_PI) + Math_log (arma_sigma2 fit) + #1) in
   nEff = (length prices - 2)%nat /\
   arma_AIC fit = - #2 * logL + #2 * #3 /\
   arma_BIC fit = - #2 * logL + #3 * Math_log (of_nat nEff) /\
   (isFinite (arma_AIC fit) = true -> isFinite (arma_BIC fit) = true ->
    criteria_agree 3 (arma_AIC fit) (arma_BIC fit) (Math_log (of_nat nEff)))).
Proof.
  intros Hsize. split; [|split]; intros Hlen.
  - now apply AR1_criteria.
  - now apply MA1_criteria.
  - now apply ARMA11_criteria.
Qed.

(** *** The root that estimateThetaFromACF1 picks *)

(** The clamp of a finite [rho1] is a finite number between the two bounds. *)
Lemma clamp_real (rho1 : float) :
  PrimFloat.is_finite rho1 = true ->
  let r : float := Math_max (- #0.49) (Math_min #0.49 rho1) in
  PrimFloat.is_finite r = true /\ (Rabs (B2R r) <= 4901 / 10000)%R.
Proof.
  intros Hfin r. unfold r. cbn [Math_max Math_min nneg lit float_Num].
  set (c := js_lit 0.49).
  assert (Hc0 : PrimFloat.is_finite c = true) by reflexivity.
  assert (Hc1 : PrimFloat.is_nan c = false) by reflexivity.
  assert (Hc2 : PrimFloat.get_sign c = false) by reflexivity.
  assert (Hc3 : PrimFloat.get_sign (- c)%float = true) by reflexivity.
  assert (Hc4 : (c <? - c)%float = false) by reflexivity.
  destruct (clamp_between c rho1 Hc1 (is_finite_not_nan _ Hfin) Hc2 Hc3 Hc4)
    as (Hrn & Hru & Hrl).
  set (x := js_max (- c) (js_min c rho1)) in *.
  assert (Hx : PrimFloat.is_finite x = true) by (apply (between_finite c); assumption).
  split; [exact Hx|].
  apply ltb_false_real in Hru; [|exact Hc0 | exact Hx].
  apply ltb_false_real in Hrl; [|exact Hx | now rewrite opp_finite].
  rewrite B2R_opp in Hrl. pose proof B2R_lit_049 as H49. fold c in H49.
  apply Rabs_le. lra.
Qed.

(** What [estimateThetaFromACF1] returns for a finite [rho1], against the
    equation it solves: the seven roundings from [r] to the root are
    followed one by one. *)
Lemma estimateTheta_root (rho1 : float) :
  PrimFloat.is_finite rho1 = true ->
  let r : float := Math_max (- #0.49) (Math_min #0.49 rho1) in
  let theta : float := estimateThetaFromACF1 rho1 in
  PrimFloat.is_finite theta = true /\
  (Rabs (B2R theta) <= 985 / 1000)%R /\
  ((Math_abs r <? #1e-6) = true -> theta = #0) /\
  ((Math_abs r <? #1e-6) = false ->
   (Rabs (B2R r - B2R theta / (1 + B2R theta * B2R theta)) <= bpow (-50) / Rabs (B2R r)
    <= / 1000000000)%R).
Proof.
  intros Hfin r theta.
  destruct (clamp_real rho1 Hfin) as [Hr Hhi]. fold r in Hr, Hhi.
  unfold theta, estimateThetaFromACF1. fold r.
  destruct (Math_abs r <? #1e-6) eqn:Hsmall.
  { split; [reflexivity|]. split.
    - cbn [lit float_Num]. rewrite B2R_lit_0, Rabs_R0. lra.
    - split; [reflexivity | discriminate]. }
  cbn [Math_abs Math_sqrt Math_sign nltb nleb nsub nadd nmul ndiv lit float_Num] in *.
  assert (Hlo : (99 / 100000000 <= Rabs (B2R r))%R).
  { apply ltb_false_real in Hsmall; [|now rewrite abs_finite | reflexivity].
    rewrite B2R_abs in Hsmall. pose proof B2R_lit_1e6. lra. }
  pose proof bpow_971_large as Hbig.
  assert (F1 : PrimFloat.is_finite (js_lit 1) = true) by reflexivity.
  assert (F2 : PrimFloat.is_finite (js_lit 2) = true) by reflexivity.
  assert (F4 : PrimFloat.is_finite (js_lit 4) = true) by reflexivity.
  (* 4 * r *)
  set (a := (js_lit 4 * r)%float).
  assert (Ha0 : (Rabs (4 * B2R r) <= 2)%R).
  { rewrite Rabs_mult, (Rabs_pos_eq 4) by lra. lra. }
  destruct (mul_safe (js_lit 4) r F4 Hr) as [Fa Ra]; [rewrite B2R_lit_4; lra|].
  fold a in Fa, Ra. rewrite B2R_lit_4 in Ra.
  destruct (step_a _ _ Hhi Ra) as [_ Ea].
  (* 4 * r * r *)
  set (q := (a * r)%float).
  assert (Hq0 : (Rabs (B2R a * B2R r) <= 1)%R).
  { destruct (step_q (B2R r) (B2R a) (B2R a * B2R r) Hhi Ea (rounded_refl _)) as [H _].
    exact H. }
  destruct (mul_safe a r Fa Hr) as [Fq Rq]; [lra|]. fold q in Fq, Rq.
  destruct (step_q _ _ _ Hhi Ea Rq) as [_ Eq].
  (* 1 - 4 * r * r *)
  set (d := (js_lit 1 - q)%float).
  assert (Hd0 : (Rabs (1 - B2R q) <= 2)%R).
  { destruct (step_d (B2R r) (B2R q) (1 - B2R q) Hhi Eq (rounded_refl _)) as [H _].
    exact H. }
  destruct (sub_safe (js_lit 1) q F1 Fq) as [Fd Rd]; [rewrite B2R_lit_1; lra|].
  fold d in Fd, Rd. rewrite B2R_lit_1 in Rd.
  destruct (step_d _ _ _ Hhi Eq Rd) as (_ & Ed & Hd1 & Hd2).
  assert (Hdisc : (d <? js_lit 0)%float = false).
  { apply ltb_false_real; [exact Fd | reflexivity |]. rewrite B2R_lit_0. lra. }
  rewrite Hdisc.
  (* the square root *)
  set (s := PrimFloat.sqrt d).
  destruct (sqrt_safe d Fd ltac:(lra)) as [Fs Rs]. fold s in Fs, Rs.
  destruct (step_s _ _ _ Hhi Ed Hd1 Rs) as [HS Es].
  set (S := R_sqrt.sqrt (1 - 4 * B2R r * B2R r)) in *.
  (* 1 - sqrt *)
  set (u := (js_lit 1 - s)%float).
  assert (Hu0 : (Rabs (1 - B2R s) <= 1)%R).
  { destruct (step_u (B2R s) S (1 - B2R s) HS Es (rounded_refl _)) as [H _]. exact H. }
  destruct (sub_safe (js_lit 1) s F1 Fs) as [Fu Ru]; [rewrite B2R_lit_1; lra|].
  fold u in Fu, Ru. rewrite B2R_lit_1 in Ru.
  destruct (step_u _ _ _ HS Es Ru) as [_ Eu].
  (* 2 * r *)
  set (b := (js_lit 2 * r)%float).
  assert (Hb0 : (Rabs (2 * B2R r) <= 1)%R).
  { rewrite Rabs_mult, (Rabs_pos_eq 2) by lra. lra. }
  destruct (mul_safe (js_lit 2) r F2 Hr) as [Fb Rb]; [rewrite B2R_lit_2; lra|].
  fold b in Fb, Rb. rewrite B2R_lit_2 in Rb.
  destruct (step_b _ _ (conj Hlo Hhi) Rb) as [_ Eb].
  (* the quotient *)
  destruct (step_t _ _ _ (conj Hlo Hhi) Eu Eb) as (Hbn & Hq1 & Ht).
  set (t1 := (u / b)%float).
  destruct (div_safe u b Fu Fb Hbn) as [Ft Rt]; [lra|]. fold t1 in Ft, Rt.
  destruct (Ht _ Rt) as [Habs Hroot].
  assert (H1 : (abs t1 <=? js_lit 1)%float = true).
  { apply leb_real; [now rewrite abs_finite | reflexivity |].
    rewrite B2R_abs, B2R_lit_1. lra. }
  rewrite H1.
  assert (H2 : (js_lit 0.99 <? abs t1)%float = false).
  { apply ltb_false_real; [reflexivity | now rewrite abs_finite |].
    rewrite B2R_abs. pose proof B2R_lit_099. lra. }
  rewrite H2.
  split; [exact Ft|]. split; [exact Habs|]. split; [discriminate|]. intros _.
  split; [exact Hroot|]. apply tolerance_small. exact Hlo.
Qed.

(** C4 (as the code has it): on binary64, for 3 or more prices, let r be the
    lag-1 autocorrelation of the de-meaned differences clamped to
    [-0.49, 0.49] and theta the coefficient fitMA1OnDiff returns.  Both are
    finite and |theta| <= 0.985, so theta is the invertible root and the
    clamp to +/-0.99 never engages.  When |r| is below the zero tolerance
    1e-6, theta is 0.  Otherwise theta satisfies r = theta / (1 + theta^2),
    the relation of the model x_t = e_t + theta e_(t-1) whose residual
    recursion the fitter runs, up to the rounding of the seven operations
    that compute it: as real numbers the two sides differ by at most
    2^-50 / |r|, which is below 1e-9. *)
Theorem ma1_root_equation (prices : list float) :
  (3 <= length prices)%nat ->
  let r : float := Math_max (- #0.49) (Math_min #0.49 (ma1_rho1 prices)) in
  let theta : float := ma_theta (fitMA1OnDiff prices) in
  isFinite r = true /\ isFinite theta = true /\
  (Rabs (B2R r) <= 4901 / 10000)%R /\
  (Rabs (B2R theta) <= 985 / 1000)%R /\
  ((Math_abs r <? #1e-6) = true -> theta = #0) /\
  ((Math_abs r <? #1e-6) = false ->
   (Rabs (B2R r - B2R theta / (1 + B2R theta * B2R theta)) <= bpow (-50) / Rabs (B2R r)
    <= / 1000000000)%R).
Proof.
  intros Hlen r theta.
  pose proof (ma1_rho1_is_finite prices) as Hrho.
  destruct (clamp_real _ Hrho) as [Hr Hhi].
  destruct (estimateTheta_root _ Hrho) as (Ht & Habs & H0 & Hroot).
  assert (E : theta = estimateThetaFromACF1 (ma1_rho1 prices)).
  { unfold theta, fitMA1OnDiff.
    destruct (Nat.ltb_spec (length prices) 3) as [Hlt|_]; [lia | reflexivity]. }
  rewrite E. fold r in Hr, Hhi, H0, Hroot.
  repeat split; try assumption; now apply Hroot.
Qed.

(** *** normalCdf on the two sides of 0 *)

(** X11: for z > 0, [normalCdf] computes the same [prob] as at -z, which it
    returns there, and takes it from 1 twice: normalCdf(z) is
    1 - (1 - normalCdf(-z)), in every host.  So the function is even up to
    the rounding of the two subtractions: when the result is finite, the two
    values differ by at most eps64 (|1 - p| + |1 - m|) + 2 eta64, with
    p = normalCdf(-z) and m the binary64 1 - p. *)
Theorem normalCdf_even (z : float) :
  (z >? #0) = true ->
  let p : float := normalCdf (- z) in
  let m : float := #1 - p in
  normalCdf z = #1 - m /\
  (isFinite (normalCdf z) = true ->
   (Rabs (B2R (normalCdf z) - B2R p)
    <= eps64 * (Rabs (1 - B2R p) + Rabs (1 - B2R m)) + 2 * eta64)%R).
Proof.
  intros Hz p m.
  cbn [nltb lit float_Num] in Hz. change (js_lit 0) with 0%float in Hz.
  destruct (positive_opp z Hz) as (H1 & H2 & H3).
  assert (E : normalCdf z = #1 - m).
  { unfold m, p, normalCdf.
    cbn [nltb nleb nneg nmul nsub nadd ndiv lit Math_abs Math_exp float_Num].
    change (js_lit 0) with 0%float.
    rewrite Hz, H1, H2, H3, abs_opp, opp_opp, (mul_comm z (- z)). reflexivity. }
  split; [exact E|].
  rewrite E. clear E. subst m. cbn [nsub lit float_Num]. intros Hfin.
  destruct (sub_finite_inv _ _ Hfin) as [_ Hm].
  pose proof (sub_error _ _ Hfin) as E1. pose proof (sub_error _ _ Hm) as E2.
  unfold rounded in E1, E2.
  rewrite B2R_lit_1 in E1, E2.
  set (v := B2R (js_lit 1 - (js_lit 1 - p))%float) in *.
  set (w := B2R (js_lit 1 - p)%float) in *.
  replace (v - B2R p)%R with ((v - (1 - w)) - (w - (1 - B2R p)))%R by ring.
  eapply Rle_trans; [apply Rabs_triang|]. rewrite Rabs_Ropp. lra.
Qed.

End RoundedProps.

(** ** The rounded properties on concrete series *)

Section RoundedExamples.

#[local] Existing Instance RefLibm.libm.
Local Open Scope js_scope.

(** The criteria of the three fitters on the prices 0, 1, 3, 2, 5, all
    finite. *)
Lemma information_criteria_identity_witness :
  let prices := [0; 1; 3; 2; 5]%float in
  (let fit := fitAR1OnDiff prices in
   isFinite (ar_AIC fit) = true /\ isFinite (ar_BIC fit) = true /\
   criteria_agree 2 (ar_AIC fit) (ar_BIC fit)
                  (Math_log (of_nat (length (ar_residuals fit))))) /\
  (let fit := fitMA1OnDiff prices in
   isFinite (ma_AIC fit) = true /\ isFinite (ma_BIC fit) = true /\
   criteria_agree 2 (ma_AIC fit) (ma_BIC fit)
                  (Math_log (of_nat (length (ma_residuals fit))))) /\
  (let fit := fitARMA11OnDiff prices in
   isFinite (arma_AIC fit) = true /\ isFinite (arma_BIC fit) = true /\
   criteria_agree 3 (arma_AIC fit) (arma_BIC fit)
                  (Math_log (of_nat (length (arma_residuals fit))))).
Proof.
  intros prices.
  destruct (information_criteria_identity (L := RefLibm.libm) prices) as (Har & Hma & Harma).
  - simpl. lia.
  - destruct Har as (_ & _ & _ & Har); [simpl; lia|].
    destruct Hma as (_ & _ & _ & Hma); [simpl; lia|].
    destruct Harma as (_ & _ & _ & Harma); [simpl; lia|].
    assert (F1 : isFinite (ar_AIC (fitAR1OnDiff prices)) = true) by (vm_compute; reflexivity).
    assert (F2 : isFinite (ar_BIC (fitAR1OnDiff prices)) = true) by (vm_compute; reflexivity).
    assert (F3 : isFinite (ma_AIC (fitMA1OnDiff prices)) = true) by (vm_compute; reflexivity).
    assert (F4 : isFinite (ma_BIC (fitMA1OnDiff prices)) = true) by (vm_compute; reflexivity).
    assert (F5 : isFinite (arma_AIC (fitARMA11OnDiff prices)) = true)
      by (vm_compute; reflexivity).
    assert (F6 : isFinite (arma_BIC (fitARMA11OnDiff prices)) = true)
      by (vm_compute; reflexivity).
    repeat split; try assumption; [apply Har | apply Hma | apply Harma]; assumption.
Defined.

(** The root equation on the prices 0, 1, 0, 1, 0, where r = -0.49. *)
Lemma ma1_root_equation_witness :
  let prices := [0; 1; 0; 1; 0]%float in
  let r : float := Math_max (- #0.49) (Math_min #0.49 (ma1_rho1 prices)) in
  let theta : float := ma_theta (fitMA1OnDiff prices) in
  (Math_abs r <? #1e-6) = false /\
  (Rabs (B2R theta) <= 985 / 1000)%R /\
  (Rabs (B2R r - B2R theta / (1 + B2R theta * B2R theta)) <= bpow (-50) / Rabs (B2R r)
   <= / 1000000000)%R.
Proof.
  intros prices r theta.
  destruct (ma1_root_equation (L := RefLibm.libm) prices) as (_ & _ & _ & Habs & _ & Hroot).
  - simpl. lia.
  - assert (Hbig : (Math_abs r <? #1e-6) = false) by (vm_compute; reflexivity).
    split; [exact Hbig|]. split; [exact Habs|]. apply Hroot. exact Hbig.
Defined.

(** normalCdf at 1 and at -1. *)
Lemma normalCdf_even_witness :
  let z : float := #1 in
  let p : float := normalCdf (- z) in
  let m : float := #1 - p in
  normalCdf z = #1 - m /\
  (Rabs (B2R (normalCdf z) - B2R p)
   <= eps64 * (Rabs (1 - B2R p) + Rabs (1 - B2R m)) + 2 * eta64)%R.
Proof.
  intros z p m.
  destruct (normalCdf_even (L := RefLibm.libm) z) as [H1 H2]; [reflexivity|].
  split; [exact H1 | apply H2; vm_compute; reflexivity].
Defined.

End RoundedExamples.
